(** * har-extractor: a shallow embedding of [main.go]

    The program reads a HAR capture with a streaming JSON decoder, looks for
    the [entries] array and writes every recorded response body below an
    output directory.  This development embeds [safeFileName], [processEntry]
    and [processHar] together with the parts of the Go standard library they
    call, and states the properties of the extraction as theorems.

    Go strings are byte strings: they are modelled by Rocq's [string], whose
    characters are the 256 bytes.  Runes and integers are [Z]. *)

From Stdlib Require Import ZArith Ascii String List Bool Lia.
From stdpp Require Import gmap strings list fin_maps.

Local Open Scope Z_scope.

(** ** Bytes and strings *)

Definition code (c : ascii) : Z := Z.of_N (N_of_ascii c).
Definition chr (z : Z) : ascii := ascii_of_N (Z.to_N z).

(** [s[i]]: the byte at index [i] (0 outside of the string; every use below
    is guarded by a length test, as in the Go sources). *)
Definition byteAt (s : string) (i : nat) : Z :=
  match String.get i s with Some c => code c | None => 0 end.

(** [s[n:]] and [s[:n]]. *)
Fixpoint sdrop (n : nat) (s : string) : string :=
  match n, s with
  | O, _ => s
  | S n', String _ s' => sdrop n' s'
  | S _, EmptyString => EmptyString
  end.

Fixpoint stake (n : nat) (s : string) : string :=
  match n, s with
  | O, _ => EmptyString
  | S n', String c s' => String c (stake n' s')
  | S _, EmptyString => EmptyString
  end.

Definition slen (s : string) : nat := String.length s.

Fixpoint bytes_of (s : string) : list Z :=
  match s with
  | EmptyString => []
  | String c s' => code c :: bytes_of s'
  end.

Fixpoint string_of (l : list Z) : string :=
  match l with
  | [] => EmptyString
  | b :: l' => String (chr b) (string_of l')
  end.

Definition seqb (a b : string) : bool := bool_decide (a = b).

(** ** unicode/utf8 *)

Module utf8.

Definition RuneError : Z := 0xFFFD.
Definition RuneSelf : Z := 0x80.
Definition MaxRune : Z := 0x10FFFF.
Definition surrogateMin : Z := 0xD800.
Definition surrogateMax : Z := 0xDFFF.

Definition locb : Z := 0x80.
Definition hicb : Z := 0xBF.

(** The [first] table: information about the first byte of an encoding.
    [xx] is an invalid byte, [as_] an ASCII byte; otherwise the low three
    bits give the size and the high four bits index [acceptRanges]. *)
Definition xx : Z := 0xF1.
Definition as_ : Z := 0xF0.
Definition s1 : Z := 0x02.
Definition s2 : Z := 0x13.
Definition s3 : Z := 0x03.
Definition s4 : Z := 0x23.
Definition s5 : Z := 0x34.
Definition s6 : Z := 0x04.
Definition s7 : Z := 0x44.

Definition first (b : Z) : Z :=
  if b <? 0x80 then as_
  else if b <? 0xC2 then xx
  else if b <? 0xE0 then s1
  else if b =? 0xE0 then s2
  else if b <? 0xED then s3
  else if b =? 0xED then s4
  else if b <? 0xF0 then s3
  else if b =? 0xF0 then s5
  else if b <? 0xF4 then s6
  else if b =? 0xF4 then s7
  else xx.

Definition acceptRanges (i : Z) : Z * Z :=
  if i =? 0 then (locb, hicb)
  else if i =? 1 then (0xA0, hicb)
  else if i =? 2 then (locb, 0x9F)
  else if i =? 3 then (0x90, hicb)
  else (locb, 0x8F).

Definition maskx : Z := 0x3F.
Definition mask2 : Z := 0x1F.
Definition mask3 : Z := 0x0F.
Definition mask4 : Z := 0x07.

(** The part of [DecodeRuneInString] for a first byte [b0] that starts an
    encoding of [sz] bytes whose second byte is between [lo] and [hi]. *)
Definition decodeMulti (s : string) (b0 : Z) (sz : nat) (lo hi : Z)
  : Z * nat :=
  let n := slen s in
  if (n <? sz)%nat then (RuneError, 1%nat)
  else
    let b1 := byteAt s 1 in
    if (b1 <? lo) || (hi <? b1) then (RuneError, 1%nat)
    else if (sz <=? 2)%nat then
      (Z.lor (Z.shiftl (Z.land b0 mask2) 6) (Z.land b1 maskx), 2%nat)
    else
      let b2 := byteAt s 2 in
      if (b2 <? locb) || (hicb <? b2) then (RuneError, 1%nat)
      else if (sz <=? 3)%nat then
        (Z.lor (Z.lor (Z.shiftl (Z.land b0 mask3) 12)
                      (Z.shiftl (Z.land b1 maskx) 6))
               (Z.land b2 maskx), 3%nat)
      else
        let b3 := byteAt s 3 in
        if (b3 <? locb) || (hicb <? b3) then (RuneError, 1%nat)
        else
          (Z.lor (Z.lor (Z.lor (Z.shiftl (Z.land b0 mask4) 18)
                               (Z.shiftl (Z.land b1 maskx) 12))
                        (Z.shiftl (Z.land b2 maskx) 6))
                 (Z.land b3 maskx), 4%nat).

(** [utf8.DecodeRuneInString]: the first rune of [s] and its width in
    bytes; [(RuneError, 0)] on the empty string and [(RuneError, 1)] on a
    byte that starts no valid encoding. *)
Definition DecodeRuneInString (s : string) : Z * nat :=
  let n := slen s in
  if (n <? 1)%nat then (RuneError, 0%nat)
  else
    let b0 := byteAt s 0 in
    let x := first b0 in
    if x >=? as_ then
      (if x =? xx then RuneError else b0, 1%nat)
    else
      let sz := Z.to_nat (Z.land x 7) in
      let '(lo, hi) := acceptRanges (Z.shiftr x 4) in
      decodeMulti s b0 sz lo hi.

(** [utf8.RuneLen]; [-1] when the rune has no encoding. *)
Definition RuneLen (r : Z) : Z :=
  if r <? 0 then -1
  else if r <=? 0x7F then 1
  else if r <=? 0x7FF then 2
  else if (surrogateMin <=? r) && (r <=? surrogateMax) then -1
  else if r <=? 0xFFFF then 3
  else if r <=? MaxRune then 4
  else -1.

(** [byte(z)]: the low eight bits. *)
Definition byte (z : Z) : Z := z mod 256.

Definition encode3 (r : Z) : list Z :=
  [ Z.lor 0xE0 (byte (Z.shiftr r 12));
    Z.lor 0x80 (Z.land (byte (Z.shiftr r 6)) maskx);
    Z.lor 0x80 (Z.land (byte r) maskx) ].

(** [utf8.AppendRune] on an empty buffer: the encoding of [r]; runes out
    of range and surrogates are encoded as [RuneError].  The switch is on
    [uint32(r)]. *)
Definition EncodeRune (r : Z) : list Z :=
  let i := r mod 2 ^ 32 in
  if i <=? 0x7F then [ byte r ]
  else if i <=? 0x7FF then
    [ Z.lor 0xC0 (byte (Z.shiftr r 6)); Z.lor 0x80 (Z.land (byte r) maskx) ]
  else if (MaxRune <? i) || ((surrogateMin <=? i) && (i <=? surrogateMax))
    then encode3 RuneError
  else if i <=? 0xFFFF then encode3 r
  else
    [ Z.lor 0xF0 (byte (Z.shiftr r 18));
      Z.lor 0x80 (Z.land (byte (Z.shiftr r 12)) maskx);
      Z.lor 0x80 (Z.land (byte (Z.shiftr r 6)) maskx);
      Z.lor 0x80 (Z.land (byte r) maskx) ].

End utf8.

(** ** strings.Map *)

Module strings.

(** What [Builder.WriteRune] and [WriteByte] append for a mapped rune [r]:
    nothing when [r] is negative. *)
Definition written (r : Z) : string :=
  if r <? 0 then EmptyString
  else if r <? utf8.RuneSelf then String (chr r) EmptyString
  else string_of (utf8.EncodeRune r).

(** The second loop of [strings.Map]: every rune of the rest of the input
    is mapped and appended to the builder. *)
Fixpoint Map_rest (mapping : Z → Z) (fuel : nat) (s : string) : string :=
  match fuel with
  | O => EmptyString
  | S fuel' =>
      match s with
      | EmptyString => EmptyString
      | _ =>
          let '(c, size) := utf8.DecodeRuneInString s in
          written (mapping c) +:+ Map_rest mapping fuel' (sdrop size s)
      end
  end.

(** The first loop of [strings.Map]: it looks for the first rune that the
    mapping changes or that is an invalid byte.  [pre] is [s[:i]], the part
    of the input already seen to be unchanged.  The result is [None] when
    the loop ends without a change (the builder was never grown), and
    otherwise the contents of the builder together with the rest of the
    input. *)
Fixpoint Map_first (mapping : Z → Z) (fuel : nat) (pre s : string)
  : option (string * string) :=
  match fuel with
  | O => None
  | S fuel' =>
      match s with
      | EmptyString => None
      | _ =>
          let '(c, size) := utf8.DecodeRuneInString s in
          let r := mapping c in
          if (r =? c) && negb (c =? utf8.RuneError) then
            Map_first mapping fuel' (pre +:+ stake size s) (sdrop size s)
          else if c =? utf8.RuneError then
            let '(c', width) := utf8.DecodeRuneInString s in
            if negb (width =? 1)%nat && (r =? c') then
              Map_first mapping fuel' (pre +:+ stake size s) (sdrop size s)
            else
              Some (pre +:+ (if 0 <=? r then string_of (utf8.EncodeRune r)
                             else EmptyString),
                    sdrop width s)
          else
            let width := Z.to_nat (utf8.RuneLen c) in
            Some (pre +:+ (if 0 <=? r then string_of (utf8.EncodeRune r)
                           else EmptyString),
                  sdrop width s)
      end
  end.

(** [strings.Map]: a rune uses up at least one byte, so the length of the
    input is fuel enough for both loops. *)
Definition Map (mapping : Z → Z) (s : string) : string :=
  match Map_first mapping (slen s) EmptyString s with
  | None => s
  | Some (b, rest) => b +:+ Map_rest mapping (slen rest) rest
  end.

(** ** strings.Split *)

(** [strings.HasPrefix]. *)
Fixpoint HasPrefix (s prefix : string) : bool :=
  match prefix, s with
  | EmptyString, _ => true
  | String a prefix', String b s' =>
      bool_decide (a = b) && HasPrefix s' prefix'
  | String _ _, EmptyString => false
  end.

(** [strings.Index]: the index of the first instance of [substr] in [s];
    [None] stands for -1. *)
Fixpoint Index (s substr : string) : option nat :=
  if HasPrefix s substr then Some 0%nat
  else
    match s with
    | EmptyString => None
    | String _ s' => option_map S (Index s' substr)
    end.

(** [utf8.RuneCountInString], by the runes [range] goes through. *)
Fixpoint RuneCount (fuel : nat) (s : string) : nat :=
  match fuel with
  | O => O
  | S fuel' =>
      match s with
      | EmptyString => O
      | _ =>
          let '(_, size) := utf8.DecodeRuneInString s in
          S (RuneCount fuel' (sdrop size s))
      end
  end.

(** The loop of [strings.Count] for a separator that is not empty: the
    instances that do not overlap. *)
Fixpoint Count_loop (fuel : nat) (s substr : string) (n : nat) : nat :=
  match fuel with
  | O => n
  | S fuel' =>
      match Index s substr with
      | None => n
      | Some i => Count_loop fuel' (sdrop (i + slen substr) s) substr (S n)
      end
  end.

(** [strings.Count]: an instance uses up at least a byte, so the length
    of [s] and one more is fuel enough. *)
Definition Count (s substr : string) : nat :=
  if (slen substr =? 0)%nat then S (RuneCount (slen s) s)
  else Count_loop (S (slen s)) s substr 0.

(** The loop of [explode]: [k] is [n - 1 - i]. *)
Fixpoint explode_loop (k : nat) (s : string) : list string :=
  match k with
  | O => [s]
  | S k' =>
      let '(_, size) := utf8.DecodeRuneInString s in
      stake size s :: explode_loop k' (sdrop size s)
  end.

(** [explode]: [s] cut into its runes, [n] of them at most. *)
Definition explode (s : string) (n : Z) : list string :=
  let l := Z.of_nat (RuneCount (slen s) s) in
  let n := if (n <? 0) || (l <? n) then l else n in
  if 0 <? n then explode_loop (Z.to_nat (n - 1)) s else [].

(** The loop of [genSplit]: [k] is [n - i], the number of cuts left. *)
Fixpoint genSplit_loop (k : nat) (s sep : string) (sepSave : nat)
  : list string :=
  match k with
  | O => [s]
  | S k' =>
      match Index s sep with
      | None => [s]
      | Some m =>
          stake (m + sepSave) s
          :: genSplit_loop k' (sdrop (m + slen sep) s) sep sepSave
      end
  end.

(** [genSplit]: [s] cut after each instance of [sep], [n] pieces at most
    when [n] is positive, all of them when it is negative. *)
Definition genSplit (s sep : string) (sepSave : nat) (n : Z) : list string :=
  if n =? 0 then []
  else if seqb sep "" then explode s n
  else
    let n := if n <? 0 then Z.of_nat (Count s sep) + 1 else n in
    let n := if Z.of_nat (slen s) + 1 <? n then Z.of_nat (slen s) + 1 else n in
    genSplit_loop (Z.to_nat (n - 1)) s sep sepSave.

(** [strings.Split]. *)
Definition Split (s sep : string) : list string := genSplit s sep 0 (-1).

End strings.

(** ** [safeFileName] (main.go, lines 63-70) *)

Definition safeFileName_mapping (r : Z) : Z :=
  if (r =? code "/") || (r =? code "\") then code "-" else r.

Definition safeFileName (s : string) : string :=
  strings.Map safeFileName_mapping s.

(** ** path/filepath (Unix: the separator is [/], there is no volume name) *)

Module filepath.

Definition is_sep (c : ascii) : bool := bool_decide (c = "/"%char).

(** The head of a string is a separator, or the string is empty: the test
    [r+k == n || path[r+k] == '/'] of [Clean]. *)
Definition end_or_sep (s : string) : bool :=
  match s with
  | EmptyString => true
  | String c _ => is_sep c
  end.

Definition starts_dot (s : string) : bool :=
  match s with
  | String c _ => bool_decide (c = "."%char)
  | EmptyString => false
  end.

(** The inner loop of the [..] case: [out.w--], then back to the previous
    separator, never below [dotdot]. *)
Fixpoint backup (out : string) (dotdot w : nat) : nat :=
  match w with
  | O => O
  | S w' =>
      if (dotdot <? w)%nat && negb (byteAt out w =? code "/")
      then backup out dotdot w'
      else w
  end.

(** The component that starts the string, and what follows it. *)
Fixpoint component (s : string) : string * string :=
  match s with
  | EmptyString => (EmptyString, EmptyString)
  | String c s' =>
      if is_sep c then (EmptyString, s)
      else let '(a, b) := component s' in (String c a, b)
  end.

(** The main loop of [Clean]: [p] is [path[r:]], [out] the buffer
    [out.buf[:out.w]]. *)
Fixpoint Clean_loop (fuel : nat) (rooted : bool) (p out : string)
    (dotdot : nat) : string :=
  match fuel with
  | O => out
  | S fuel' =>
      match p with
      | EmptyString => out
      | String c p1 =>
          if is_sep c then
            (* empty path element *)
            Clean_loop fuel' rooted p1 out dotdot
          else if bool_decide (c = "."%char) && end_or_sep p1 then
            (* . element *)
            Clean_loop fuel' rooted p1 out dotdot
          else if bool_decide (c = "."%char) && starts_dot p1
                  && end_or_sep (sdrop 1 p1) then
            (* .. element: remove to last separator *)
            let p2 := sdrop 1 p1 in
            if (dotdot <? slen out)%nat then
              (* can backtrack *)
              let w := backup out dotdot (slen out - 1) in
              Clean_loop fuel' rooted p2 (stake w out) dotdot
            else if negb rooted then
              (* cannot backtrack, but not rooted, so append .. element *)
              let out1 := if (0 <? slen out)%nat then out +:+ "/" else out in
              let out2 := out1 +:+ ".." in
              Clean_loop fuel' rooted p2 out2 (slen out2)
            else
              Clean_loop fuel' rooted p2 out dotdot
          else
            (* real path element: add slash if needed, copy element *)
            let out1 :=
              if (rooted && negb (slen out =? 1)%nat)
                 || (negb rooted && negb (slen out =? 0)%nat)
              then out +:+ "/" else out in
            let '(elem, rest) := component p in
            Clean_loop fuel' rooted rest (out1 +:+ elem) dotdot
      end
  end.

(** [filepath.Clean]: every turn of the loop uses up a byte of the path,
    whose length is the fuel. *)
Definition Clean (path : string) : string :=
  match path with
  | EmptyString => "."
  | String c p1 =>
      let rooted := is_sep c in
      let out :=
        if rooted then Clean_loop (slen path) true p1 "/" 1
        else Clean_loop (slen path) false path "" 0 in
      (* turn empty string into "." *)
      if (slen out =? 0)%nat then "." else out
  end.

(** [strings.Join(elem, "/")]. *)
Fixpoint join_sep (elem : list string) : string :=
  match elem with
  | [] => EmptyString
  | [e] => e
  | e :: rest => e +:+ "/" +:+ join_sep rest
  end.

(** [filepath.Join]: the elements from the first non-empty one on are
    joined by the separator and the result is cleaned. *)
Fixpoint Join (elem : list string) : string :=
  match elem with
  | [] => EmptyString
  | e :: rest =>
      if negb (seqb e "") then Clean (join_sep elem) else Join rest
  end.

(** The number of bytes of [s] up to and including its last separator. *)
Fixpoint after_last_sep (s : string) : nat :=
  match s with
  | EmptyString => O
  | String c s' =>
      match after_last_sep s' with
      | O => if is_sep c then 1%nat else O
      | S k => S (S k)
      end
  end.

(** [filepath.Dir]. *)
Definition Dir (path : string) : string :=
  Clean (stake (after_last_sep path) path).

(** [path] without its trailing separators. *)
Fixpoint strip_trailing (s : string) : string :=
  match s with
  | EmptyString => EmptyString
  | String c s' =>
      match strip_trailing s' with
      | EmptyString => if is_sep c then EmptyString else String c EmptyString
      | t => String c t
      end
  end.

(** [filepath.Base]. *)
Definition Base (path : string) : string :=
  match path with
  | EmptyString => "."
  | _ =>
      let p := strip_trailing path in
      let p := sdrop (after_last_sep p) p in
      match p with
      | EmptyString => "/"
      | _ => p
      end
  end.

End filepath.

(** ** Errors

    The error values the program can return, by the package that makes
    them.  Only their kind matters to the program, which hands every error
    to its caller unchanged. *)

Inductive error : Type :=
  | io_EOF                                  (* io.EOF *)
  | io_ErrUnexpectedEOF                     (* io.ErrUnexpectedEOF *)
  | json_SyntaxError (msg : string)         (* *json.SyntaxError *)
  | json_UnmarshalTypeError (val : string)  (* *json.UnmarshalTypeError *)
  | url_Error (msg : string)                (* *url.Error *)
  | base64_CorruptInputError (off : nat)    (* base64.CorruptInputError *)
  | fs_PathError (op path : string)         (* *fs.PathError *)
  | os_ErrClosed.                           (* os.ErrClosed *)

(** ** encoding/base64, [StdEncoding] (padded, not strict) *)

Module base64.

(** [encodeStd[i]]. *)
Definition encodeStd (i : Z) : ascii :=
  if i <? 26 then chr (code "A" + i)
  else if i <? 52 then chr (code "a" + (i - 26))
  else if i <? 62 then chr (code "0" + (i - 52))
  else if i =? 62 then "+"%char
  else "/"%char.

(** [enc.decodeMap[c]]; [None] stands for the entry 0xff. *)
Definition decodeMap (c : ascii) : option Z :=
  let z := code c in
  if (code "A" <=? z) && (z <=? code "Z") then Some (z - code "A")
  else if (code "a" <=? z) && (z <=? code "z") then Some (z - code "a" + 26)
  else if (code "0" <=? z) && (z <=? code "9") then Some (z - code "0" + 52)
  else if z =? code "+" then Some 62
  else if z =? code "/" then Some 63
  else None.

Definition padChar : ascii := "="%char.

Definition is_newline (c : ascii) : bool :=
  (code c =? 10) || (code c =? 13).

(** [Encoding.Encode]: three bytes give four characters; a last block of
    one or two bytes is padded. *)
Fixpoint EncodeToString (src : string) : string :=
  match src with
  | String a (String b (String c rest)) =>
      let val := Z.lor (Z.lor (Z.shiftl (code a) 16) (Z.shiftl (code b) 8))
                       (code c) in
      String (encodeStd (Z.land (Z.shiftr val 18) 0x3F))
     (String (encodeStd (Z.land (Z.shiftr val 12) 0x3F))
     (String (encodeStd (Z.land (Z.shiftr val 6) 0x3F))
     (String (encodeStd (Z.land val 0x3F))
     (EncodeToString rest))))
  | String a (String b EmptyString) =>
      let val := Z.lor (Z.shiftl (code a) 16) (Z.shiftl (code b) 8) in
      String (encodeStd (Z.land (Z.shiftr val 18) 0x3F))
     (String (encodeStd (Z.land (Z.shiftr val 12) 0x3F))
     (String (encodeStd (Z.land (Z.shiftr val 6) 0x3F))
     (String padChar EmptyString)))
  | String a EmptyString =>
      let val := Z.shiftl (code a) 16 in
      String (encodeStd (Z.land (Z.shiftr val 18) 0x3F))
     (String (encodeStd (Z.land (Z.shiftr val 12) 0x3F))
     (String padChar (String padChar EmptyString)))
  | EmptyString => EmptyString
  end.

(** Skip over newlines: [for si < len(src) && (src[si] == '\n' ||
    src[si] == '\r') { si++ }]. *)
Fixpoint skip_newlines (src : string) (si : nat) : string * nat :=
  match src with
  | String c rest =>
      if is_newline c then skip_newlines rest (S si) else (src, si)
  | EmptyString => (src, si)
  end.

(** The outcome of reading one quantum. *)
Inductive quantum : Type :=
  | QDone                      (* the input ended before the quantum *)
  | QErr (off : nat)           (* CorruptInputError(off) *)
  | QOk (dlen : nat) (dbuf : list Z) (rest : string) (si : nat)
        (err : option nat).    (* [err]: trailing garbage after padding *)

(** After the padding: skip newlines; what is left is trailing garbage. *)
Definition after_padding (j : nat) (dbuf : list Z) (src : string)
    (si : nat) : quantum :=
  let '(rest, si') := skip_newlines src si in
  QOk j dbuf rest si'
      (match rest with EmptyString => None | _ => Some si' end).

(** The reading loop of [decodeQuantum]: [src] is the input from index
    [si] on, [j] the number of characters of the quantum read so far and
    [dbuf] their values. *)
Fixpoint readQuantum (src : string) (si j : nat) (dbuf : list Z)
  : quantum :=
  if (4 <=? j)%nat then QOk 4 dbuf src si None
  else
    match src with
    | EmptyString =>
        if (j =? 0)%nat then QDone else QErr (si - j)
    | String c rest =>
        let si := S si in
        match decodeMap c with
        | Some out => readQuantum rest si (S j) (dbuf ++ [out])
        | None =>
            if is_newline c then readQuantum rest si j dbuf
            else if negb (bool_decide (c = padChar)) then QErr (si - 1)
            else
              (* We've reached the end and there's padding *)
              match j with
              | 0%nat | 1%nat => QErr (si - 1)   (* incorrect padding *)
              | 2%nat =>
                  (* "==" is expected, the first "=" is already consumed *)
                  let '(rest1, si1) := skip_newlines rest si in
                  match rest1 with
                  | EmptyString => QErr si1      (* not enough padding *)
                  | String c2 rest2 =>
                      if negb (bool_decide (c2 = padChar))
                      then QErr (si1 - 1)        (* incorrect padding *)
                      else after_padding j dbuf rest2 (S si1)
                  end
              | _ => after_padding j dbuf rest si
              end
        end
    end.

(** Convert 4x 6bit source bytes into 3 bytes; [dlen - 1] of them are
    output. *)
Definition quantum_bytes (dlen : nat) (dbuf : list Z) : string :=
  let d i := nth i dbuf 0 in
  let val := Z.lor (Z.lor (Z.lor (Z.shiftl (d 0%nat) 18)
                                 (Z.shiftl (d 1%nat) 12))
                          (Z.shiftl (d 2%nat) 6))
                   (d 3%nat) in
  stake (dlen - 1)
    (string_of [ utf8.byte (Z.shiftr val 16);
                 utf8.byte (Z.shiftr val 8);
                 utf8.byte (Z.shiftr val 0) ]).

(** [Encoding.Decode]: quantum after quantum until the input is used up.
    (The source first tries eight and four characters at a time and falls
    back on [decodeQuantum] when one of them is not in the alphabet; the
    bytes and errors are those of the quantum loop.) *)
Fixpoint Decode (fuel : nat) (src : string) (si : nat) (dst : string)
  : string * option error :=
  match fuel with
  | O => (dst, None)
  | S fuel' =>
      match src with
      | EmptyString => (dst, None)
      | _ =>
          match readQuantum src si 0 [] with
          | QDone => (dst, None)
          | QErr off => (dst, Some (base64_CorruptInputError off))
          | QOk dlen dbuf rest si' err =>
              let dst' := dst +:+ quantum_bytes dlen dbuf in
              match err with
              | Some off => (dst', Some (base64_CorruptInputError off))
              | None => Decode fuel' rest si' dst'
              end
          end
      end
  end.

(** [StdEncoding.DecodeString]: a quantum uses up at least one byte, so
    the length of the input is fuel enough. *)
Definition DecodeString (s : string) : string * option error :=
  Decode (slen s) s 0 EmptyString.

End base64.

(** ** The data model (main.go, lines 40-61) *)

Record Content : Type := mkContent {
  Size : Z;
  MimeType : string;
  Text : string;
  Compression : Z;
  Encoding : string;
}.

Record Response : Type := mkResponse {
  Status : Z;
  content : Content;
}.

Record Request : Type := mkRequest {
  Method : string;
  URL : string;
}.

Record Entry : Type := mkEntry {
  request : Request;
  response : Response;
}.

(** The zero value of [Entry]: what [var entry Entry] declares. *)
Definition zeroContent : Content := mkContent 0 "" "" 0 "".
Definition zeroEntry : Entry :=
  mkEntry (mkRequest "" "") (mkResponse 0 zeroContent).

(** ** encoding/json

    The byte stream is represented by the sequence of its JSON lexemes,
    white space dropped.  A string lexeme carries the string it denotes, a
    number lexeme its value when it is written as a decimal integer.
    [LBad] is a run of bytes that is no JSON lexeme, [LTrunc] a literal cut
    short by the end of the stream ([quoted]: it is a string). *)

Inductive lexeme : Type :=
  | LBrace | RBrace | LBrack | RBrack | Colon | Comma
  | LStr (s : string)
  | LNum (n : option Z)
  | LTrue | LFalse | LNull
  | LBad
  | LTrunc (quoted : bool).

#[local] Unset Elimination Schemes.
Inductive JValue : Type :=
  | JNull
  | JBool (b : bool)
  | JNum (n : option Z)
  | JStr (s : string)
  | JArr (l : list JValue)
  | JObj (l : list (string * JValue)).
#[local] Set Elimination Schemes.

Module json.

(** *** The scanner: one complete value ([Decoder.readValue]) *)

Definition result (A : Type) : Type := (A + error)%type.

(** The error of a value that cannot go on with lexeme [l]. *)
Definition stuck (l : option lexeme) : error :=
  match l with
  | None | Some (LTrunc _) => io_ErrUnexpectedEOF
  | _ => json_SyntaxError "invalid character"
  end.

Fixpoint scanValue (fuel : nat) (inp : list lexeme)
  : result (JValue * list lexeme) :=
  match fuel with
  | O => inr (stuck None)
  | S fuel' =>
      match inp with
      | LStr s :: rest => inl (JStr s, rest)
      | LNum n :: rest => inl (JNum n, rest)
      | LTrue :: rest => inl (JBool true, rest)
      | LFalse :: rest => inl (JBool false, rest)
      | LNull :: rest => inl (JNull, rest)
      | LBrack :: RBrack :: rest => inl (JArr [], rest)
      | LBrack :: rest =>
          match scanElements fuel' rest with
          | inl (vs, rest') => inl (JArr vs, rest')
          | inr e => inr e
          end
      | LBrace :: RBrace :: rest => inl (JObj [], rest)
      | LBrace :: rest =>
          match scanMembers fuel' rest with
          | inl (kvs, rest') => inl (JObj kvs, rest')
          | inr e => inr e
          end
      | _ => inr (stuck (head inp))
      end
  end

(** The elements of an array after its opening bracket, up to and
    including the closing one. *)
with scanElements (fuel : nat) (inp : list lexeme)
  : result (list JValue * list lexeme) :=
  match fuel with
  | O => inr (stuck None)
  | S fuel' =>
      match scanValue fuel' inp with
      | inr e => inr e
      | inl (v, RBrack :: rest) => inl ([v], rest)
      | inl (v, Comma :: rest) =>
          match scanElements fuel' rest with
          | inl (vs, rest') => inl (v :: vs, rest')
          | inr e => inr e
          end
      | inl (_, rest) => inr (stuck (head rest))
      end
  end

(** The members of an object after its opening brace. *)
with scanMembers (fuel : nat) (inp : list lexeme)
  : result (list (string * JValue) * list lexeme) :=
  match fuel with
  | O => inr (stuck None)
  | S fuel' =>
      match inp with
      | LStr k :: Colon :: rest =>
          match scanValue fuel' rest with
          | inr e => inr e
          | inl (v, RBrace :: rest') => inl ([(k, v)], rest')
          | inl (v, Comma :: rest') =>
              match scanMembers fuel' rest' with
              | inl (kvs, rest'') => inl ((k, v) :: kvs, rest'')
              | inr e => inr e
              end
          | inl (_, rest') => inr (stuck (head rest'))
          end
      | LStr _ :: rest => inr (stuck (head rest))
      | _ => inr (stuck (head inp))
      end
  end.

(** [readValue]: a call above that uses no lexeme is followed by one that
    does, so twice the number of lexemes is fuel enough ([readValue_fuel]). *)
Definition readValue (inp : list lexeme) : result (JValue * list lexeme) :=
  scanValue (2 * length inp + 2) inp.

(** *** Unmarshalling into the program's structs *)

(** [foldName], as far as names that fold to ASCII are concerned: ASCII
    letters are upper-cased; the two runes outside ASCII that fold to an
    ASCII letter are U+017F (to S) and U+212A (to K). *)
Definition upper (c : ascii) : ascii :=
  let z := code c in
  if (code "a" <=? z) && (z <=? code "z") then chr (z - 32) else c.

Fixpoint foldName (s : string) : string :=
  match s with
  | EmptyString => EmptyString
  | String c s1 =>
      match s1 with
      | String c1 s2 =>
          if (code c =? 0xC5) && (code c1 =? 0xBF)
          then String "S" (foldName s2)
          else
            match s2 with
            | String c2 s3 =>
                if (code c =? 0xE2) && (code c1 =? 0x84) && (code c2 =? 0xAA)
                then String "K" (foldName s3)
                else String (upper c) (foldName s1)
            | EmptyString => String (upper c) (foldName s1)
            end
      | EmptyString => String (upper c) (foldName s1)
      end
  end.

(** A key selects the field [name] (all the names of the program's structs
    are ASCII and differ after folding, so that the exact match the
    decoder tries first selects the same field). *)
Definition isField (key name : string) : bool :=
  seqb (foldName key) (foldName name).

Definition kindName (v : JValue) : string :=
  match v with
  | JNull => "null"
  | JBool _ => "bool"
  | JNum _ => "number"
  | JStr _ => "string"
  | JArr _ => "array"
  | JObj _ => "object"
  end.

(** [d.saveError]: the first error is kept. *)
Definition saveError (saved err : option error) : option error :=
  match saved with
  | Some _ => saved
  | None => err
  end.

Definition typeError (v : JValue) : option error :=
  Some (json_UnmarshalTypeError (kindName v)).

(** A value stored into a [string] field. *)
Definition storeString (v : JValue) (old : string) : string * option error :=
  match v with
  | JStr s => (s, None)
  | JNull => (old, None)
  | _ => (old, typeError v)
  end.

(** A value stored into an [int] field (64 bits). *)
Definition storeInt (v : JValue) (old : Z) : Z * option error :=
  match v with
  | JNum (Some z) =>
      if (- 2 ^ 63 <=? z) && (z <? 2 ^ 63) then (z, None)
      else (old, typeError v)
  | JNull => (old, None)
  | _ => (old, typeError v)
  end.

(** A value stored into a struct: the members of an object one after the
    other, [null] leaves the struct as it is, anything else is an error. *)
Definition storeStruct {A : Type}
    (member : string → JValue → A → A * option error)
    (v : JValue) (old : A) : A * option error :=
  match v with
  | JObj kvs =>
      fold_left
        (fun '(a, saved) '(k, x) =>
           let '(a', err) := member k x a in (a', saveError saved err))
        kvs (old, None)
  | JNull => (old, None)
  | _ => (old, typeError v)
  end.

Definition memberContent (k : string) (v : JValue) (c : Content)
  : Content * option error :=
  if isField k "size" then
    let '(x, e) := storeInt v (Size c) in
    (mkContent x (MimeType c) (Text c) (Compression c) (Encoding c), e)
  else if isField k "mimeType" then
    let '(x, e) := storeString v (MimeType c) in
    (mkContent (Size c) x (Text c) (Compression c) (Encoding c), e)
  else if isField k "text" then
    let '(x, e) := storeString v (Text c) in
    (mkContent (Size c) (MimeType c) x (Compression c) (Encoding c), e)
  else if isField k "compression" then
    let '(x, e) := storeInt v (Compression c) in
    (mkContent (Size c) (MimeType c) (Text c) x (Encoding c), e)
  else if isField k "encoding" then
    let '(x, e) := storeString v (Encoding c) in
    (mkContent (Size c) (MimeType c) (Text c) (Compression c) x, e)
  else (c, None).

Definition memberResponse (k : string) (v : JValue) (r : Response)
  : Response * option error :=
  if isField k "status" then
    let '(x, e) := storeInt v (Status r) in (mkResponse x (content r), e)
  else if isField k "content" then
    let '(x, e) := storeStruct memberContent v (content r) in
    (mkResponse (Status r) x, e)
  else (r, None).

Definition memberRequest (k : string) (v : JValue) (r : Request)
  : Request * option error :=
  if isField k "method" then
    let '(x, e) := storeString v (Method r) in (mkRequest x (URL r), e)
  else if isField k "url" then
    let '(x, e) := storeString v (URL r) in (mkRequest (Method r) x, e)
  else (r, None).

Definition memberEntry (k : string) (v : JValue) (en : Entry)
  : Entry * option error :=
  if isField k "request" then
    let '(x, e) := storeStruct memberRequest v (request en) in
    (mkEntry x (response en), e)
  else if isField k "response" then
    let '(x, e) := storeStruct memberResponse v (response en) in
    (mkEntry (request en) x, e)
  else (en, None).

(** [d.unmarshal(&entry)]. *)
Definition unmarshalEntry (v : JValue) (en : Entry) : Entry * option error :=
  storeStruct memberEntry v en.

(** *** The token API of [Decoder] *)

Inductive tokState : Type :=
  | tokenTopValue
  | tokenArrayStart
  | tokenArrayValue
  | tokenArrayComma
  | tokenObjectStart
  | tokenObjectKey
  | tokenObjectColon
  | tokenObjectValue
  | tokenObjectComma.

Record Decoder : Type := mkDecoder {
  input : list lexeme;          (* what is left of the stream *)
  tokenState : tokState;
  tokenStack : list tokState;
}.

(** [json.NewDecoder(reader)]. *)
Definition NewDecoder (reader : list lexeme) : Decoder :=
  mkDecoder reader tokenTopValue [].

Inductive Token : Type :=
  | Delim (c : ascii)
  | TString (s : string)
  | TNumber (n : option Z)
  | TBool (b : bool)
  | TNil.

Definition tokenValueAllowed (st : tokState) : bool :=
  match st with
  | tokenTopValue | tokenArrayStart | tokenArrayValue | tokenObjectValue =>
      true
  | _ => false
  end.

Definition tokenValueEnd (st : tokState) : tokState :=
  match st with
  | tokenArrayStart | tokenArrayValue => tokenArrayComma
  | tokenObjectValue => tokenObjectComma
  | _ => st
  end.

Definition tokenError : error := json_SyntaxError "invalid character".

(** The state popped off the stack at a closing delimiter. *)
Definition popState (stk : list tokState) : tokState * list tokState :=
  match reverse stk with
  | st :: rest => (st, reverse rest)
  | [] => (tokenTopValue, [])
  end.

(** The token of a scalar lexeme read as a value ([dec.Decode(&x)] with
    [x] of type [any] or [string]). *)
Definition scalarToken (l : lexeme) : result Token :=
  match l with
  | LStr s => inl (TString s)
  | LNum n => inl (TNumber n)
  | LTrue => inl (TBool true)
  | LFalse => inl (TBool false)
  | LNull => inl TNil
  | _ => inr (stuck (Some l))
  end.

(** [Decoder.Token]: the loop goes round again after a colon or a comma;
    at the end of the stream [peek] fails with [io.EOF]. *)
Fixpoint Token_loop (inp : list lexeme) (st : tokState)
    (stk : list tokState) : result Token * Decoder :=
  match inp with
  | [] => (inr io_EOF, mkDecoder inp st stk)
  | c :: rest =>
      match c with
      | LBrack =>
          if negb (tokenValueAllowed st)
          then (inr tokenError, mkDecoder inp st stk)
          else (inl (Delim "["), mkDecoder rest tokenArrayStart (stk ++ [st]))
      | RBrack =>
          match st with
          | tokenArrayStart | tokenArrayComma =>
              let '(st', stk') := popState stk in
              (inl (Delim "]"), mkDecoder rest (tokenValueEnd st') stk')
          | _ => (inr tokenError, mkDecoder inp st stk)
          end
      | LBrace =>
          if negb (tokenValueAllowed st)
          then (inr tokenError, mkDecoder inp st stk)
          else (inl (Delim "{"), mkDecoder rest tokenObjectStart (stk ++ [st]))
      | RBrace =>
          match st with
          | tokenObjectStart | tokenObjectComma =>
              let '(st', stk') := popState stk in
              (inl (Delim "}"), mkDecoder rest (tokenValueEnd st') stk')
          | _ => (inr tokenError, mkDecoder inp st stk)
          end
      | Colon =>
          match st with
          | tokenObjectColon => Token_loop rest tokenObjectValue stk
          | _ => (inr tokenError, mkDecoder inp st stk)
          end
      | Comma =>
          match st with
          | tokenArrayComma => Token_loop rest tokenArrayValue stk
          | tokenObjectComma => Token_loop rest tokenObjectKey stk
          | _ => (inr tokenError, mkDecoder inp st stk)
          end
      | _ =>
          let key :=
            match c, st with
            | (LStr _ | LTrunc true), (tokenObjectStart | tokenObjectKey) =>
                true
            | _, _ => false
            end in
          if key then
            match scalarToken c with
            | inl x => (inl x, mkDecoder rest tokenObjectColon stk)
            | inr err => (inr err, mkDecoder inp st stk)
            end
          else if negb (tokenValueAllowed st)
          then (inr tokenError, mkDecoder inp st stk)
          else
            match scalarToken c with
            | inl x => (inl x, mkDecoder rest (tokenValueEnd st) stk)
            | inr err => (inr err, mkDecoder inp st stk)
            end
      end
  end.

(** [decoder.Token()]. *)
Definition Token_ (dec : Decoder) : result Token * Decoder :=
  Token_loop (input dec) (tokenState dec) (tokenStack dec).

(** [Decoder.More]. *)
Definition More (dec : Decoder) : bool :=
  match input dec with
  | [] => false
  | RBrack :: _ | RBrace :: _ => false
  | _ => true
  end.

(** [tokenPrepareForDecode]. *)
Definition tokenPrepareForDecode (dec : Decoder) : result Decoder :=
  match tokenState dec with
  | tokenArrayComma =>
      match input dec with
      | [] => inr io_EOF
      | Comma :: rest => inl (mkDecoder rest tokenArrayValue (tokenStack dec))
      | _ => inr (json_SyntaxError "expected comma after array element")
      end
  | tokenObjectColon =>
      match input dec with
      | [] => inr io_EOF
      | Colon :: rest => inl (mkDecoder rest tokenObjectValue (tokenStack dec))
      | _ => inr (json_SyntaxError "expected colon after object key")
      end
  | _ => inl dec
  end.

(** [Decoder.Decode(&entry)] with [entry] a fresh zero value.  A value
    that reads well is used up even when it does not fit the struct. *)
Definition Decode (dec : Decoder) : result Entry * Decoder :=
  match tokenPrepareForDecode dec with
  | inr err => (inr err, dec)
  | inl dec1 =>
      if negb (tokenValueAllowed (tokenState dec1))
      then (inr (json_SyntaxError "not at beginning of value"), dec1)
      else
        match input dec1 with
        | [] => (inr io_EOF, dec1)
        | _ =>
            match readValue (input dec1) with
            | inr err => (inr err, dec1)
            | inl (v, rest) =>
                let dec2 := mkDecoder rest (tokenValueEnd (tokenState dec1))
                              (tokenStack dec1) in
                match unmarshalEntry v zeroEntry with
                | (_, Some err) => (inr err, dec2)
                | (en, None) => (inl en, dec2)
                end
            end
        end
  end.

End json.

(** ** net/url

    The fields of [url.URL] the program reads or writes. *)

Record url_URL : Type := mkURL {
  Scheme : string;
  Host : string;
  Path : string;
  RawQuery : string;
  Fragment : string;
}.

(** [parsedUrl.RawQuery = q]. *)
Definition set_RawQuery (u : url_URL) (q : string) : url_URL :=
  mkURL (Scheme u) (Host u) (Path u) q (Fragment u).

(** ** The file system and the standard output

    Directories and regular files are known by their (cleaned) paths; a file
    handle is the path it was opened at. *)

Record World : Type := mkWorld {
  dirs : gset string;
  files : gmap string string;
  opened : gset string;
  stdout : list string;
}.

(** When the operating system refuses a call, and with which error.  For
    [MkdirAll] and [Write] the number says how much was done before the
    failure (directories made, bytes written). *)
Record Faults : Type := mkFaults {
  mkdirall_fault : World → string → option (nat * error);
  create_fault : World → string → option error;
  write_fault : World → string → string → option (nat * error);
  close_fault : World → string → option error;
}.

Module os.

(** The proper ancestors of a path, outermost first. *)
Fixpoint ancestors_go (seen rest : string) : list string :=
  match rest with
  | EmptyString => []
  | String c rest' =>
      let seen' := seen +:+ String c EmptyString in
      if filepath.is_sep c
      then (if seqb seen "" then "/" else seen) :: ancestors_go seen' rest'
      else ancestors_go seen' rest'
  end.

(** A path and its ancestors, the order [MkdirAll] makes them in. *)
Definition chain (path : string) : list string :=
  ancestors_go "" path ++ [path].

Definition add_dirs (w : World) (l : list string) : World :=
  mkWorld (dirs w ∪ list_to_set l) (files w) (opened w) (stdout w).

(** [os.MkdirAll(path, os.ModePerm)]: the directory and its missing
    ancestors. *)
Definition MkdirAll (os : Faults) (w : World) (path : string)
  : World * option error :=
  match mkdirall_fault os w path with
  | Some (k, err) => (add_dirs w (take k (chain path)), Some err)
  | None => (add_dirs w (chain path), None)
  end.

(** [os.Create(name)]: the file is made or truncated, and open. *)
Definition Create (os : Faults) (w : World) (name : string)
  : World * (string + error) :=
  match create_fault os w name with
  | Some err => (w, inr err)
  | None =>
      (mkWorld (dirs w) (<[name := ""]> (files w)) ({[name]} ∪ opened w)
         (stdout w), inl name)
  end.

Definition append_file (w : World) (file data : string) : World :=
  mkWorld (dirs w)
    (<[file := default "" (files w !! file) +:+ data]> (files w))
    (opened w) (stdout w).

(** [file.Write(data)] and [file.WriteString(data)]. *)
Definition Write (os : Faults) (w : World) (file data : string)
  : World * option error :=
  match write_fault os w file data with
  | Some (n, err) => (append_file w file (stake n data), Some err)
  | None => (append_file w file data, None)
  end.

(** [file.Close()]: the handle is released whatever the result; closing
    it again is an error. *)
Definition Close (os : Faults) (w : World) (file : string)
  : World * option error :=
  if bool_decide (file ∈ opened w) then
    (mkWorld (dirs w) (files w) (opened w ∖ {[file]}) (stdout w),
     close_fault os w file)
  else (w, Some os_ErrClosed).

End os.

(** [fmt.Println(a, b)]: the operands separated by a space, and a newline. *)
Definition fmt_Println (w : World) (a b : string) : World :=
  mkWorld (dirs w) (files w) (opened w)
    (stdout w ++ [a +:+ " " +:+ b +:+ String (chr 10) EmptyString]).

(** ** The program *)

Section Program.

(** [url.Parse] is taken as it is: any function from strings to a URL or
    an error. *)
Variable url_Parse : string → url_URL + error.

(** The operating system's refusals. *)
Variable sys : Faults.

(** [hostAllowlist[host]]: the zero value [false] for a missing key. *)
Definition allowed (hostAllowlist : gmap string bool) (host : string) : bool :=
  default false (hostAllowlist !! host).

(** [dirPath] (line 131) and [filePath] (line 140). *)
Definition dirPathOf (rootDir : string) (parsedUrl : url_URL) : string :=
  filepath.Join [rootDir; Host parsedUrl; filepath.Dir (Path parsedUrl)].

Definition filePathOf (rootDir : string) (parsedUrl : url_URL) : string :=
  filepath.Join [dirPathOf rootDir parsedUrl; safeFileName (Path parsedUrl)].

(** Lines 149-171 of [processEntry], once the file is created: the
    content is written, the file closed, and the deferred [file.Close()]
    runs on every way out. *)
Definition writeContent (entry : Entry) (file : string) (w : World)
  : World * option error :=
  let '(w1, err) :=
    (* handle base64 encoding *)
    if seqb (Encoding (content (response entry))) "base64" then
      match base64.DecodeString (Text (content (response entry))) with
      | (_, Some err) => (w, Some err)
      | (data, None) => os.Write sys w file data
      end
    else os.Write sys w file (Text (content (response entry))) in
  let '(w2, err) :=
    match err with
    | None => os.Close sys w1 file
    | Some _ => (w1, err)
    end in
  (* defer file.Close() *)
  (fst (os.Close sys w2 file), err).

(** Lines 131-171 of [processEntry]. *)
Definition extractEntry (entry : Entry) (rootDir : string)
    (dryRun verbose : bool) (parsedUrl : url_URL) (w : World)
  : World * option error :=
  let dirPath :=
    filepath.Join [rootDir; Host parsedUrl; filepath.Dir (Path parsedUrl)] in
  let '(w1, err) :=
    if negb dryRun then os.MkdirAll sys w dirPath else (w, None) in
  match err with
  | Some _ => (w1, err)
  | None =>
      let filePath := filepath.Join [dirPath; safeFileName (Path parsedUrl)] in
      let w2 :=
        if verbose then fmt_Println w1 "Processing: " filePath else w1 in
      if dryRun then (w2, None)
      else
        match os.Create sys w2 filePath with
        | (w3, inr err) => (w3, Some err)
        | (w3, inl file) => writeContent entry file w3
        end
  end.

(** [processEntry] (lines 115-172). *)
Definition processEntry (entry : Entry) (rootDir : string)
    (removeQueryString dryRun verbose : bool)
    (hostAllowlist : gmap string bool) (w : World) : World * option error :=
  match url_Parse (URL (request entry)) with
  | inr err => (w, Some err)
  | inl parsedUrl =>
      if (0 <? size hostAllowlist)%nat
         && negb (allowed hostAllowlist (Host parsedUrl))
      then (w, None)
      else
        let parsedUrl :=
          if removeQueryString then set_RawQuery parsedUrl "" else parsedUrl in
        extractEntry entry rootDir dryRun verbose parsedUrl w
  end.

(** The first loop of [processHar] (lines 77-87): read until the token is
    the string [entries].  [None]: the fuel ran out. *)
Fixpoint scanEntries (fuel : nat) (dec : json.Decoder)
  : option (option error * json.Decoder) :=
  match fuel with
  | O => None
  | S fuel' =>
      match json.Token_ dec with
      | (inr err, dec') => Some (Some err, dec')
      | (inl token, dec') =>
          match token with
          | json.TString key =>
              if seqb key "entries" then Some (None, dec')
              else scanEntries fuel' dec'
          | _ => scanEntries fuel' dec'
          end
      end
  end.

(** The second loop (lines 94-105).  The count is a natural number: the
    [int] of the source cannot overflow on a stream that fits a machine. *)
Fixpoint entriesLoop (fuel : nat) (dec : json.Decoder) (rootDir : string)
    (removeQueryString dryRun verbose : bool)
    (hostAllowlist : gmap string bool) (count : nat) (w : World)
  : option (nat * option error * json.Decoder * World) :=
  match fuel with
  | O => None
  | S fuel' =>
      if json.More dec then
        match json.Decode dec with
        | (inr err, dec') => Some (count, Some err, dec', w)
        | (inl entry, dec') =>
            match processEntry entry rootDir removeQueryString dryRun
                    verbose hostAllowlist w with
            | (w', Some err) => Some (count, Some err, dec', w')
            | (w', None) =>
                entriesLoop fuel' dec' rootDir removeQueryString dryRun
                  verbose hostAllowlist (S count) w'
            end
        end
      else Some (count, None, dec, w)
  end.

(** [processHar] (lines 72-113) with the fuel of its loops given. *)
Definition processHar_fuel (fuel : nat) (reader : list lexeme)
    (rootDir : string) (removeQueryString dryRun verbose : bool)
    (hostAllowlist : gmap string bool) (w : World)
  : option (nat * option error * World) :=
  let count := 0%nat in
  let decoder := json.NewDecoder reader in
  (* Read until the "entries" key *)
  match scanEntries fuel decoder with
  | None => None
  | Some (Some err, _) => Some (count, Some err, w)
  | Some (None, decoder) =>
      (* Expect the next token to be the opening bracket [ *)
      match json.Token_ decoder with
      | (inr err, _) => Some (count, Some err, w)
      | (inl _, decoder) =>
          match entriesLoop fuel decoder rootDir removeQueryString dryRun
                  verbose hostAllowlist count w with
          | None => None
          | Some (count, Some err, _, w') => Some (count, Some err, w')
          | Some (count, None, decoder, w') =>
              (* Expect the next token to be the closing bracket ] *)
              match json.Token_ decoder with
              | (inr err, _) => Some (count, Some err, w')
              | (inl _, _) => Some (count, None, w')
              end
          end
      end
  end.

(** [processHar]: every turn of a loop uses up a lexeme, so the length of
    the stream and one more is fuel enough ([processHar_returns]). *)
Definition processHar (reader : list lexeme) (rootDir : string)
    (removeQueryString dryRun verbose : bool)
    (hostAllowlist : gmap string bool) (w : World)
  : option (nat * option error * World) :=
  processHar_fuel (S (length reader)) reader rootDir removeQueryString
    dryRun verbose hostAllowlist w.

End Program.

(** ** A sample platform

    Concrete instances of the two parameters of the program, to run it. *)

Module Sample.

(** The part of [s] before the first [c], and the part after it. *)
Fixpoint cut (c : ascii) (s : string) : string * option string :=
  match s with
  | EmptyString => (EmptyString, None)
  | String a s' =>
      if bool_decide (a = c) then (EmptyString, Some s')
      else let '(x, y) := cut c s' in (String a x, y)
  end.

Fixpoint all_chars (p : ascii → bool) (s : string) : bool :=
  match s with
  | EmptyString => true
  | String a s' => p a && all_chars p s'
  end.

Definition lower (a : ascii) : bool :=
  (code "a" <=? code a) && (code a <=? code "z").

(** A printable ASCII byte that is no delimiter of a URL and no escape. *)
Definition plain (a : ascii) : bool :=
  (0x20 <? code a) && (code a <? 0x7F)
  && negb (bool_decide (a = "%"%char)) && negb (bool_decide (a = "@"%char))
  && negb (bool_decide (a = ":"%char)) && negb (bool_decide (a = "["%char))
  && negb (bool_decide (a = "]"%char)) && negb (bool_decide (a = "#"%char))
  && negb (bool_decide (a = "?"%char)).

(** [url.Parse] on the URLs [scheme://host/path?query#fragment] with a
    lower-case scheme and no user information, port, escape or control
    byte: there it agrees with the library.  Every other string is
    reported as an error here (the library accepts many of them). *)
Definition parse (rawURL : string) : url_URL + error :=
  let '(u, frag) := cut "#" rawURL in
  let '(u, query) := cut "?" u in
  match cut ":" u with
  | (scheme, Some (String "/" (String "/" rest))) =>
      let '(host, path) := cut "/" rest in
      let path :=
        match path with
        | Some p => String "/" p
        | None => EmptyString
        end in
      if negb (seqb scheme "") && all_chars lower scheme
         && all_chars (fun a => plain a && negb (filepath.is_sep a)) host
         && all_chars plain path
         && all_chars plain (default "" query)
         && all_chars plain (default "" frag)
      then inl (mkURL scheme host path (default "" query) (default "" frag))
      else inr (url_Error "unsupported")
  | _ => inr (url_Error "unsupported")
  end.

Definition is_file (w : World) (p : string) : bool :=
  bool_decide (is_Some (files w !! p)).

Definition is_dir (w : World) (p : string) : bool :=
  bool_decide (p ∈ dirs w).

(** The number of paths at the head of [l] that are no regular files. *)
Fixpoint free_prefix (w : World) (l : list string) : nat :=
  match l with
  | [] => O
  | p :: l' => if is_file w p then O else S (free_prefix w l')
  end.

(** A file system without permissions or quotas: a directory cannot be
    made where a regular file is, a file cannot be created where a
    directory is or where its parent directory is missing; writing and
    closing never fail. *)
Definition plainfs : Faults := {|
  mkdirall_fault w path :=
    let k := free_prefix w (os.chain path) in
    if (k <? length (os.chain path))%nat
    then Some (k, fs_PathError "mkdir" (default "" (os.chain path !! k)))
    else None;
  create_fault w name :=
    if is_dir w name || negb (is_dir w (filepath.Dir name))
    then Some (fs_PathError "open" name)
    else None;
  write_fault _ _ _ := None;
  close_fault _ _ := None;
|}.

(** An output directory [out] in an otherwise empty working directory. *)
Definition w0 : World := mkWorld {[ "."; "out" ]} ∅ ∅ [].

Definition entry (url text encoding : string) : Entry :=
  mkEntry (mkRequest "GET" url)
    (mkResponse 200 (mkContent 0 "" text 0 encoding)).

(** The lexemes of
    [{"request":{"url":url},"response":{"content":{"text":text}}}]. *)
Definition entry_lexemes (url text : string) : list lexeme :=
  [ LBrace; LStr "request"; Colon;
      LBrace; LStr "url"; Colon; LStr url; RBrace; Comma;
    LStr "response"; Colon;
      LBrace; LStr "content"; Colon;
        LBrace; LStr "text"; Colon; LStr text; RBrace;
      RBrace;
    RBrace ].

(** The lexemes of [{"log":{"entries":[ elements ]}}]. *)
Definition har (elements : list lexeme) : list lexeme :=
  [LBrace; LStr "log"; Colon; LBrace; LStr "entries"; Colon; LBrack]
  ++ elements ++ [RBrack; RBrace; RBrace].

(** A capture of two entries and, between them, the number 5. *)
Definition har_number : list lexeme :=
  har (entry_lexemes "http://example.com/a/b.js" "hi"
       ++ [Comma; LNum (Some 5); Comma]
       ++ entry_lexemes "http://example.com/c.txt" "ho").

(** The lexemes of [{"log":{"comment":"entries","entries":[ entry ]}}]: a
    capture whose comment is the word entries. *)
Definition har_comment : list lexeme :=
  [LBrace; LStr "log"; Colon; LBrace;
   LStr "comment"; Colon; LStr "entries"; Comma;
   LStr "entries"; Colon; LBrack]
  ++ entry_lexemes "http://example.com/a/b.js" "hi"
  ++ [RBrack; RBrace; RBrace].

(** The lexemes of [{"log":{"entries":"none"}}]. *)
Definition har_string : list lexeme :=
  [LBrace; LStr "log"; Colon; LBrace; LStr "entries"; Colon; LStr "none";
   RBrace; RBrace].

(** The URL of the sample entries. *)
Definition u_ab : url_URL := mkURL "http" "example.com" "/a/b.js" "" "".

End Sample.

(** ** fmt *)

(** [fmt.Print(s)]: the text goes to the standard output. *)
Definition fmt_Print (w : World) (s : string) : World :=
  mkWorld (dirs w) (files w) (opened w) (stdout w ++ [s]).

Definition newline : string := String (chr 10) EmptyString.

(** The verb [%d] on a count: its decimal digits. *)
Fixpoint digits (fuel n : nat) (acc : string) : string :=
  match fuel with
  | O => acc
  | S fuel' =>
      let acc' := String (chr (48 + Z.of_nat (n mod 10))) acc in
      if (n <? 10)%nat then acc' else digits fuel' (n / 10) acc'
  end.

Definition fmt_d (n : nat) : string := digits (S n) n EmptyString.

(** ** flag

    The flags of [main] (lines 175-189) and [flag.Parse] on the arguments
    of the command.  What the package writes to the standard error is not
    modelled. *)

Module flag.

(** The variables the flags are bound to. *)
Record Values : Type := mkValues {
  output : string;
  removeQueryString : bool;
  dryRun : bool;
  verbose : bool;
  hostAllowlistStr : string;
}.

(** The default values (lines 181-187). *)
Definition defaults : Values := mkValues "." false false false "".

Inductive Flag : Type :=
  | BoolVar (set : bool → Values → Values)
  | StringVar (set : string → Values → Values).

Definition set_output (x : string) (v : Values) : Values :=
  mkValues x (removeQueryString v) (dryRun v) (verbose v)
    (hostAllowlistStr v).

Definition set_removeQueryString (x : bool) (v : Values) : Values :=
  mkValues (output v) x (dryRun v) (verbose v) (hostAllowlistStr v).

Definition set_dryRun (x : bool) (v : Values) : Values :=
  mkValues (output v) (removeQueryString v) x (verbose v)
    (hostAllowlistStr v).

Definition set_verbose (x : bool) (v : Values) : Values :=
  mkValues (output v) (removeQueryString v) (dryRun v) x
    (hostAllowlistStr v).

Definition set_hostAllowlistStr (x : string) (v : Values) : Values :=
  mkValues (output v) (removeQueryString v) (dryRun v) (verbose v) x.

(** [f.formal]: the flags that [main] defines. *)
Definition formal (name : string) : option Flag :=
  if seqb name "output" then Some (StringVar set_output)
  else if seqb name "o" then Some (StringVar set_output)
  else if seqb name "remove-query-string"
    then Some (BoolVar set_removeQueryString)
  else if seqb name "r" then Some (BoolVar set_removeQueryString)
  else if seqb name "dry-run" then Some (BoolVar set_dryRun)
  else if seqb name "verbose" then Some (BoolVar set_verbose)
  else if seqb name "allowed-hosts" then Some (StringVar set_hostAllowlistStr)
  else None.

(** [strconv.ParseBool]. *)
Definition ParseBool (str : string) : option bool :=
  if seqb str "1" || seqb str "t" || seqb str "T" || seqb str "true"
     || seqb str "TRUE" || seqb str "True" then Some true
  else if seqb str "0" || seqb str "f" || seqb str "F" || seqb str "false"
          || seqb str "FALSE" || seqb str "False" then Some false
  else None.

(** The name before the first equals sign and the value after it. *)
Fixpoint cut_value (name : string) : string * option string :=
  match name with
  | EmptyString => (EmptyString, None)
  | String c name' =>
      if bool_decide (c = "="%char) then (EmptyString, Some name')
      else let '(a, b) := cut_value name' in (String c a, b)
  end.

(** The result of [parseOne]: a flag was seen, or the flags are over, or
    the argument is refused ([help]: by [-h] or [-help]). *)
Inductive step : Type :=
  | Seen (v : Values) (args : list string)
  | Over (args : list string)
  | Refused (help : bool).

(** [f.parseOne]. *)
Definition parseOne (v : Values) (args : list string) : step :=
  match args with
  | [] => Over args
  | s :: rest =>
      if (slen s <? 2)%nat || negb (byteAt s 0 =? code "-") then Over args
      else
        let numMinuses := if byteAt s 1 =? code "-" then 2%nat else 1%nat in
        if (numMinuses =? 2)%nat && (slen s =? 2)%nat then
          (* "--" terminates the flags *)
          Over rest
        else
          let name := sdrop numMinuses s in
          match name with
          | EmptyString => Refused false
          | String c name' =>
              if bool_decide (c = "-"%char) || bool_decide (c = "="%char)
              then Refused false              (* bad flag syntax *)
              else
                (* it's a flag. does it have an argument? *)
                let '(tail, value) := cut_value name' in   (* equals cannot be first *)
                let name := String c tail in
                match formal name with
                | None =>
                    (* flag provided but not defined *)
                    Refused (seqb name "help" || seqb name "h")
                | Some (BoolVar set) =>
                    (* special case: doesn't need an arg *)
                    match value with
                    | Some x =>
                        match ParseBool x with
                        | Some b => Seen (set b v) rest
                        | None => Refused false
                        end
                    | None => Seen (set true v) rest
                    end
                | Some (StringVar set) =>
                    (* It must have a value, which might be the next
                       argument. *)
                    match value, rest with
                    | Some x, _ => Seen (set x v) rest
                    | None, x :: rest' => Seen (set x v) rest'
                    | None, [] => Refused false
                    end
                end
          end
  end.

(** What [flag.Parse] ends with: the values and the arguments that are
    left, or the exit of the command ([ExitOnError]). *)
Inductive outcome : Type :=
  | Parsed (v : Values) (args : list string)
  | Exit (code : Z).

Fixpoint Parse_loop (fuel : nat) (v : Values) (args : list string)
  : option outcome :=
  match fuel with
  | O => None
  | S fuel' =>
      match parseOne v args with
      | Seen v' args' => Parse_loop fuel' v' args'
      | Over args' => Some (Parsed v args')
      | Refused help => Some (Exit (if help then 0 else 2))
      end
  end.

(** [flag.Parse()]: a flag that is seen uses up an argument, so their
    number and one more is fuel enough. *)
Definition Parse (args : list string) : option outcome :=
  Parse_loop (S (length args)) defaults args.

End flag.

(** ** [main] (main.go, lines 174-220) *)

Section Main.

Variable url_Parse : string → url_URL + error.
Variable sys : Faults.

(** [os.Open(name)] followed by the reading of the file: its lexemes, or
    the error of the call.  The captures are read as they are when they
    are opened. *)
Variable os_Open : World → string → list lexeme + error.

(** [err.Error()]: the text of an error. *)
Variable Error : error → string.

(** Lines 196-201: the keys of the allowlist. *)
Definition hostAllowlist_of (hostAllowlistStr : string)
  : gmap string bool :=
  if negb (seqb hostAllowlistStr "") then
    fold_left (fun m host => <[host := true]> m)
      (strings.Split hostAllowlistStr ",") ∅
  else ∅.

(** The body of the loop of lines 203-219. *)
Definition processFile (v : flag.Values) (hostAllowlist : gmap string bool)
    (harFilePath : string) (w : World) : option World :=
  match os_Open w harFilePath with
  | inr err =>
      Some (fmt_Println w "Failed to open HAR file:" (Error err))
  | inl reader =>
      match processHar url_Parse sys reader (flag.output v)
              (flag.removeQueryString v) (flag.dryRun v) (flag.verbose v)
              hostAllowlist w with
      | None => None
      | Some (count, Some err, w') =>
          Some (fmt_Print w'
                  ("Failed to process HAR file (" +:+ fmt_d count
                   +:+ " entries processed): " +:+ Error err +:+ newline))
      | Some (count, None, w') =>
          Some (fmt_Print w'
                  ("Successfully processed HAR file (" +:+ fmt_d count
                   +:+ " entries processed): " +:+ harFilePath +:+ newline))
      end
  end.

Fixpoint processFiles (v : flag.Values) (hostAllowlist : gmap string bool)
    (args : list string) (w : World) : option World :=
  match args with
  | [] => Some w
  | harFilePath :: args' =>
      match processFile v hostAllowlist harFilePath w with
      | Some w' => processFiles v hostAllowlist args' w'
      | None => None
      end
  end.

(** [main] on the arguments of the command: the world it leaves and its
    exit status. *)
Definition main (args : list string) (w : World) : option (World * Z) :=
  match flag.Parse args with
  | None => None
  | Some (flag.Exit code) => Some (w, code)
  | Some (flag.Parsed v args) =>
      if (length args =? 0)%nat then
        Some (fmt_Print w
                ("Please provide at least one HAR file to process"
                 +:+ newline), 1)
      else
        match processFiles v (hostAllowlist_of (flag.hostAllowlistStr v))
                args w with
        | Some w' => Some (w', 0)
        | None => None
        end
  end.

End Main.

(** ** A sample run

    Two captures in the working directory, and the texts of the errors. *)

Module SampleRun.

Definition open (w : World) (name : string) : list lexeme + error :=
  if seqb name "a.har" then
    inl (Sample.har (Sample.entry_lexemes "http://example.com/a/b.js" "hi"))
  else if seqb name "b.har" then inl Sample.har_number
  else inr (fs_PathError "open" name).

Definition Error (err : error) : string :=
  match err with
  | io_EOF => "EOF"
  | io_ErrUnexpectedEOF => "unexpected EOF"
  | json_SyntaxError msg => msg
  | json_UnmarshalTypeError val => "json: cannot unmarshal " +:+ val
  | url_Error msg => msg
  | base64_CorruptInputError off =>
      "illegal base64 data at input byte " +:+ fmt_d off
  | fs_PathError op path => op +:+ " " +:+ path
  | os_ErrClosed => "file already closed"
  end.

Definition main : list string → World → option (World * Z) :=
  main Sample.parse Sample.plainfs open Error.

(** A regular file where the directory of the host should be. *)
Definition blocked : World :=
  mkWorld {[ "."; "out" ]} {[ "out/example.com" := "x" ]} ∅ [].

(** A directory where the file of the sample entry should be. *)
Definition taken : World :=
  mkWorld
    {[ "."; "out"; "out/example.com"; "out/example.com/a";
       "out/example.com/a/-a-b.js" ]} ∅ ∅ [].

(** A file system with room for [n] bytes a file. *)
Definition smallfs (n : nat) : Faults := {|
  mkdirall_fault := mkdirall_fault Sample.plainfs;
  create_fault := create_fault Sample.plainfs;
  write_fault w file data :=
    if (n <? slen data)%nat then Some (n, fs_PathError "write" file)
    else None;
  close_fault _ _ := None;
|}.

(** A file system that reports an error when a file is closed. *)
Definition lazyfs : Faults := {|
  mkdirall_fault := mkdirall_fault Sample.plainfs;
  create_fault := create_fault Sample.plainfs;
  write_fault _ _ _ := None;
  close_fault _ file := Some (fs_PathError "close" file);
|}.

End SampleRun.

(** ** Vocabulary of the properties *)

(** The test of lines 121-125: the entry is left out. *)
Definition skipped (hostAllowlist : gmap string bool) (u : url_URL) : bool :=
  (0 <? size hostAllowlist)%nat && negb (allowed hostAllowlist (Host u)).

(** The file system part of two worlds is the same. *)
Definition same_fs (w w' : World) : Prop :=
  dirs w' = dirs w ∧ files w' = files w ∧ opened w' = opened w.

(** The entries [es] are decoded one after the other from the decoder
    [dec], each after [More] has said there is one, and leave it as [dec']. *)
Inductive Decoded : json.Decoder → list Entry → json.Decoder → Prop :=
  | Decoded_nil dec : Decoded dec [] dec
  | Decoded_cons dec entry dec1 es dec' :
      json.More dec = true →
      json.Decode dec = (inl entry, dec1) →
      Decoded dec1 es dec' →
      Decoded dec (entry :: es) dec'.

(** Every entry of [es] is processed with success, one after the other;
    the world after the last one. *)
Fixpoint runEntries (url_Parse : string → url_URL + error) (sys : Faults)
    (es : list Entry) (rootDir : string)
    (removeQueryString dryRun verbose : bool)
    (hostAllowlist : gmap string bool) (w : World) : option World :=
  match es with
  | [] => Some w
  | entry :: es' =>
      match processEntry url_Parse sys entry rootDir removeQueryString dryRun
              verbose hostAllowlist w with
      | (w', None) =>
          runEntries url_Parse sys es' rootDir removeQueryString dryRun
            verbose hostAllowlist w'
      | (_, Some _) => None
      end
  end.

(** The bytes [processEntry] writes for an entry (lines 156-165): the
    decoded text when the encoding is [base64], the text otherwise; [None]
    when the text cannot be decoded. *)
Definition payload (entry : Entry) : option string :=
  if seqb (Encoding (content (response entry))) "base64" then
    match base64.DecodeString (Text (content (response entry))) with
    | (data, None) => Some data
    | (_, Some _) => None
    end
  else Some (Text (content (response entry))).

(** A slash or a backslash. *)
Definition is_slash (c : ascii) : bool := (code c =? 0x2F) || (code c =? 0x5C).

Fixpoint has_slash (s : string) : bool :=
  match s with
  | EmptyString => false
  | String c s' => is_slash c || has_slash s'
  end.

(** Every slash and backslash replaced by a hyphen, byte by byte. *)
Fixpoint hyphenate (s : string) : string :=
  match s with
  | EmptyString => EmptyString
  | String c s' => String (if is_slash c then "-"%char else c) (hyphenate s')
  end.

(** The bytes of [s] are ASCII. *)
Fixpoint is_ascii (s : string) : bool :=
  match s with
  | EmptyString => true
  | String c s' => (code c <? 0x80) && is_ascii s'
  end.

(** The bytes of [s] are outside ASCII. *)
Fixpoint all_high (s : string) : bool :=
  match s with
  | EmptyString => true
  | String c s' => (0x80 <=? code c) && all_high s'
  end.

(** From the words of the specification: the file path as the destination
    directory joined with the sanitized base name of the URL path. *)
Definition claimed_filePath (rootDir : string) (u : url_URL) : string :=
  filepath.Join [dirPathOf rootDir u; safeFileName (filepath.Base (Path u))].

(** The line [processEntry] prints for a file path. *)
Definition processing_line (filePath : string) : string :=
  "Processing: " +:+ " " +:+ filePath +:+ String (chr 10) EmptyString.

(** One world comes from another by changes to the file [file] at most:
    directories are only added and no handle is open that was not. *)
Definition touches (file : string) (w w' : World) : Prop :=
  dirs w ⊆ dirs w'
  ∧ opened w' ⊆ opened w
  ∧ ∀ p, p ≠ file → files w' !! p = files w !! p.

(** What a run of [processHar] may change: directories are only added,
    no handle is open that was not, a run that is not verbose prints
    nothing, and a file that is changed is at the file path of a URL that
    parses. *)
Definition har_frame (url_Parse : string → url_URL + error)
    (rootDir : string) (verbose : bool) (w w' : World) : Prop :=
  dirs w ⊆ dirs w'
  ∧ opened w' ⊆ opened w
  ∧ (verbose = false → stdout w' = stdout w)
  ∧ ∀ p, files w' !! p ≠ files w !! p →
         ∃ url u, url_Parse url = inl u ∧ p = filePathOf rootDir u.

(** The decoder [dec] on a stream that goes on with [more]. *)
Definition fed (dec : json.Decoder) (more : list lexeme) : json.Decoder :=
  json.mkDecoder (json.input dec ++ more) (json.tokenState dec)
    (json.tokenStack dec).

(** [strings.Join(elems, sep)]. *)
Fixpoint strings_Join (elems : list string) (sep : string) : string :=
  match elems with
  | [] => EmptyString
  | [e] => e
  | e :: rest => e +:+ sep +:+ strings_Join rest sep
  end.

(** Two settings of the flags that differ at most in the option to remove
    the query string. *)
Definition same_but_query (v v' : flag.Values) : Prop :=
  flag.output v = flag.output v'
  ∧ flag.dryRun v = flag.dryRun v'
  ∧ flag.verbose v = flag.verbose v'
  ∧ flag.hostAllowlistStr v = flag.hostAllowlistStr v'.

(** The line [main] prints when no capture is named. *)
Definition usage_line : string :=
  "Please provide at least one HAR file to process" +:+ newline.

(** The member [kv] of an object is for one of the fields [names]. *)
Definition known (names : list string) (kv : string * JValue) : bool :=
  existsb (json.isField (fst kv)) names.

(** A continuation byte of UTF-8. *)
Definition is_cont (c : ascii) : bool :=
  (0x80 <=? code c) && (code c <=? 0xBF).

(** The first two bytes of a well-formed sequence of three bytes, and of
    four (the table of well-formed byte sequences of the Unicode
    standard). *)
Definition lead3 (b0 b1 : Z) : bool :=
  ((b0 =? 0xE0) && (0xA0 <=? b1) && (b1 <=? 0xBF))
  || ((0xE1 <=? b0) && (b0 <=? 0xEC) && (0x80 <=? b1) && (b1 <=? 0xBF))
  || ((b0 =? 0xED) && (0x80 <=? b1) && (b1 <=? 0x9F))
  || ((0xEE <=? b0) && (b0 <=? 0xEF) && (0x80 <=? b1) && (b1 <=? 0xBF)).

Definition lead4 (b0 b1 : Z) : bool :=
  ((b0 =? 0xF0) && (0x90 <=? b1) && (b1 <=? 0xBF))
  || ((0xF1 <=? b0) && (b0 <=? 0xF3) && (0x80 <=? b1) && (b1 <=? 0xBF))
  || ((b0 =? 0xF4) && (0x80 <=? b1) && (b1 <=? 0x8F)).

(** The string is well-formed UTF-8. *)
Fixpoint utf8_valid (s : string) : bool :=
  match s with
  | EmptyString => true
  | String a s1 =>
      if code a <? 0x80 then utf8_valid s1
      else
        match s1 with
        | EmptyString => false
        | String b s2 =>
            if (0xC2 <=? code a) && (code a <=? 0xDF)
            then is_cont b && utf8_valid s2
            else
              match s2 with
              | EmptyString => false
              | String c s3 =>
                  if lead3 (code a) (code b) then is_cont c && utf8_valid s3
                  else
                    match s3 with
                    | EmptyString => false
                    | String d s4 =>
                        lead4 (code a) (code b) && is_cont c && is_cont d
                        && utf8_valid s4
                    end
              end
        end
  end.

(** The runes that two, three and four bytes encode. *)
Definition rune2 (b0 b1 : Z) : Z :=
  Z.lor (Z.shiftl (Z.land b0 utf8.mask2) 6) (Z.land b1 utf8.maskx).

Definition rune3 (b0 b1 b2 : Z) : Z :=
  Z.lor (Z.lor (Z.shiftl (Z.land b0 utf8.mask3) 12)
               (Z.shiftl (Z.land b1 utf8.maskx) 6))
        (Z.land b2 utf8.maskx).

Definition rune4 (b0 b1 b2 b3 : Z) : Z :=
  Z.lor (Z.lor (Z.lor (Z.shiftl (Z.land b0 utf8.mask4) 18)
                      (Z.shiftl (Z.land b1 utf8.maskx) 12))
               (Z.shiftl (Z.land b2 utf8.maskx) 6))
        (Z.land b3 utf8.maskx).

(** The files of the entries [es] that are not left out: their paths and
    what is to be written there. *)
Fixpoint planned (url_Parse : string → url_URL + error) (rootDir : string)
    (hostAllowlist : gmap string bool) (es : list Entry)
  : list (string * string) :=
  match es with
  | [] => []
  | entry :: es' =>
      match url_Parse (URL (request entry)) with
      | inl u =>
          if skipped hostAllowlist u
          then planned url_Parse rootDir hostAllowlist es'
          else (filePathOf rootDir u, default "" (payload entry))
               :: planned url_Parse rootDir hostAllowlist es'
      | inr _ => planned url_Parse rootDir hostAllowlist es'
      end
  end.

(** The files of a plan written one after the other. *)
Definition write_all (plan : list (string * string))
    (m : gmap string string) : gmap string string :=
  fold_left (fun m p => <[fst p := snd p]> m) plan m.

(** The elements of a path: what is between its separators. *)
Fixpoint fields (s : string) : list string :=
  match s with
  | EmptyString => [EmptyString]
  | String c s' =>
      if filepath.is_sep c then EmptyString :: fields s'
      else
        match fields s' with
        | f :: fs => String c f :: fs
        | [] => [String c EmptyString]
        end
  end.

(** What [Clean] does with one element of the path: the turn of its loop
    on the buffer [out] and the index [dotdot]. *)
Definition Clean_step (rooted : bool) (st : string * nat) (el : string)
  : string * nat :=
  let '(out, dotdot) := st in
  if seqb el "" || seqb el "." then st
  else if seqb el ".." then
    if (dotdot <? slen out)%nat then
      (stake (filepath.backup out dotdot (slen out - 1)) out, dotdot)
    else if negb rooted then
      let out1 := if (0 <? slen out)%nat then out +:+ "/" else out in
      let out2 := out1 +:+ ".." in
      (out2, slen out2)
    else st
  else
    let out1 :=
      if (rooted && negb (slen out =? 1)%nat)
         || (negb rooted && negb (slen out =? 0)%nat)
      then out +:+ "/" else out in
    (out1 +:+ el, dotdot).

Fixpoint has_sep (s : string) : bool :=
  match s with
  | EmptyString => false
  | String c s' => filepath.is_sep c || has_sep s'
  end.

(** The name of a file or of a directory: it is not empty, has no
    separator, and is neither [.] nor [..]. *)
Definition is_name (s : string) : bool :=
  negb (seqb s "") && negb (has_sep s) && negb (seqb s ".")
  && negb (seqb s "..").

(** [..] again and again, [k] times. *)
Fixpoint dots (k : nat) : string :=
  match k with
  | O => EmptyString
  | S O => ".."
  | S k' => dots k' +:+ "/.."
  end.

(** The names below a directory [dir] (the root, the current directory
    when [dir] is empty, or a run of [..]). *)
Definition below (dir : string) (names : list string) : string :=
  match names with
  | [] => dir
  | _ =>
      if seqb dir "" || seqb dir "/" then dir +:+ filepath.join_sep names
      else dir +:+ "/" +:+ filepath.join_sep names
  end.

(** The lexical rules of [Clean] on one element of a path, for the number
    [k] of the [..] that lead out and the stack [st] of the names after
    them: an empty element and [.] are dropped, [..] takes the last name
    back and leads out when there is none (at the root it is dropped),
    a name is added. *)
Definition lex_step (rooted : bool) (st : nat * list string) (el : string)
  : nat * list string :=
  let '(k, names) := st in
  if seqb el "" || seqb el "." then st
  else if seqb el ".." then
    match names with
    | _ :: names' => (k, names')
    | [] => if rooted then st else (S k, [])
    end
  else (k, el :: names).

(** The path of a state: the names, the last one first in [st]. *)
Definition lex_path (rooted : bool) (st : nat * list string) : string :=
  below (if rooted then "/" else dots (fst st)) (rev (snd st)).

(** [Clean] by the lexical rules. *)
Definition lex_Clean (path : string) : string :=
  let rooted := filepath.end_or_sep path && negb (seqb path "") in
  let out := lex_path rooted (fold_left (lex_step rooted) (fields path) (O, []))
  in if seqb out "" then "." else out.

(** The state of the loop of [Clean] for a state of the rules. *)
Definition lex_state (rooted : bool) (st : nat * list string)
  : string * nat :=
  (lex_path rooted st, slen (if rooted then "/" else dots (fst st))).

(** The path of the names [names] under the directory [dir]. *)
Definition under (dir : string) (names : list string) : string :=
  match names with
  | [] => dir
  | _ =>
      if seqb dir "." then filepath.join_sep names
      else if seqb dir "/" then "/" +:+ filepath.join_sep names
      else dir +:+ "/" +:+ filepath.join_sep names
  end.

(** The path that [Clean] returns for a state of the rules. *)
Definition clean_path (rooted : bool) (st : nat * list string) : string :=
  if seqb (lex_path rooted st) "" then "." else lex_path rooted st.

Definition is_rooted (path : string) : bool :=
  filepath.end_or_sep path && negb (seqb path "").

(** * Properties *)

(** ** The library models and the program on sample inputs *)

Example safeFileName_ex1 : safeFileName "/a/b.js" = "-a-b.js".
Proof. vm_compute. reflexivity. Qed.
Example safeFileName_ex2 : safeFileName "a\b" = "a-b".
Proof. vm_compute. reflexivity. Qed.
Example safeFileName_ex3 : safeFileName "index.html" = "index.html".
Proof. vm_compute. reflexivity. Qed.
(** An invalid byte (here 0xFF) is replaced by the encoding of U+FFFD. *)
Example safeFileName_ex4 :
  bytes_of (safeFileName (string_of [0x61; 0xFF; 0x2F])) =
  [0x61; 0xEF; 0xBF; 0xBD; 0x2D].
Proof. vm_compute. reflexivity. Qed.
(** A valid two-byte rune (U+00E9) is kept. *)
Example safeFileName_ex5 :
  bytes_of (safeFileName (string_of [0x2F; 0xC3; 0xA9; 0x5C])) =
  [0x2D; 0xC3; 0xA9; 0x2D].
Proof. vm_compute. reflexivity. Qed.
Example Clean_ex1 : filepath.Clean "a//b/./c/.." = "a/b".
Proof. reflexivity. Qed.
Example Clean_ex2 : filepath.Clean "/../a" = "/a". Proof. reflexivity. Qed.
Example Clean_ex3 : filepath.Clean "../../a/../.." = "../../..".
Proof. reflexivity. Qed.
Example Clean_ex4 : filepath.Clean "a/.." = ".". Proof. reflexivity. Qed.
Example Clean_ex5 : filepath.Clean "abc/def/../ghi/../../xyz/" = "xyz".
Proof. reflexivity. Qed.
Example Clean_ex6 : filepath.Clean "/" = "/". Proof. reflexivity. Qed.
Example Dir_ex1 : filepath.Dir "/a/b.js" = "/a". Proof. reflexivity. Qed.
Example Dir_ex2 : filepath.Dir "" = ".". Proof. reflexivity. Qed.
Example Dir_ex3 : filepath.Dir "/index.html" = "/". Proof. reflexivity. Qed.
Example Dir_ex4 : filepath.Dir "a" = ".". Proof. reflexivity. Qed.
Example Base_ex1 : filepath.Base "/a/b.js" = "b.js". Proof. reflexivity. Qed.
Example Base_ex2 : filepath.Base "/a/b/" = "b". Proof. reflexivity. Qed.
Example Base_ex3 : filepath.Base "///" = "/". Proof. reflexivity. Qed.
Example Join_ex1 :
  filepath.Join ["out"; "example.com"; "/a"] = "out/example.com/a".
Proof. reflexivity. Qed.
Example Join_ex2 : filepath.Join [""; ""; "."] = ".". Proof. reflexivity. Qed.
Example Join_ex3 : filepath.Join ["out"; ""] = "out". Proof. reflexivity. Qed.

Example b64_ex1 : base64.EncodeToString "hello" = "aGVsbG8=".
Proof. reflexivity. Qed.
Example b64_ex2 : base64.DecodeString "aGVsbG8=" = ("hello", None).
Proof. reflexivity. Qed.
Example b64_ex3 : base64.DecodeString "YQ==" = ("a", None).
Proof. reflexivity. Qed.
Example b64_ex4 : base64.DecodeString "YR==" = ("a", None).
Proof. reflexivity. Qed.
Example b64_ex5 : base64.DecodeString "YQ="
  = ("", Some (base64_CorruptInputError 3)).
Proof. reflexivity. Qed.
Example b64_ex6 : base64.DecodeString "a"
  = ("", Some (base64_CorruptInputError 0)).
Proof. reflexivity. Qed.
Example b64_ex7 : base64.DecodeString "aGk=x"
  = ("hi", Some (base64_CorruptInputError 4)).
Proof. reflexivity. Qed.
Example b64_ex8 : base64.DecodeString "!!!!"
  = ("", Some (base64_CorruptInputError 0)).
Proof. reflexivity. Qed.
Example b64_ex9 :
  base64.DecodeString (String "a" (String "G" (String (chr 10) "k="))) = ("hi", None).
Proof. reflexivity. Qed.
Example parse_ex1 :
  Sample.parse "http://example.com/a/b.js?x=1#top" =
  inl (mkURL "http" "example.com" "/a/b.js" "x=1" "top").
Proof. vm_compute. reflexivity. Qed.
Example parse_ex2 :
  Sample.parse "https://example.org" = inl (mkURL "https" "example.org" "" "" "").
Proof. vm_compute. reflexivity. Qed.
Example processEntry_ex1 :
  processEntry Sample.parse Sample.plainfs
    (Sample.entry "http://example.com/a/b.js" "hi" "") "out" false false true ∅
    Sample.w0 =
  (mkWorld {[ "."; "out"; "out/example.com"; "out/example.com/a" ]}
     {[ "out/example.com/a/-a-b.js" := "hi" ]} ∅
     [ "Processing:  out/example.com/a/-a-b.js" +:+ String (chr 10) "" ],
   None).
Proof. vm_compute. reflexivity. Qed.

(** ** encoding/base64: decoding what the encoder wrote *)

Lemma code_range c : 0 ≤ code c < 256.
Proof.
  unfold code. pose proof (N_ascii_bounded c). lia.
Qed.

Lemma chr_code c : chr (code c) = c.
Proof. unfold chr, code. rewrite N2Z.id. apply ascii_N_embedding. Qed.

Lemma code_chr z : 0 ≤ z < 256 → code (chr z) = z.
Proof.
  intros Hz. unfold chr, code. rewrite N_ascii_embedding by lia. lia.
Qed.

Lemma string_app_cons c (s t : string) : String c s +:+ t = String c (s +:+ t).
Proof. reflexivity. Qed.

Lemma string_app_nil_l (s : string) : "" +:+ s = s.
Proof. reflexivity. Qed.

Lemma string_app_nil_r (s : string) : s +:+ "" = s.
Proof.
  induction s as [|c s IH]; [reflexivity|].
  rewrite string_app_cons, IH. reflexivity.
Qed.

Lemma string_app_assoc (a b c : string) : (a +:+ b) +:+ c = a +:+ (b +:+ c).
Proof.
  induction a as [|x a IH]; [reflexivity|].
  rewrite !string_app_cons, IH. reflexivity.
Qed.

(** Strings three bytes at a time. *)
Lemma string_triple_ind (P : string → Prop) :
  P "" →
  (∀ a, P (String a "")) →
  (∀ a b, P (String a (String b ""))) →
  (∀ a b c s, P s → P (String a (String b (String c s)))) →
  ∀ s, P s.
Proof.
  intros H0 H1 H2 H3 s.
  enough (P s ∧ (∀ a, P (String a s)) ∧ (∀ a b, P (String a (String b s))))
    as (H & _); [exact H|].
  induction s as [|c s (IH0 & IH1 & IH2)].
  - repeat split; auto.
  - repeat split; auto.
Qed.

(** A bitwise or of two numbers with no bit in common is their sum. *)
Lemma lor_disjoint_add a b k :
  0 ≤ k → 0 ≤ b < 2 ^ k → a mod 2 ^ k = 0 → Z.lor a b = a + b.
Proof.
  intros Hk Hb Ha.
  rewrite <- Z.add_lor_land.
  enough (Z.land a b = 0) as -> by lia.
  apply Z.bits_inj'. intros n Hn. rewrite Z.land_spec, Z.bits_0.
  destruct (Z.lt_ge_cases n k) as [Hlt|Hge].
  - rewrite <- (Z.mod_pow2_bits_low a k n) by lia. rewrite Ha, Z.bits_0.
    reflexivity.
  - rewrite <- (Z.mod_small b (2 ^ k)) by lia.
    rewrite Z.mod_pow2_bits_high by lia. apply andb_false_r.
Qed.

Ltac to_arith :=
  repeat first
    [ rewrite Z.shiftl_mul_pow2 by lia
    | rewrite Z.shiftr_div_pow2 by lia
    | rewrite (Z.land_ones _ 6 ltac:(lia)) ];
  change (2 ^ 0) with 1; change (2 ^ 6) with 64; change (2 ^ 8) with 256;
  change (2 ^ 12) with 4096; change (2 ^ 16) with 65536;
  change (2 ^ 18) with 262144.

(** The 24 bits of a quantum are the three bytes. *)
Lemma quantum_value a b c :
  0 ≤ a < 256 → 0 ≤ b < 256 → 0 ≤ c < 256 →
  Z.lor (Z.lor (Z.shiftl a 16) (Z.shiftl b 8)) c = a * 65536 + b * 256 + c.
Proof.
  intros Ha Hb Hc.
  rewrite (lor_disjoint_add _ c 8); [|lia|lia|].
  - rewrite (lor_disjoint_add _ (Z.shiftl b 8) 16); to_arith; try lia.
    rewrite Z.mod_mul; lia.
  - rewrite (lor_disjoint_add _ (Z.shiftl b 8) 16); to_arith; try lia.
    + change 65536 with (256 * 256). Z.div_mod_to_equations. lia.
    + rewrite Z.mod_mul; lia.
Qed.

(** The four sextets of 24 bits put together again. *)
Lemma sextets_value v :
  0 ≤ v < 2 ^ 24 →
  Z.lor (Z.lor (Z.lor (Z.shiftl (Z.land (Z.shiftr v 18) 0x3F) 18)
                      (Z.shiftl (Z.land (Z.shiftr v 12) 0x3F) 12))
               (Z.shiftl (Z.land (Z.shiftr v 6) 0x3F) 6))
        (Z.land v 0x3F) = v.
Proof.
  intros Hv. change (2 ^ 24) with 16777216 in Hv.
  change 0x3F with (Z.ones 6).
  rewrite (lor_disjoint_add _ (Z.land v (Z.ones 6)) 6);
    [|lia|to_arith; Z.div_mod_to_equations; lia|].
  - rewrite (lor_disjoint_add _ (Z.shiftl _ 6) 12);
      [|lia|to_arith; Z.div_mod_to_equations; lia|].
    + rewrite (lor_disjoint_add _ (Z.shiftl _ 12) 18);
        [|lia|to_arith; Z.div_mod_to_equations; lia|].
      * to_arith. Z.div_mod_to_equations. lia.
      * to_arith. rewrite Z.mod_mul; lia.
    + rewrite (lor_disjoint_add _ (Z.shiftl _ 12) 18);
        [|lia|to_arith; Z.div_mod_to_equations; lia|].
      * to_arith. change 262144 with (64 * 4096). Z.div_mod_to_equations. lia.
      * to_arith. rewrite Z.mod_mul; lia.
  - rewrite (lor_disjoint_add _ (Z.shiftl _ 6) 12);
      [|lia|to_arith; Z.div_mod_to_equations; lia|].
    + rewrite (lor_disjoint_add _ (Z.shiftl _ 12) 18);
        [|lia|to_arith; Z.div_mod_to_equations; lia|].
      * to_arith. Z.div_mod_to_equations. lia.
      * to_arith. rewrite Z.mod_mul; lia.
    + rewrite (lor_disjoint_add _ (Z.shiftl _ 12) 18);
        [|lia|to_arith; Z.div_mod_to_equations; lia|].
      * to_arith. change 262144 with (64 * 4096). Z.div_mod_to_equations. lia.
      * to_arith. rewrite Z.mod_mul; lia.
Qed.

(** A property checked on every number below a bound. *)
Lemma below_check (p : Z → bool) (n : nat) :
  forallb p (map Z.of_nat (seq 0 n)) = true →
  ∀ i, 0 ≤ i < Z.of_nat n → p i = true.
Proof.
  intros Hall i Hi. rewrite forallb_forall in Hall. apply Hall.
  apply in_map_iff. exists (Z.to_nat i). split; [lia|].
  apply in_seq. lia.
Qed.

Lemma decodeMap_encodeStd i :
  0 ≤ i < 64 → base64.decodeMap (base64.encodeStd i) = Some i.
Proof.
  intros Hi.
  pose (p := fun i => match base64.decodeMap (base64.encodeStd i) with
                      | Some j => j =? i
                      | None => false
                      end).
  assert (Hall : forallb p (map Z.of_nat (seq 0 64)) = true)
    by (vm_compute; reflexivity).
  apply (below_check p 64 Hall) in Hi. unfold p in Hi.
  destruct (base64.decodeMap (base64.encodeStd i)) as [j|]; [|discriminate].
  apply Z.eqb_eq in Hi. congruence.
Qed.

Lemma sextet_range v k : 0 ≤ Z.land (Z.shiftr v k) 0x3F < 64.
Proof.
  change 0x3F with (Z.ones 6). rewrite Z.land_ones by lia.
  apply Z.mod_pos_bound. lia.
Qed.

Lemma sextet_range0 v : 0 ≤ Z.land v 0x3F < 64.
Proof.
  change 0x3F with (Z.ones 6). rewrite Z.land_ones by lia.
  apply Z.mod_pos_bound. lia.
Qed.

(** Four characters of the alphabet make a quantum. *)
Lemma readQuantum_full c1 c2 c3 c4 d1 d2 d3 d4 rest si :
  base64.decodeMap c1 = Some d1 → base64.decodeMap c2 = Some d2 →
  base64.decodeMap c3 = Some d3 → base64.decodeMap c4 = Some d4 →
  base64.readQuantum (String c1 (String c2 (String c3 (String c4 rest)))) si 0 []
  = base64.QOk 4 [d1; d2; d3; d4] rest (S (S (S (S si)))) None.
Proof.
  intros H1 H2 H3 H4. cbn [base64.readQuantum Nat.leb].
  rewrite H1. cbn [base64.readQuantum Nat.leb app]. rewrite H2.
  cbn [base64.readQuantum Nat.leb app]. rewrite H3.
  cbn [base64.readQuantum Nat.leb app]. rewrite H4.
  destruct rest; reflexivity.
Qed.

Lemma readQuantum_pad1 c1 c2 c3 d1 d2 d3 si :
  base64.decodeMap c1 = Some d1 → base64.decodeMap c2 = Some d2 →
  base64.decodeMap c3 = Some d3 →
  base64.readQuantum
    (String c1 (String c2 (String c3 (String base64.padChar "")))) si 0 []
  = base64.QOk 3 [d1; d2; d3] "" (S (S (S (S si)))) None.
Proof.
  intros H1 H2 H3. cbn [base64.readQuantum Nat.leb].
  rewrite H1. cbn [base64.readQuantum Nat.leb app]. rewrite H2.
  cbn [base64.readQuantum Nat.leb app]. rewrite H3.
  reflexivity.
Qed.

Lemma readQuantum_pad2 c1 c2 d1 d2 si :
  base64.decodeMap c1 = Some d1 → base64.decodeMap c2 = Some d2 →
  base64.readQuantum
    (String c1 (String c2 (String base64.padChar (String base64.padChar ""))))
    si 0 []
  = base64.QOk 2 [d1; d2] "" (S (S (S (S si)))) None.
Proof.
  intros H1 H2. cbn [base64.readQuantum Nat.leb].
  rewrite H1. cbn [base64.readQuantum Nat.leb app]. rewrite H2.
  reflexivity.
Qed.

(** The bytes of a quantum whose sextets are those of three bytes. *)
Lemma quantum_bytes_sextets v :
  0 ≤ v < 2 ^ 24 →
  base64.quantum_bytes 4
    [ Z.land (Z.shiftr v 18) 0x3F; Z.land (Z.shiftr v 12) 0x3F;
      Z.land (Z.shiftr v 6) 0x3F; Z.land v 0x3F ]
  = string_of [ utf8.byte (Z.shiftr v 16); utf8.byte (Z.shiftr v 8);
                utf8.byte (Z.shiftr v 0) ].
Proof.
  intros Hv. unfold base64.quantum_bytes. cbn [nth].
  rewrite sextets_value by exact Hv. reflexivity.
Qed.

Lemma bytes_of_value a b c :
  0 ≤ a < 256 → 0 ≤ b < 256 → 0 ≤ c < 256 →
  let v := a * 65536 + b * 256 + c in
  utf8.byte (Z.shiftr v 16) = a ∧ utf8.byte (Z.shiftr v 8) = b
  ∧ utf8.byte (Z.shiftr v 0) = c.
Proof.
  intros Ha Hb Hc v. unfold utf8.byte, v. to_arith.
  repeat split; Z.div_mod_to_equations; lia.
Qed.

Lemma Decode_nil fuel si dst : base64.Decode fuel "" si dst = (dst, None).
Proof. destruct fuel; reflexivity. Qed.

(** The value of the quantum of the bytes [a], [b] and [c]. *)
Lemma quantum_of_bytes (a b c : ascii) :
  let v := code a * 65536 + code b * 256 + code c in
  0 ≤ v < 2 ^ 24
  ∧ string_of [ utf8.byte (Z.shiftr v 16); utf8.byte (Z.shiftr v 8);
                utf8.byte (Z.shiftr v 0) ]
    = String a (String b (String c "")).
Proof.
  intros v. pose proof (code_range a). pose proof (code_range b).
  pose proof (code_range c).
  split; [unfold v; change (2 ^ 24) with 16777216; lia|].
  subst v.
  destruct (bytes_of_value (code a) (code b) (code c)) as (-> & -> & ->);
    try assumption.
  simpl. rewrite !chr_code. reflexivity.
Qed.

Lemma zero_sextet6 a b : 0 ≤ a → 0 ≤ b →
  Z.land (a * 65536 + b * 256) 0x3F = 0.
Proof.
  intros Ha Hb. change 0x3F with (Z.ones 6). rewrite Z.land_ones by lia.
  change (2 ^ 6) with 64. Z.div_mod_to_equations. lia.
Qed.

Lemma zero_sextet12 a :
  0 ≤ a → Z.land (Z.shiftr (a * 65536) 6) 0x3F = 0.
Proof.
  intros Ha. change 0x3F with (Z.ones 6). rewrite Z.land_ones by lia.
  rewrite Z.shiftr_div_pow2 by lia.
  change (2 ^ 6) with 64. Z.div_mod_to_equations. lia.
Qed.

(** **** Decoding what the encoder wrote gives the bytes back. *)
Lemma Decode_Encode src : ∀ fuel si dst,
  (slen (base64.EncodeToString src) ≤ fuel)%nat →
  base64.Decode fuel (base64.EncodeToString src) si dst = (dst +:+ src, None).
Proof.
  induction src as [|a|a b|a b c rest IH] using string_triple_ind;
    intros fuel si dst Hfuel.
  - simpl. rewrite Decode_nil, string_app_nil_r. reflexivity.
  - (* one byte, two characters and two pads *)
    destruct fuel as [|fuel]; [simpl in Hfuel; lia|].
    pose proof (code_range a) as Ha.
    cbn [base64.EncodeToString base64.Decode].
    rewrite Z.shiftl_mul_pow2 by lia. change (2 ^ 16) with 65536.
    set (v := code a * 65536).
    rewrite (readQuantum_pad2 _ _ _ _ si
               (decodeMap_encodeStd _ (sextet_range v 18))
               (decodeMap_encodeStd _ (sextet_range v 12))).
    rewrite Decode_nil. f_equal. f_equal.
    destruct (quantum_of_bytes a "000" "000") as (Hv & Hs).
    change (code "000") with 0 in Hv, Hs. rewrite !Z.add_0_r in Hv, Hs.
    fold v in Hv, Hs.
    change (base64.quantum_bytes 2 [Z.land (Z.shiftr v 18) 63;
                                    Z.land (Z.shiftr v 12) 63])
      with (stake 1 (base64.quantum_bytes 4
                       [Z.land (Z.shiftr v 18) 63; Z.land (Z.shiftr v 12) 63;
                        0; 0])).
    rewrite <- (zero_sextet12 (code a)) at 1 by lia. fold v.
    rewrite <- (zero_sextet6 (code a) 0) at 1 by lia.
    change (0 * 256) with 0. rewrite Z.add_0_r. fold v.
    rewrite quantum_bytes_sextets, Hs by exact Hv. reflexivity.
  - (* two bytes, three characters and a pad *)
    destruct fuel as [|fuel]; [simpl in Hfuel; lia|].
    pose proof (code_range a) as Ha. pose proof (code_range b) as Hb.
    cbn [base64.EncodeToString base64.Decode].
    pose proof (quantum_value (code a) (code b) 0 Ha Hb ltac:(lia)) as Hq.
    rewrite Z.lor_0_r, Z.add_0_r in Hq. rewrite Hq.
    set (v := code a * 65536 + code b * 256).
    rewrite (readQuantum_pad1 _ _ _ _ _ _ si
               (decodeMap_encodeStd _ (sextet_range v 18))
               (decodeMap_encodeStd _ (sextet_range v 12))
               (decodeMap_encodeStd _ (sextet_range v 6))).
    rewrite Decode_nil. f_equal. f_equal.
    destruct (quantum_of_bytes a b "000") as (Hv & Hs).
    change (code "000") with 0 in Hv, Hs. rewrite !Z.add_0_r in Hv, Hs.
    fold v in Hv, Hs.
    change (base64.quantum_bytes 3 [Z.land (Z.shiftr v 18) 63;
                                    Z.land (Z.shiftr v 12) 63;
                                    Z.land (Z.shiftr v 6) 63])
      with (stake 2 (base64.quantum_bytes 4
                       [Z.land (Z.shiftr v 18) 63; Z.land (Z.shiftr v 12) 63;
                        Z.land (Z.shiftr v 6) 63; 0])).
    rewrite <- (zero_sextet6 (code a) (code b)) at 1 by lia. fold v.
    rewrite quantum_bytes_sextets, Hs by exact Hv. reflexivity.
  - (* three bytes, four characters *)
    destruct fuel as [|fuel]; [simpl in Hfuel; lia|].
    pose proof (code_range a) as Ha. pose proof (code_range b) as Hb.
    pose proof (code_range c) as Hc.
    cbn [base64.EncodeToString base64.Decode].
    rewrite (quantum_value (code a) (code b) (code c) Ha Hb Hc).
    set (v := code a * 65536 + code b * 256 + code c).
    rewrite (readQuantum_full _ _ _ _ _ _ _ _ _ si
               (decodeMap_encodeStd _ (sextet_range v 18))
               (decodeMap_encodeStd _ (sextet_range v 12))
               (decodeMap_encodeStd _ (sextet_range v 6))
               (decodeMap_encodeStd _ (sextet_range0 v))).
    destruct (quantum_of_bytes a b c) as (Hv & Hs). fold v in Hv, Hs.
    rewrite quantum_bytes_sextets, Hs by exact Hv.
    rewrite IH.
    + rewrite string_app_assoc. reflexivity.
    + cbn [base64.EncodeToString slen String.length] in Hfuel.
      unfold slen. lia.
Qed.

(** [DecodeString] undoes [EncodeToString]. *)
Lemma DecodeString_EncodeToString src :
  base64.DecodeString (base64.EncodeToString src) = (src, None).
Proof.
  unfold base64.DecodeString. rewrite Decode_Encode; [reflexivity|lia].
Qed.

(** ** unicode/utf8 and [strings.Map]: what [safeFileName] returns *)

Lemma lor_below a b k :
  0 ≤ k → 0 ≤ a < 2 ^ k → 0 ≤ b < 2 ^ k → 0 ≤ Z.lor a b < 2 ^ k.
Proof.
  intros Hk Ha Hb. split; [apply Z.lor_nonneg; lia|].
  destruct (Z.eq_dec a 0) as [->|Ha0]; [rewrite Z.lor_0_l; lia|].
  destruct (Z.eq_dec b 0) as [->|Hb0]; [rewrite Z.lor_0_r; lia|].
  assert (Hpos : 0 < Z.lor a b).
  { assert (0 ≤ Z.lor a b) by (apply Z.lor_nonneg; lia).
    assert (Z.lor a b ≠ 0) by (intros H0; apply Z.lor_eq_0_iff in H0; lia).
    lia. }
  apply Z.log2_lt_pow2; [exact Hpos|].
  rewrite Z.log2_lor by lia.
  apply Z.max_lub_lt; apply Z.log2_lt_pow2; lia.
Qed.

Lemma land_mask_below a k : 0 ≤ k → 0 ≤ Z.land a (Z.ones k) < 2 ^ k.
Proof.
  intros Hk. rewrite Z.land_ones by exact Hk. apply Z.mod_pos_bound.
  apply Z.pow_pos_nonneg; lia.
Qed.

Lemma shiftl_below a j k :
  0 ≤ j → 0 ≤ k → 0 ≤ a < 2 ^ k → 0 ≤ Z.shiftl a j < 2 ^ (k + j).
Proof.
  intros Hj Hk Ha. rewrite Z.shiftl_mul_pow2 by exact Hj.
  rewrite Z.pow_add_r by lia.
  assert (0 < 2 ^ j) by (apply Z.pow_pos_nonneg; lia). nia.
Qed.

Lemma below_weaken a j k : j ≤ k → 0 ≤ a < 2 ^ j → 0 ≤ a < 2 ^ k.
Proof.
  intros Hjk Ha. split; [lia|].
  apply Z.lt_le_trans with (2 ^ j); [lia|].
  apply Z.pow_le_mono_r; lia.
Qed.

#[local] Arguments code : simpl never.

Ltac bools_to_props :=
  repeat match goal with
         | H : (_ <? _) = true |- _ => apply Z.ltb_lt in H
         | H : (_ <? _) = false |- _ => apply Z.ltb_ge in H
         | H : (_ =? _) = true |- _ => apply Z.eqb_eq in H
         | H : (_ =? _) = false |- _ => apply Z.eqb_neq in H
         | H : (_ <=? _) = true |- _ => apply Z.leb_le in H
         | H : (_ <=? _) = false |- _ => apply Z.leb_gt in H
         | H : (_ || _) = false |- _ =>
             apply orb_false_iff in H; destruct H
         | H : (_ && _) = true |- _ =>
             apply andb_true_iff in H; destruct H
         end.

Lemma rune2_below b0 b1 :
  0 ≤ Z.lor (Z.shiftl (Z.land b0 utf8.mask2) 6) (Z.land b1 utf8.maskx) < 2 ^ 21.
Proof.
  apply lor_below; [lia| |].
  - apply (below_weaken _ (5 + 6)); [lia|].
    apply shiftl_below; [lia|lia|]. apply (land_mask_below b0 5). lia.
  - apply (below_weaken _ 6); [lia|]. apply (land_mask_below b1 6). lia.
Qed.

Lemma rune3_below b0 b1 b2 :
  0 ≤ Z.lor (Z.lor (Z.shiftl (Z.land b0 utf8.mask3) 12)
                   (Z.shiftl (Z.land b1 utf8.maskx) 6))
            (Z.land b2 utf8.maskx) < 2 ^ 21.
Proof.
  apply lor_below; [lia| |].
  - apply lor_below; [lia| |].
    + apply (below_weaken _ (4 + 12)); [lia|].
      apply shiftl_below; [lia|lia|]. apply (land_mask_below b0 4). lia.
    + apply (below_weaken _ (6 + 6)); [lia|].
      apply shiftl_below; [lia|lia|]. apply (land_mask_below b1 6). lia.
  - apply (below_weaken _ 6); [lia|]. apply (land_mask_below b2 6). lia.
Qed.

Lemma rune4_below b0 b1 b2 b3 :
  0 ≤ Z.lor (Z.lor (Z.lor (Z.shiftl (Z.land b0 utf8.mask4) 18)
                          (Z.shiftl (Z.land b1 utf8.maskx) 12))
                   (Z.shiftl (Z.land b2 utf8.maskx) 6))
            (Z.land b3 utf8.maskx) < 2 ^ 21.
Proof.
  apply lor_below; [lia| |].
  - apply lor_below; [lia| |].
    + apply lor_below; [lia| |].
      * apply (below_weaken _ (3 + 18)); [lia|].
        apply shiftl_below; [lia|lia|]. apply (land_mask_below b0 3). lia.
      * apply (below_weaken _ (6 + 12)); [lia|].
        apply shiftl_below; [lia|lia|]. apply (land_mask_below b1 6). lia.
    + apply (below_weaken _ (6 + 6)); [lia|].
      apply shiftl_below; [lia|lia|]. apply (land_mask_below b2 6). lia.
  - apply (below_weaken _ 6); [lia|]. apply (land_mask_below b3 6). lia.
Qed.

Lemma first_cases b :
  0 ≤ b < 256 →
  (b < 0x80 ∧ utf8.first b = utf8.as_)
  ∨ (0x80 ≤ b ∧ utf8.first b = utf8.xx)
  ∨ (0x80 ≤ b
     ∧ ∃ x, utf8.first b = x
            ∧ (x >=? utf8.as_) = false
            ∧ (2 ≤ Z.to_nat (Z.land x 7) ≤ 4)%nat
            ∧ 0x80 ≤ fst (utf8.acceptRanges (Z.shiftr x 4))).
Proof.
  intros Hb. unfold utf8.first.
  repeat match goal with
         | |- context [if ?c then _ else _] =>
             lazymatch c with
             | context [if _ then _ else _] => fail
             | _ => destruct c eqn:?
             end
         end;
    bools_to_props;
    first [ left; split; [lia|reflexivity]
          | right; left; split; [lia|reflexivity]
          | right; right; split; [lia|];
            eexists; split; [reflexivity|];
            vm_compute; repeat split; try discriminate; lia ].
Qed.

(** A rune of several bytes is below 2^21 and made of bytes outside ASCII;
    what is no such rune is an invalid byte. *)
Lemma decodeMulti_spec c0 s1 sz lo hi c size :
  0x80 ≤ code c0 → 0x80 ≤ lo → (2 ≤ sz ≤ 4)%nat →
  utf8.decodeMulti (String c0 s1) (code c0) sz lo hi = (c, size) →
  0 ≤ c < 2 ^ 21
  ∧ (size ≤ slen (String c0 s1))%nat
  ∧ (size = 1%nat ∧ c = utf8.RuneError
     ∨ (2 ≤ size)%nat ∧ all_high (stake size (String c0 s1)) = true).
Proof.
  intros H0 Hlo Hsz.
  assert (Hshape : s1 = "" ∨ (∃ c1, s1 = String c1 "")
                   ∨ (∃ c1 c2, s1 = String c1 (String c2 ""))
                   ∨ ∃ c1 c2 c3 s4, s1 = String c1 (String c2 (String c3 s4))).
  { destruct s1 as [|c1 [|c2 [|c3 s4]]]; eauto 10. }
  assert (Hcases : sz = 2%nat ∨ sz = 3%nat ∨ sz = 4%nat) by lia.
  unfold utf8.decodeMulti.
  destruct Hcases as [-> | [-> | ->]];
  destruct Hshape as [->|[(c1 & ->)|[(c1 & c2 & ->)|(c1 & c2 & c3 & s4 & ->)]]];
    cbn [slen String.length Nat.ltb Nat.leb byteAt String.get];
    repeat match goal with
           | |- context [if ?b then _ else _] => destruct b eqn:?
           end;
    intros [= <- <-]; bools_to_props;
    (split;
     [lazymatch goal with
      | |- _ ≤ Z.lor (Z.lor (Z.lor _ _) _) _ < _ => apply rune4_below
      | |- _ ≤ Z.lor (Z.lor _ _) _ < _ => apply rune3_below
      | |- _ ≤ Z.lor _ _ < _ => apply rune2_below
      | |- _ => change (2 ^ 21) with 2097152; unfold utf8.RuneError; lia
      end
     |split; [cbn [slen String.length]; lia|]]);
    first
      [ left; split; reflexivity
      | right; split; [lia|];
        cbn [stake all_high];
        rewrite ?andb_true_iff, ?Z.leb_le;
        unfold utf8.locb, utf8.hicb in *; repeat split; lia ].
Qed.

(** What [DecodeRuneInString] returns: a rune below 2^21 and its width;
    the width is 1 for an ASCII byte, which is the rune, and for an invalid
    byte, whose rune is [RuneError]; a wider rune is made of bytes outside
    ASCII. *)
Lemma DecodeRune_spec s c size :
  utf8.DecodeRuneInString s = (c, size) →
  0 ≤ c < 2 ^ 21
  ∧ (size ≤ slen s)%nat
  ∧ (s = "" ∧ size = 0%nat
     ∨ (size = 1%nat
        ∧ ∃ c0 s', s = String c0 s'
                   ∧ (c = utf8.RuneError ∧ 0x80 ≤ code c0
                      ∨ c = code c0 ∧ c < 0x80))
     ∨ ((2 ≤ size)%nat ∧ all_high (stake size s) = true)).
Proof.
  destruct s as [|c0 s1].
  { unfold utf8.DecodeRuneInString. cbn [slen String.length Nat.ltb Nat.leb].
    intros [= <- <-]. split; [vm_compute; split; [discriminate|reflexivity]|].
    split; [simpl; lia|]. left. split; reflexivity. }
  pose proof (code_range c0) as H0.
  unfold utf8.DecodeRuneInString.
  cbn [slen String.length Nat.ltb Nat.leb].
  change (byteAt (String c0 s1) 0) with (code c0).
  destruct (first_cases (code c0) H0)
    as [(Hb & ->)|[(Hb & ->)|(Hb & x & -> & -> & Hsz & Hlo)]].
  - change (utf8.as_ >=? utf8.as_) with true.
    change (utf8.as_ =? utf8.xx) with false. cbv iota.
    intros [= <- <-]. split; [change (2 ^ 21) with 2097152; lia|].
    split; [lia|]. right. left. split; [reflexivity|].
    exists c0, s1. split; [reflexivity|]. right. split; [reflexivity|lia].
  - change (utf8.xx >=? utf8.as_) with true.
    change (utf8.xx =? utf8.xx) with true. cbv iota.
    intros [= <- <-].
    split; [change (2 ^ 21) with 2097152; unfold utf8.RuneError; lia|].
    split; [lia|]. right. left. split; [reflexivity|].
    exists c0, s1. split; [reflexivity|]. left. split; [reflexivity|lia].
  - destruct (utf8.acceptRanges (Z.shiftr x 4)) as [lo hi]. simpl in Hlo.
    intros H. apply decodeMulti_spec in H as (Hc & Hle & Hk); try assumption.
    split; [exact Hc|]. split; [exact Hle|].
    destruct Hk as [(-> & ->)|Hk].
    + right. left. split; [reflexivity|].
      exists c0, s1. split; [reflexivity|]. left. split; [reflexivity|lia].
    + right. right. exact Hk.
Qed.

Lemma has_slash_app (a b : string) :
  has_slash (a +:+ b) = has_slash a || has_slash b.
Proof.
  induction a as [|c a IH]; [reflexivity|].
  rewrite string_app_cons. simpl. rewrite IH. apply orb_assoc.
Qed.

Lemma all_high_no_slash s : all_high s = true → has_slash s = false.
Proof.
  induction s as [|c s IH]; [reflexivity|]. simpl. intros H.
  apply andb_true_iff in H as (Hc & Hs). apply Z.leb_le in Hc.
  rewrite (IH Hs), orb_false_r. unfold is_slash.
  apply orb_false_iff. split; apply Z.eqb_neq; lia.
Qed.

Lemma stake_sdrop n (s : string) : stake n s +:+ sdrop n s = s.
Proof.
  revert s. induction n as [|n IH]; intros [|c s]; try reflexivity.
  simpl. rewrite string_app_cons, IH. reflexivity.
Qed.

Lemma slen_sdrop n (s : string) : slen (sdrop n s) = (slen s - n)%nat.
Proof.
  unfold slen. revert s.
  induction n as [|n IH]; intros [|c s]; simpl; try lia. apply IH.
Qed.

(** A leading byte or a continuation byte built by the encoder is
    outside ASCII. *)
Lemma lor_high k x :
  k = 0x80 ∨ k = 0xC0 ∨ k = 0xE0 ∨ k = 0xF0 →
  0 ≤ x < 256 → 0x80 ≤ Z.lor k x < 256.
Proof.
  intros Hk Hx.
  pose (p := fun k x => (0x80 <=? Z.lor k x) && (Z.lor k x <? 256)).
  assert (Hall : forallb (fun k => forallb (p k) (map Z.of_nat (seq 0 256)))
                   [0x80; 0xC0; 0xE0; 0xF0] = true)
    by (vm_compute; reflexivity).
  rewrite forallb_forall in Hall.
  assert (Hin : In k [0x80; 0xC0; 0xE0; 0xF0]) by (simpl; intuition).
  apply Hall in Hin. apply (below_check (p k) 256 Hin) in Hx.
  unfold p in Hx. apply andb_true_iff in Hx as (H1 & H2).
  apply Z.leb_le in H1. apply Z.ltb_lt in H2. lia.
Qed.

Lemma byte_range z : 0 ≤ utf8.byte z < 256.
Proof. unfold utf8.byte. apply Z.mod_pos_bound. lia. Qed.

Lemma continuation_high z :
  0x80 ≤ Z.lor 0x80 (Z.land (utf8.byte z) utf8.maskx) < 256.
Proof.
  apply lor_high; [auto|].
  pose proof (land_mask_below (utf8.byte z) 6 ltac:(lia)) as H.
  change (Z.ones 6) with utf8.maskx in H. change (2 ^ 6) with 64 in H. lia.
Qed.

Lemma all_high_string_of l :
  Forall (fun b => 0x80 ≤ b < 256) l → all_high (string_of l) = true.
Proof.
  induction 1 as [|b l Hb _ IH]; [reflexivity|].
  simpl. rewrite code_chr by lia. rewrite IH, andb_true_r.
  apply Z.leb_le. lia.
Qed.

(** The encoding of a rune outside ASCII has no ASCII byte. *)
Lemma EncodeRune_high r :
  0x80 ≤ r < 2 ^ 21 → all_high (string_of (utf8.EncodeRune r)) = true.
Proof.
  intros Hr. change (2 ^ 21) with 2097152 in Hr.
  apply all_high_string_of. unfold utf8.EncodeRune, utf8.encode3.
  rewrite (Z.mod_small r (2 ^ 32)) by (change (2 ^ 32) with 4294967296; lia).
  repeat match goal with
         | |- context [if ?b then _ else _] => destruct b eqn:?
         end;
    repeat match goal with
           | |- Forall _ _ => constructor
           end;
    first [ apply continuation_high
          | apply lor_high; [auto|apply byte_range]
          | bools_to_props; lia ].
Qed.

(** What [safeFileName] writes for a rune has no slash and no backslash. *)
Lemma mapping_range c :
  0 ≤ c < 2 ^ 21 →
  0 ≤ safeFileName_mapping c < 2 ^ 21
  ∧ safeFileName_mapping c ≠ 0x2F ∧ safeFileName_mapping c ≠ 0x5C.
Proof.
  intros Hc. change (2 ^ 21) with 2097152 in *. unfold safeFileName_mapping.
  change (code "/") with 0x2F. change (code "\") with 0x5C.
  change (code "-") with 0x2D.
  destruct (_ || _) eqn:H; [lia|]. bools_to_props. lia.
Qed.

Lemma encoded_no_slash r :
  0 ≤ r < 2 ^ 21 → r ≠ 0x2F → r ≠ 0x5C →
  has_slash (string_of (utf8.EncodeRune r)) = false.
Proof.
  intros Hr H1 H2.
  destruct (Z.lt_ge_cases r 0x80) as [Hlt|Hge].
  - unfold utf8.EncodeRune.
    change (2 ^ 21) with 2097152 in Hr.
    rewrite (Z.mod_small r (2 ^ 32)) by (change (2 ^ 32) with 4294967296; lia).
    destruct (r <=? 127) eqn:Hle; [|bools_to_props; lia].
    unfold utf8.byte. rewrite Z.mod_small by lia.
    simpl. unfold is_slash. rewrite code_chr by lia.
    rewrite orb_false_r. apply orb_false_iff. split; apply Z.eqb_neq; lia.
  - apply all_high_no_slash, EncodeRune_high. lia.
Qed.

Lemma written_no_slash r :
  0 ≤ r < 2 ^ 21 → r ≠ 0x2F → r ≠ 0x5C →
  has_slash (strings.written r) = false.
Proof.
  intros Hr H1 H2. unfold strings.written.
  destruct (r <? 0) eqn:Hneg; [reflexivity|].
  destruct (r <? utf8.RuneSelf) eqn:Hself.
  - bools_to_props. unfold utf8.RuneSelf in Hself.
    simpl. unfold is_slash. rewrite code_chr by lia.
    rewrite orb_false_r. apply orb_false_iff. split; apply Z.eqb_neq; lia.
  - apply encoded_no_slash; assumption.
Qed.

Lemma Map_rest_no_slash fuel : ∀ s,
  has_slash (strings.Map_rest safeFileName_mapping fuel s) = false.
Proof.
  induction fuel as [|fuel IH]; intros s; [reflexivity|].
  destruct s as [|c0 s1]; [reflexivity|].
  cbn [strings.Map_rest].
  destruct (utf8.DecodeRuneInString (String c0 s1)) as [c size] eqn:Hd.
  apply DecodeRune_spec in Hd as (Hc & _).
  destruct (mapping_range c Hc) as (Hr & H1 & H2).
  rewrite has_slash_app, IH, written_no_slash by assumption. reflexivity.
Qed.

(** The bytes of a rune that [safeFileName] keeps have no slash. *)
Lemma kept_no_slash s c size :
  utf8.DecodeRuneInString s = (c, size) →
  safeFileName_mapping c = c →
  c ≠ utf8.RuneError ∨ size ≠ 1%nat →
  has_slash (stake size s) = false.
Proof.
  intros Hd Hmap Hne.
  pose proof (DecodeRune_spec s c size Hd) as (Hc & _ & Hk).
  destruct (mapping_range c Hc) as (_ & H1 & H2). rewrite Hmap in H1, H2.
  destruct Hk as [(-> & ->)|[(-> & c0 & s' & -> & Hk)|(_ & Hhigh)]].
  - reflexivity.
  - destruct Hk as [(-> & _)|(-> & _)]; [destruct Hne; congruence|].
    simpl. unfold is_slash. rewrite orb_false_r.
    apply orb_false_iff. split; apply Z.eqb_neq; assumption.
  - apply all_high_no_slash, Hhigh.
Qed.

Lemma DecodeRune_width s c size :
  utf8.DecodeRuneInString s = (c, size) → s ≠ "" → (1 ≤ size)%nat.
Proof.
  intros Hd Hs. apply DecodeRune_spec in Hd as (_ & _ & Hk).
  destruct Hk as [(-> & _)|[(-> & _)|(Hk & _)]]; [congruence|lia|lia].
Qed.

(** The first loop of [strings.Map] under [safeFileName]: what it has put
    into the builder has no slash, and neither has a string it leaves
    unchanged. *)
Lemma Map_first_no_slash fuel : ∀ pre s,
  has_slash pre = false → (slen s ≤ fuel)%nat →
  match strings.Map_first safeFileName_mapping fuel pre s with
  | None => has_slash (pre +:+ s) = false
  | Some (b, _) => has_slash b = false
  end.
Proof.
  induction fuel as [|fuel IH]; intros pre s Hpre Hlen.
  { destruct s; [|simpl in Hlen; lia]. simpl.
    rewrite string_app_nil_r. exact Hpre. }
  destruct s as [|c0 s1].
  { simpl. rewrite string_app_nil_r. exact Hpre. }
  cbn [strings.Map_first].
  destruct (utf8.DecodeRuneInString (String c0 s1)) as [c size] eqn:Hd.
  pose proof (DecodeRune_spec _ _ _ Hd) as (Hc & _ & _).
  pose proof (DecodeRune_width _ _ _ Hd ltac:(discriminate)) as Hsize.
  destruct (mapping_range c Hc) as (Hr & H1 & H2).
  assert (Hkeep : safeFileName_mapping c = c →
                  c ≠ utf8.RuneError ∨ size ≠ 1%nat →
                  match strings.Map_first safeFileName_mapping fuel
                          (pre +:+ stake size (String c0 s1))
                          (sdrop size (String c0 s1)) with
                  | None => has_slash (pre +:+ String c0 s1) = false
                  | Some (b, _) => has_slash b = false
                  end).
  { intros Hmap Hne.
    specialize (IH (pre +:+ stake size (String c0 s1))
                  (sdrop size (String c0 s1))).
    rewrite string_app_assoc, stake_sdrop in IH. apply IH.
    - rewrite has_slash_app, Hpre, (kept_no_slash _ _ _ Hd Hmap Hne).
      reflexivity.
    - rewrite slen_sdrop. unfold slen in *. simpl in *. lia. }
  assert (Hput : has_slash
                   (pre +:+ (if 0 <=? safeFileName_mapping c
                             then string_of
                                    (utf8.EncodeRune (safeFileName_mapping c))
                             else "")) = false).
  { rewrite has_slash_app, Hpre.
    destruct (0 <=? _); [apply encoded_no_slash; assumption|reflexivity]. }
  destruct ((safeFileName_mapping c =? c) && negb (c =? utf8.RuneError))
    eqn:Hsame.
  - bools_to_props. apply Hkeep; [assumption|]. left.
    apply negb_true_iff in H0. bools_to_props. assumption.
  - destruct (c =? utf8.RuneError) eqn:Herr; [|exact Hput].
    destruct (negb (size =? 1)%nat && (safeFileName_mapping c =? c)) eqn:Hw;
      [|exact Hput].
    bools_to_props. apply Hkeep; [assumption|]. right.
    apply negb_true_iff, Nat.eqb_neq in H. exact H.
Qed.

(** **** [safeFileName] leaves no slash and no backslash. *)
Lemma safeFileName_no_slash s : has_slash (safeFileName s) = false.
Proof.
  unfold safeFileName, strings.Map.
  pose proof (Map_first_no_slash (slen s) "" s eq_refl (le_n _)) as H.
  destruct (strings.Map_first _ _ _ _) as [[b rest]|].
  - rewrite has_slash_app, H, Map_rest_no_slash. reflexivity.
  - exact H.
Qed.

(** An ASCII byte is a rune of width 1. *)
Lemma DecodeRune_ascii c0 s1 :
  code c0 < 0x80 → utf8.DecodeRuneInString (String c0 s1) = (code c0, 1%nat).
Proof.
  intros H0. pose proof (code_range c0) as Hr.
  unfold utf8.DecodeRuneInString.
  cbn [slen String.length Nat.ltb Nat.leb].
  change (byteAt (String c0 s1) 0) with (code c0).
  unfold utf8.first. destruct (code c0 <? 128) eqn:Hlt; [|bools_to_props; lia].
  reflexivity.
Qed.

(** What [safeFileName] makes of an ASCII byte. *)
Lemma mapping_ascii c0 :
  code c0 < 0x80 →
  safeFileName_mapping (code c0)
  = code (if is_slash c0 then "-"%char else c0)
  ∧ 0 ≤ safeFileName_mapping (code c0) < 0x80.
Proof.
  intros H0. pose proof (code_range c0) as Hr.
  unfold safeFileName_mapping, is_slash.
  change (code "/") with 0x2F. change (code "\") with 0x5C.
  destruct (_ || _).
  - change (code "-") with 0x2D. split; [reflexivity|lia].
  - split; [reflexivity|lia].
Qed.

Lemma written_ascii r :
  0 ≤ r < 0x80 → strings.written r = String (chr r) "".
Proof.
  intros Hr. unfold strings.written, utf8.RuneSelf.
  destruct (r <? 0) eqn:H1; [bools_to_props; lia|].
  destruct (r <? 128) eqn:H2; [reflexivity|bools_to_props; lia].
Qed.

Lemma encoded_ascii r :
  0 ≤ r < 0x80 → string_of (utf8.EncodeRune r) = String (chr r) "".
Proof.
  intros Hr. unfold utf8.EncodeRune.
  rewrite (Z.mod_small r (2 ^ 32)) by (change (2 ^ 32) with 4294967296; lia).
  destruct (r <=? 127) eqn:H1; [|bools_to_props; lia].
  unfold utf8.byte. rewrite Z.mod_small by lia. reflexivity.
Qed.

Lemma RuneLen_ascii r : 0 ≤ r < 0x80 → utf8.RuneLen r = 1.
Proof.
  intros Hr. unfold utf8.RuneLen.
  destruct (r <? 0) eqn:H1; [bools_to_props; lia|].
  destruct (r <=? 127) eqn:H2; [reflexivity|bools_to_props; lia].
Qed.

Lemma Map_rest_ascii fuel : ∀ s,
  is_ascii s = true → (slen s ≤ fuel)%nat →
  strings.Map_rest safeFileName_mapping fuel s = hyphenate s.
Proof.
  induction fuel as [|fuel IH]; intros s Hs Hlen.
  { destruct s; [reflexivity|simpl in Hlen; lia]. }
  destruct s as [|c0 s1]; [reflexivity|].
  simpl in Hs. apply andb_true_iff in Hs as (H0 & Hs). apply Z.ltb_lt in H0.
  cbn [strings.Map_rest]. rewrite (DecodeRune_ascii c0 s1 H0).
  destruct (mapping_ascii c0 H0) as (Hm & Hr).
  rewrite written_ascii by exact Hr. rewrite Hm, chr_code.
  cbn [sdrop]. rewrite string_app_cons, string_app_nil_l.
  rewrite IH; [reflexivity|exact Hs|]. unfold slen in *. simpl in Hlen. lia.
Qed.

Lemma Map_first_ascii fuel : ∀ pre s,
  is_ascii s = true → (slen s ≤ fuel)%nat →
  match strings.Map_first safeFileName_mapping fuel pre s with
  | None => hyphenate s = s
  | Some (b, rest) =>
      b +:+ strings.Map_rest safeFileName_mapping (slen rest) rest
      = pre +:+ hyphenate s
  end.
Proof.
  induction fuel as [|fuel IH]; intros pre s Hs Hlen.
  { destruct s; [reflexivity|simpl in Hlen; lia]. }
  destruct s as [|c0 s1]; [reflexivity|].
  simpl in Hs. apply andb_true_iff in Hs as (H0 & Hs). apply Z.ltb_lt in H0.
  pose proof (code_range c0) as Hr0.
  cbn [strings.Map_first]. rewrite (DecodeRune_ascii c0 s1 H0).
  destruct (mapping_ascii c0 H0) as (Hm & Hr).
  assert (Herr : (code c0 =? utf8.RuneError) = false)
    by (apply Z.eqb_neq; unfold utf8.RuneError; lia).
  rewrite Herr. cbn [negb]. rewrite andb_true_r.
  destruct (safeFileName_mapping (code c0) =? code c0) eqn:Hsame.
  - (* the byte is kept *)
    apply Z.eqb_eq in Hsame.
    assert (Hc : (if is_slash c0 then "-"%char else c0) = c0).
    { rewrite Hm in Hsame. apply (f_equal chr) in Hsame.
      rewrite !chr_code in Hsame. exact Hsame. }
    cbn [stake sdrop hyphenate]. rewrite Hc.
    specialize (IH (pre +:+ String c0 "") s1 Hs).
    destruct (strings.Map_first _ _ _ _) as [[b rest]|].
    + rewrite IH by (unfold slen in *; simpl in Hlen; lia).
      rewrite string_app_assoc. reflexivity.
    + rewrite IH by (unfold slen in *; simpl in Hlen; lia). reflexivity.
  - (* the byte is a slash *)
    rewrite RuneLen_ascii by lia. cbn [Z.to_nat Pos.to_nat Pos.iter_op Nat.add sdrop].
    destruct (0 <=? safeFileName_mapping (code c0)) eqn:Hpos;
      [|bools_to_props; lia].
    rewrite encoded_ascii by exact Hr. rewrite Hm, chr_code.
    cbn [hyphenate]. rewrite string_app_assoc, string_app_cons, string_app_nil_l.
    rewrite Map_rest_ascii by (exact Hs || lia). reflexivity.
Qed.

(** **** On an ASCII string [safeFileName] replaces every slash and
    backslash by a hyphen and keeps every other byte. *)
Lemma safeFileName_ascii s : is_ascii s = true → safeFileName s = hyphenate s.
Proof.
  intros Hs. unfold safeFileName, strings.Map.
  pose proof (Map_first_ascii (slen s) "" s Hs (le_n _)) as H.
  destruct (strings.Map_first _ _ _ _) as [[b rest]|].
  - rewrite H. reflexivity.
  - symmetry. exact H.
Qed.

(** ** Fuel

    The loops of the models are given the length of their input as fuel.
    More fuel changes nothing: no result is cut short. *)

Lemma Map_rest_fuel mapping fuel : ∀ s,
  (slen s ≤ fuel)%nat →
  strings.Map_rest mapping (S fuel) s = strings.Map_rest mapping fuel s.
Proof.
  induction fuel as [|fuel IH]; intros s Hle.
  - destruct s; [reflexivity|]. unfold slen in Hle. simpl in Hle. lia.
  - destruct s as [|c0 s0]; [reflexivity|].
    change (strings.Map_rest mapping (S (S fuel)) (String c0 s0))
      with (let '(c, size) := utf8.DecodeRuneInString (String c0 s0) in
            strings.written (mapping c)
            +:+ strings.Map_rest mapping (S fuel) (sdrop size (String c0 s0))).
    change (strings.Map_rest mapping (S fuel) (String c0 s0))
      with (let '(c, size) := utf8.DecodeRuneInString (String c0 s0) in
            strings.written (mapping c)
            +:+ strings.Map_rest mapping fuel (sdrop size (String c0 s0))).
    destruct (utf8.DecodeRuneInString (String c0 s0)) as [c size] eqn:Hd.
    apply DecodeRune_width in Hd; [|discriminate].
    rewrite IH; [reflexivity|]. rewrite slen_sdrop. lia.
Qed.

Lemma Map_first_step mapping fuel pre c0 s0 :
  strings.Map_first mapping (S fuel) pre (String c0 s0)
  = let s := String c0 s0 in
    let '(c, size) := utf8.DecodeRuneInString s in
    let r := mapping c in
    if (r =? c) && negb (c =? utf8.RuneError) then
      strings.Map_first mapping fuel (pre +:+ stake size s) (sdrop size s)
    else if c =? utf8.RuneError then
      let '(c', width) := utf8.DecodeRuneInString s in
      if negb (width =? 1)%nat && (r =? c') then
        strings.Map_first mapping fuel (pre +:+ stake size s) (sdrop size s)
      else
        Some (pre +:+ (if 0 <=? r then string_of (utf8.EncodeRune r)
                       else EmptyString),
              sdrop width s)
    else
      let width := Z.to_nat (utf8.RuneLen c) in
      Some (pre +:+ (if 0 <=? r then string_of (utf8.EncodeRune r)
                     else EmptyString),
            sdrop width s).
Proof. reflexivity. Qed.

Lemma Map_first_fuel mapping fuel : ∀ pre s,
  (slen s ≤ fuel)%nat →
  strings.Map_first mapping (S fuel) pre s
  = strings.Map_first mapping fuel pre s.
Proof.
  induction fuel as [|fuel IH]; intros pre s Hle.
  - destruct s; [reflexivity|]. unfold slen in Hle. simpl in Hle. lia.
  - destruct s as [|c0 s0]; [reflexivity|].
    rewrite (Map_first_step mapping (S fuel)), (Map_first_step mapping fuel).
    cbv zeta.
    destruct (utf8.DecodeRuneInString (String c0 s0)) as [c size] eqn:Hd.
    apply DecodeRune_width in Hd; [|discriminate].
    rewrite IH; [reflexivity|]. rewrite slen_sdrop. lia.
Qed.

Lemma skip_newlines_shrinks src si rest si' :
  base64.skip_newlines src si = (rest, si') → (slen rest ≤ slen src)%nat.
Proof.
  unfold slen. revert si. induction src as [|c src IH]; intros si H;
    simpl in H.
  - injection H as <- _. lia.
  - destruct (base64.is_newline c); simpl in H.
    + apply IH in H. simpl. lia.
    + injection H as <- _. simpl. lia.
Qed.

Lemma after_padding_shrinks j dbuf src si dlen dbuf' rest si' err :
  base64.after_padding j dbuf src si = base64.QOk dlen dbuf' rest si' err →
  (slen rest ≤ slen src)%nat.
Proof.
  unfold base64.after_padding.
  destruct (base64.skip_newlines src si) as [r s1] eqn:Hs.
  intros [= _ _ <- _ _]. eapply skip_newlines_shrinks, Hs.
Qed.

(** A quantum that is read uses up at least one byte. *)
Lemma readQuantum_shrinks src : ∀ si j dbuf dlen dbuf' rest si' err,
  base64.readQuantum src si j dbuf = base64.QOk dlen dbuf' rest si' err →
  (slen rest ≤ slen src)%nat ∧ ((j < 4)%nat → (slen rest < slen src)%nat).
Proof.
  induction src as [|c src IH]; intros si j dbuf dlen dbuf' rest si' err H.
  - cbn [base64.readQuantum] in H.
    destruct (4 <=? j)%nat eqn:Hj; cbv iota in H.
    + injection H as _ _ <- _ _. apply Nat.leb_le in Hj. split; lia.
    + destruct (j =? 0)%nat; discriminate.
  - cbn [base64.readQuantum] in H.
    destruct (4 <=? j)%nat eqn:Hj; cbv iota in H.
    { injection H as _ _ <- _ _. apply Nat.leb_le in Hj. split; lia. }
    assert (Hgoal : (slen rest ≤ slen src)%nat →
              (slen rest ≤ slen (String c src))%nat
              ∧ ((j < 4)%nat → (slen rest < slen (String c src))%nat)).
    { unfold slen. simpl. lia. }
    apply Hgoal. clear Hgoal.
    destruct (base64.decodeMap c).
    { apply IH in H. tauto. }
    destruct (base64.is_newline c).
    { apply IH in H. tauto. }
    destruct (negb (bool_decide (c = base64.padChar))); [discriminate|].
    destruct j as [|[|[|j]]]; try discriminate.
    + destruct (base64.skip_newlines src (S si)) as [rest1 si1] eqn:Hs.
      apply skip_newlines_shrinks in Hs.
      destruct rest1 as [|c2 rest2]; [discriminate|].
      destruct (negb (bool_decide (c2 = base64.padChar))); [discriminate|].
      apply after_padding_shrinks in H. unfold slen in *. simpl in Hs. lia.
    + eapply after_padding_shrinks, H.
Qed.

Lemma Decode_fuel fuel : ∀ src si dst,
  (slen src ≤ fuel)%nat →
  base64.Decode (S fuel) src si dst = base64.Decode fuel src si dst.
Proof.
  induction fuel as [|fuel IH]; intros src si dst Hle.
  - destruct src; [reflexivity|]. unfold slen in Hle. simpl in Hle. lia.
  - destruct src as [|c0 s0]; [reflexivity|].
    cbn [base64.Decode].
    destruct (base64.readQuantum (String c0 s0) si 0 [])
      as [|off|dlen dbuf rest si' [off|]] eqn:Hq; try reflexivity.
    apply readQuantum_shrinks in Hq as (_ & Hlt).
    apply IH. specialize (Hlt ltac:(lia)). lia.
Qed.

(** [DecodeString] is the quantum loop with any fuel that is enough. *)
Lemma DecodeString_fuel s fuel :
  (slen s ≤ fuel)%nat →
  base64.Decode fuel s 0 "" = base64.DecodeString s.
Proof.
  unfold base64.DecodeString. induction 1 as [|fuel Hle IH]; [reflexivity|].
  rewrite Decode_fuel by exact Hle. exact IH.
Qed.

Lemma component_shrinks s elem rest :
  filepath.component s = (elem, rest) → (slen rest ≤ slen s)%nat.
Proof.
  unfold slen. revert elem rest.
  induction s as [|c s IH]; intros elem rest H; simpl in H.
  - injection H as _ <-. lia.
  - destruct (filepath.is_sep c).
    + injection H as _ <-. lia.
    + destruct (filepath.component s) as [a b]. injection H as _ <-.
      specialize (IH a b eq_refl). simpl. lia.
Qed.

Lemma Clean_loop_step fuel rooted c p1 out dotdot :
  filepath.Clean_loop (S fuel) rooted (String c p1) out dotdot
  = if filepath.is_sep c then
      filepath.Clean_loop fuel rooted p1 out dotdot
    else if bool_decide (c = "."%char) && filepath.end_or_sep p1 then
      filepath.Clean_loop fuel rooted p1 out dotdot
    else if bool_decide (c = "."%char) && filepath.starts_dot p1
            && filepath.end_or_sep (sdrop 1 p1) then
      let p2 := sdrop 1 p1 in
      if (dotdot <? slen out)%nat then
        let w := filepath.backup out dotdot (slen out - 1) in
        filepath.Clean_loop fuel rooted p2 (stake w out) dotdot
      else if negb rooted then
        let out1 := if (0 <? slen out)%nat then out +:+ "/" else out in
        let out2 := out1 +:+ ".." in
        filepath.Clean_loop fuel rooted p2 out2 (slen out2)
      else
        filepath.Clean_loop fuel rooted p2 out dotdot
    else
      let out1 :=
        if (rooted && negb (slen out =? 1)%nat)
           || (negb rooted && negb (slen out =? 0)%nat)
        then out +:+ "/" else out in
      let '(elem, rest) := filepath.component (String c p1) in
      filepath.Clean_loop fuel rooted rest (out1 +:+ elem) dotdot.
Proof. reflexivity. Qed.

Lemma Clean_loop_fuel rooted fuel : ∀ p out dotdot,
  (slen p ≤ fuel)%nat →
  filepath.Clean_loop (S fuel) rooted p out dotdot
  = filepath.Clean_loop fuel rooted p out dotdot.
Proof.
  induction fuel as [|fuel IH]; intros p out dotdot Hle.
  - destruct p; [reflexivity|]. unfold slen in Hle. simpl in Hle. lia.
  - destruct p as [|c p1]; [reflexivity|].
    assert (H1 : (slen p1 ≤ fuel)%nat)
      by (unfold slen in *; simpl in Hle; lia).
    assert (H2 : (slen (sdrop 1 p1) ≤ fuel)%nat)
      by (rewrite slen_sdrop; lia).
    rewrite (Clean_loop_step (S fuel)), (Clean_loop_step fuel). cbv zeta.
    destruct (filepath.is_sep c) eqn:Hsep; [apply IH, H1|].
    destruct (bool_decide (c = "."%char) && filepath.end_or_sep p1);
      [apply IH, H1|].
    destruct (bool_decide (c = "."%char) && filepath.starts_dot p1
              && filepath.end_or_sep (sdrop 1 p1)).
    + destruct (dotdot <? slen out)%nat; [apply IH, H2|].
      destruct (negb rooted); apply IH, H2.
    + destruct (filepath.component (String c p1)) as [elem rest] eqn:Hc.
      apply IH. simpl in Hc. rewrite Hsep in Hc.
      destruct (filepath.component p1) as [a b] eqn:Hc1.
      injection Hc as _ <-. apply component_shrinks in Hc1. lia.
Qed.

(** ** The decoder: every successful read uses up input *)

Section DecoderProperties.

(** A token read with success uses up at least one lexeme. *)
Lemma Token_loop_shrinks inp : ∀ st stk t dec',
  json.Token_loop inp st stk = (inl t, dec') →
  (length (json.input dec') < length inp)%nat.
Proof.
  induction inp as [|c rest IH]; intros st stk t dec' H; [discriminate|].
  destruct c; destruct st; simpl in H;
    repeat match type of H with
           | context [json.popState ?s] => destruct (json.popState s)
           | context [if ?b then _ else _] => destruct b
           end;
    first [ discriminate
          | injection H as _ <-; simpl; lia
          | apply IH in H; simpl; lia ].
Qed.

Lemma Token_shrinks dec t dec' :
  json.Token_ dec = (inl t, dec') →
  (length (json.input dec') < length (json.input dec))%nat.
Proof. apply Token_loop_shrinks. Qed.

(** A token refused leaves no more input than there was. *)
Lemma Token_loop_failed inp : ∀ st stk err dec',
  json.Token_loop inp st stk = (inr err, dec') →
  (length (json.input dec') ≤ length inp)%nat.
Proof.
  induction inp as [|c rest IH]; intros st stk err dec' H.
  { injection H as _ <-. simpl. lia. }
  destruct c; destruct st; simpl in H;
    repeat match type of H with
           | context [json.popState ?s] => destruct (json.popState s)
           | context [if ?b then _ else _] => destruct b
           end;
    first [ discriminate
          | injection H as _ <-; simpl; lia
          | apply IH in H; simpl; lia ].
Qed.

(** A value, the elements of an array and the members of an object that
    scan well use up at least one lexeme. *)
Lemma scan_shrinks fuel :
  (∀ inp v rest, json.scanValue fuel inp = inl (v, rest) →
                 (length rest < length inp)%nat)
  ∧ (∀ inp vs rest, json.scanElements fuel inp = inl (vs, rest) →
                    (length rest < length inp)%nat)
  ∧ (∀ inp kvs rest, json.scanMembers fuel inp = inl (kvs, rest) →
                     (length rest < length inp)%nat).
Proof.
  induction fuel as [|fuel (IHv & IHe & IHm)];
    [repeat split; intros; discriminate|].
  split; [|split].
  - intros inp v rest H. simpl in H.
    destruct inp as [|[] inp']; try discriminate;
      try (injection H as _ <-; simpl; lia).
    + destruct (json.scanMembers fuel inp') as [[kvs r]|e] eqn:Hm.
      * apply IHm in Hm.
        destruct inp' as [|[] ?]; injection H as _ <-; simpl in *; lia.
      * destruct inp' as [|[] ?]; try discriminate.
        injection H as _ <-; simpl; lia.
    + destruct (json.scanElements fuel inp') as [[vs r]|e] eqn:He.
      * apply IHe in He.
        destruct inp' as [|[] ?]; injection H as _ <-; simpl in *; lia.
      * destruct inp' as [|[] ?]; try discriminate.
        injection H as _ <-; simpl; lia.
  - intros inp vs rest H. simpl in H.
    destruct (json.scanValue fuel inp) as [[v r]|e] eqn:Hv; [|discriminate].
    apply IHv in Hv.
    destruct r as [|[] r']; try discriminate.
    + injection H as _ <-. simpl in *. lia.
    + destruct (json.scanElements fuel r') as [[vs' r'']|e] eqn:He;
        [|discriminate].
      apply IHe in He. injection H as _ <-. simpl in *. lia.
  - intros inp kvs rest H. simpl in H.
    destruct inp as [|[] inp']; try discriminate.
    destruct inp' as [|[] inp'']; try discriminate.
    destruct (json.scanValue fuel inp'') as [[v r]|e] eqn:Hv; [|discriminate].
    apply IHv in Hv.
    destruct r as [|[] r']; try discriminate.
    + injection H as _ <-. simpl in *. lia.
    + destruct (json.scanMembers fuel r') as [[kvs' r'']|e] eqn:Hm;
        [|discriminate].
      apply IHm in Hm. injection H as _ <-. simpl in *. lia.
Qed.

(** An entry decoded with success uses up at least one lexeme. *)
Lemma Decode_shrinks dec entry dec' :
  json.Decode dec = (inl entry, dec') →
  (length (json.input dec') < length (json.input dec))%nat.
Proof.
  unfold json.Decode. intros H.
  assert (Hp : ∀ d, json.tokenPrepareForDecode dec = inl d →
                    (length (json.input d) ≤ length (json.input dec))%nat).
  { unfold json.tokenPrepareForDecode. intros d Hd.
    destruct (json.tokenState dec); try (injection Hd as <-; lia);
      destruct (json.input dec) as [|[] ?]; try discriminate;
      injection Hd as <-; simpl; lia. }
  destruct (json.tokenPrepareForDecode dec) as [d|e]; [|discriminate].
  specialize (Hp d eq_refl).
  destruct (negb _); [discriminate|].
  destruct (json.input d) as [|l inp] eqn:Hin; [discriminate|].
  unfold json.readValue in H.
  destruct (json.scanValue _ _) as [[v rest]|e] eqn:Hv; [|discriminate].
  apply scan_shrinks in Hv.
  destruct (json.unmarshalEntry v zeroEntry) as [en [e|]]; [discriminate|].
  injection H as _ <-. simpl. lia.
Qed.

End DecoderProperties.

(** ** The fuel of the scanner and of the first loop *)

(** More fuel than twice the number of lexemes changes nothing: the error a
    value is refused with comes from the stream, never from the fuel. *)
Lemma scan_fuel fuel :
  (∀ inp, (2 * length inp + 1 ≤ fuel)%nat →
          json.scanValue (S fuel) inp = json.scanValue fuel inp)
  ∧ (∀ inp, (2 * length inp + 2 ≤ fuel)%nat →
            json.scanElements (S fuel) inp = json.scanElements fuel inp)
  ∧ (∀ inp, (2 * length inp ≤ fuel)%nat → (1 ≤ fuel)%nat →
            json.scanMembers (S fuel) inp = json.scanMembers fuel inp).
Proof.
  induction fuel as [|fuel (IHv & IHe & IHm)].
  { repeat split; intros inp H; try lia. }
  split; [|split].
  - intros inp H.
    change (json.scanValue (S (S fuel)) inp)
      with (match inp with
            | LStr s :: rest => inl (JStr s, rest)
            | LNum n :: rest => inl (JNum n, rest)
            | LTrue :: rest => inl (JBool true, rest)
            | LFalse :: rest => inl (JBool false, rest)
            | LNull :: rest => inl (JNull, rest)
            | LBrack :: RBrack :: rest => inl (JArr [], rest)
            | LBrack :: rest =>
                match json.scanElements (S fuel) rest with
                | inl (vs, rest') => inl (JArr vs, rest')
                | inr e => inr e
                end
            | LBrace :: RBrace :: rest => inl (JObj [], rest)
            | LBrace :: rest =>
                match json.scanMembers (S fuel) rest with
                | inl (kvs, rest') => inl (JObj kvs, rest')
                | inr e => inr e
                end
            | _ => inr (json.stuck (head inp))
            end).
    change (json.scanValue (S fuel) inp)
      with (match inp with
            | LStr s :: rest => inl (JStr s, rest)
            | LNum n :: rest => inl (JNum n, rest)
            | LTrue :: rest => inl (JBool true, rest)
            | LFalse :: rest => inl (JBool false, rest)
            | LNull :: rest => inl (JNull, rest)
            | LBrack :: RBrack :: rest => inl (JArr [], rest)
            | LBrack :: rest =>
                match json.scanElements fuel rest with
                | inl (vs, rest') => inl (JArr vs, rest')
                | inr e => inr e
                end
            | LBrace :: RBrace :: rest => inl (JObj [], rest)
            | LBrace :: rest =>
                match json.scanMembers fuel rest with
                | inl (kvs, rest') => inl (JObj kvs, rest')
                | inr e => inr e
                end
            | _ => inr (json.stuck (head inp))
            end).
    destruct inp as [|[] rest]; try reflexivity; simpl in H.
    + rewrite IHm by lia. reflexivity.
    + rewrite IHe by lia. reflexivity.
  - intros inp H.
    change (json.scanElements (S (S fuel)) inp)
      with (match json.scanValue (S fuel) inp with
            | inr e => inr e
            | inl (v, RBrack :: rest) => inl ([v], rest)
            | inl (v, Comma :: rest) =>
                match json.scanElements (S fuel) rest with
                | inl (vs, rest') => inl (v :: vs, rest')
                | inr e => inr e
                end
            | inl (_, rest) => inr (json.stuck (head rest))
            end).
    change (json.scanElements (S fuel) inp)
      with (match json.scanValue fuel inp with
            | inr e => inr e
            | inl (v, RBrack :: rest) => inl ([v], rest)
            | inl (v, Comma :: rest) =>
                match json.scanElements fuel rest with
                | inl (vs, rest') => inl (v :: vs, rest')
                | inr e => inr e
                end
            | inl (_, rest) => inr (json.stuck (head rest))
            end).
    rewrite IHv by lia.
    destruct (json.scanValue fuel inp) as [[v rest]|e] eqn:Hv; [|reflexivity].
    apply scan_shrinks in Hv.
    destruct rest as [|[] rest']; try reflexivity.
    simpl in Hv. rewrite IHe by lia. reflexivity.
  - intros inp H _.
    change (json.scanMembers (S (S fuel)) inp)
      with (match inp with
            | LStr k :: Colon :: rest =>
                match json.scanValue (S fuel) rest with
                | inr e => inr e
                | inl (v, RBrace :: rest') => inl ([(k, v)], rest')
                | inl (v, Comma :: rest') =>
                    match json.scanMembers (S fuel) rest' with
                    | inl (kvs, rest'') => inl ((k, v) :: kvs, rest'')
                    | inr e => inr e
                    end
                | inl (_, rest') => inr (json.stuck (head rest'))
                end
            | LStr _ :: rest => inr (json.stuck (head rest))
            | _ => inr (json.stuck (head inp))
            end).
    change (json.scanMembers (S fuel) inp)
      with (match inp with
            | LStr k :: Colon :: rest =>
                match json.scanValue fuel rest with
                | inr e => inr e
                | inl (v, RBrace :: rest') => inl ([(k, v)], rest')
                | inl (v, Comma :: rest') =>
                    match json.scanMembers fuel rest' with
                    | inl (kvs, rest'') => inl ((k, v) :: kvs, rest'')
                    | inr e => inr e
                    end
                | inl (_, rest') => inr (json.stuck (head rest'))
                end
            | LStr _ :: rest => inr (json.stuck (head rest))
            | _ => inr (json.stuck (head inp))
            end).
    destruct inp as [|[] rest]; try reflexivity.
    destruct rest as [|[] rest]; try reflexivity.
    simpl in H. rewrite IHv by lia.
    destruct (json.scanValue fuel rest) as [[v rest']|e] eqn:Hv; [|reflexivity].
    apply scan_shrinks in Hv.
    destruct rest' as [|[] rest'']; try reflexivity.
    simpl in Hv.
    destruct fuel as [|fuel']; [lia|].
    rewrite IHm by lia. reflexivity.
Qed.

(** [readValue] has fuel enough: any more gives the same. *)
Lemma readValue_fuel inp extra :
  json.scanValue (2 * length inp + 2 + extra) inp = json.readValue inp.
Proof.
  unfold json.readValue. induction extra as [|extra IH].
  - rewrite Nat.add_0_r. reflexivity.
  - rewrite Nat.add_succ_r, (proj1 (scan_fuel _)) by lia. exact IH.
Qed.

(** ** The first loop of [processHar] and the token after it *)

(** A string lexeme where a value may stand is a string token, as a field
    name is. *)
Lemma Token_string_value s rest st stk :
  json.tokenValueAllowed st = true →
  json.Token_ (json.mkDecoder (LStr s :: rest) st stk)
  = (inl (json.TString s),
     json.mkDecoder rest (json.tokenValueEnd st) stk).
Proof. destruct st; intros H; try discriminate; reflexivity. Qed.

Lemma Token_string_key s rest st stk :
  st = json.tokenObjectStart ∨ st = json.tokenObjectKey →
  json.Token_ (json.mkDecoder (LStr s :: rest) st stk)
  = (inl (json.TString s), json.mkDecoder rest json.tokenObjectColon stk).
Proof. intros [-> | ->]; reflexivity. Qed.

(** The loop stops at a string token [entries], whatever the state of the
    decoder: it does not tell a field name from a string value. *)
Lemma scanEntries_stops fuel dec dec' :
  json.Token_ dec = (inl (json.TString "entries"), dec') →
  scanEntries (S fuel) dec = Some (None, dec').
Proof. intros H. simpl. rewrite H. reflexivity. Qed.

Lemma scanEntries_skips fuel dec token dec' :
  json.Token_ dec = (inl token, dec') →
  token ≠ json.TString "entries" →
  scanEntries (S fuel) dec = scanEntries fuel dec'.
Proof.
  intros H Hne. simpl. rewrite H. destruct token as [| s | | |]; try reflexivity.
  unfold seqb. rewrite bool_decide_eq_false_2; [reflexivity|congruence].
Qed.

Lemma scanEntries_fails fuel dec err dec' :
  json.Token_ dec = (inr err, dec') →
  scanEntries (S fuel) dec = Some (Some err, dec').
Proof. intros H. simpl. rewrite H. reflexivity. Qed.

(** The loop stops at a string value [entries]. *)
Lemma scanEntries_stops_at_value fuel rest st stk :
  json.tokenValueAllowed st = true →
  scanEntries (S fuel) (json.mkDecoder (LStr "entries" :: rest) st stk)
  = Some (None, json.mkDecoder rest (json.tokenValueEnd st) stk).
Proof. intros H. apply scanEntries_stops, Token_string_value, H. Qed.

Section TokenAfter.

Context (url_Parse : string → url_URL + error) (sys : Faults).

(** The token after [entries] is read and dropped: whatever it is, when no
    element follows and the next token reads well, [processHar] returns
    count 0 and no error. *)
Lemma processHar_token_unchecked
    reader rootDir rq dryRun verbose allow w dec1 token dec2 token' dec3 :
  scanEntries (S (length reader)) (json.NewDecoder reader) = Some (None, dec1) →
  json.Token_ dec1 = (inl token, dec2) →
  json.More dec2 = false →
  json.Token_ dec2 = (inl token', dec3) →
  processHar url_Parse sys reader rootDir rq dryRun verbose allow w
  = Some (0%nat, None, w).
Proof.
  intros Hscan Ht Hmore Ht'. unfold processHar, processHar_fuel.
  rewrite Hscan, Ht. simpl. rewrite Hmore, Ht'. reflexivity.
Qed.

End TokenAfter.

(** ** [processEntry]: the steps before the file is written *)

Section EntryProperties.

Context (url_Parse : string → url_URL + error) (sys : Faults).

Lemma processEntry_parsed entry rootDir rq dryRun verbose allow w u :
  url_Parse (URL (request entry)) = inl u →
  processEntry url_Parse sys entry rootDir rq dryRun verbose allow w =
  if skipped allow u then (w, None)
  else extractEntry sys entry rootDir dryRun verbose
         (if rq then set_RawQuery u "" else u) w.
Proof. intros Hu. unfold processEntry, skipped. rewrite Hu. reflexivity. Qed.

Lemma processEntry_unparsed entry rootDir rq dryRun verbose allow w err :
  url_Parse (URL (request entry)) = inr err →
  processEntry url_Parse sys entry rootDir rq dryRun verbose allow w =
  (w, Some err).
Proof. intros Hu. unfold processEntry. rewrite Hu. reflexivity. Qed.

(** Nothing after line 129 reads the query. *)
Lemma extractEntry_RawQuery entry rootDir dryRun verbose u q w :
  extractEntry sys entry rootDir dryRun verbose (set_RawQuery u q) w =
  extractEntry sys entry rootDir dryRun verbose u w.
Proof. reflexivity. Qed.

Lemma processEntry_RawQuery entry rootDir dryRun verbose allow w :
  processEntry url_Parse sys entry rootDir true dryRun verbose allow w =
  processEntry url_Parse sys entry rootDir false dryRun verbose allow w.
Proof.
  destruct (url_Parse (URL (request entry))) as [u|err] eqn:Hu.
  - rewrite !(processEntry_parsed _ _ _ _ _ _ _ u) by assumption.
    destruct (skipped allow u); [reflexivity|].
    apply extractEntry_RawQuery.
  - rewrite !(processEntry_unparsed _ _ _ _ _ _ _ err) by assumption.
    reflexivity.
Qed.

Lemma skipped_empty u : skipped ∅ u = false.
Proof. reflexivity. Qed.

Lemma skipped_not_member (allow : gmap string bool) u :
  (0 < size allow)%nat → allow !! Host u = None → skipped allow u = true.
Proof.
  intros Hsize Hnone. unfold skipped, allowed. rewrite Hnone. simpl.
  rewrite andb_true_r. apply Nat.ltb_lt, Hsize.
Qed.

(** A dry run of the steps after the host filter: at most a line on the
    standard output. *)
Lemma extractEntry_dryRun entry rootDir verbose u w :
  extractEntry sys entry rootDir true verbose u w =
  (if verbose
   then fmt_Println w "Processing: " (filePathOf rootDir u) else w, None).
Proof. reflexivity. Qed.

Lemma same_fs_refl w : same_fs w w.
Proof. repeat split. Qed.

Lemma same_fs_trans w1 w2 w3 : same_fs w1 w2 → same_fs w2 w3 → same_fs w1 w3.
Proof. unfold same_fs. intros (?&?&?) (?&?&?). repeat split; congruence. Qed.

Lemma same_fs_Println w a b : same_fs w (fmt_Println w a b).
Proof. repeat split. Qed.

Lemma processEntry_dryRun_fs entry rootDir rq verbose allow w :
  same_fs w
    (fst (processEntry url_Parse sys entry rootDir rq true verbose allow w)).
Proof.
  destruct (url_Parse (URL (request entry))) as [u|err] eqn:Hu.
  - rewrite (processEntry_parsed _ _ _ _ _ _ _ u) by assumption.
    destruct (skipped allow u); [apply same_fs_refl|].
    rewrite extractEntry_dryRun.
    destruct verbose; [apply same_fs_Println|apply same_fs_refl].
  - rewrite (processEntry_unparsed _ _ _ _ _ _ _ err) by assumption.
    apply same_fs_refl.
Qed.

Lemma processEntry_dryRun_result entry rootDir rq verbose allow w :
  snd (processEntry url_Parse sys entry rootDir rq true verbose allow w) =
  match url_Parse (URL (request entry)) with
  | inl _ => None
  | inr err => Some err
  end.
Proof.
  destruct (url_Parse (URL (request entry))) as [u|err] eqn:Hu.
  - rewrite (processEntry_parsed _ _ _ _ _ _ _ u) by assumption.
    destruct (skipped allow u); [reflexivity|].
    rewrite extractEntry_dryRun. reflexivity.
  - rewrite (processEntry_unparsed _ _ _ _ _ _ _ err) by assumption.
    reflexivity.
Qed.

End EntryProperties.

(** ** [processEntry]: writing the file *)

Section WriteProperties.

Context (sys : Faults).

Lemma files_MkdirAll w path :
  files (fst (os.MkdirAll sys w path)) = files w.
Proof.
  unfold os.MkdirAll.
  destruct (mkdirall_fault sys w path) as [[k e]|]; reflexivity.
Qed.

Lemma dirs_MkdirAll w path w' :
  os.MkdirAll sys w path = (w', None) → path ∈ dirs w' ∧ dirs w ⊆ dirs w'.
Proof.
  unfold os.MkdirAll. destruct (mkdirall_fault sys w path) as [[k e]|];
    [discriminate|].
  intros [= <-]. simpl. unfold os.chain. split; [|set_solver].
  apply elem_of_union_r, elem_of_list_to_set, elem_of_app. right.
  apply list_elem_of_singleton. reflexivity.
Qed.

Lemma Create_ok w name w' file :
  os.Create sys w name = (w', inl file) →
  file = name ∧ files w' = <[name := ""]> (files w) ∧ dirs w' = dirs w
  ∧ stdout w' = stdout w.
Proof.
  unfold os.Create. destruct (create_fault sys w name); [discriminate|].
  intros [= <- <-]. repeat split.
Qed.

Lemma Create_failed w name w' err :
  os.Create sys w name = (w', inr err) → w' = w.
Proof.
  unfold os.Create. destruct (create_fault sys w name); [|discriminate].
  intros [= <- _]. reflexivity.
Qed.

Lemma Close_keeps w file :
  files (fst (os.Close sys w file)) = files w
  ∧ dirs (fst (os.Close sys w file)) = dirs w
  ∧ stdout (fst (os.Close sys w file)) = stdout w.
Proof. unfold os.Close. destruct (bool_decide _); repeat split. Qed.

Lemma Write_ok w file data w' :
  os.Write sys w file data = (w', None) →
  files w' = <[file := default "" (files w !! file) +:+ data]> (files w)
  ∧ dirs w' = dirs w ∧ stdout w' = stdout w.
Proof.
  unfold os.Write. destruct (write_fault sys w file data) as [[n e]|];
    [discriminate|].
  intros [= <-]. repeat split.
Qed.

(** The deferred [file.Close()] releases the handle on every way out. *)
Lemma writeContent_closes entry file w :
  file ∉ opened (fst (writeContent sys entry file w)).
Proof.
  unfold writeContent.
  destruct (if seqb _ _ then _ else _) as [w1 err].
  destruct (match err with None => _ | Some _ => _ end) as [w2 err2].
  simpl. unfold os.Close. destruct (bool_decide (file ∈ opened w2)) eqn:Hin.
  - simpl. apply not_elem_of_difference. right. apply elem_of_singleton.
    reflexivity.
  - simpl. apply bool_decide_eq_false in Hin. exact Hin.
Qed.

(** A decoding error leaves the world as the creation of the file left it,
    up to the released handle. *)
Lemma writeContent_corrupt entry file w data err :
  Encoding (content (response entry)) = "base64" →
  base64.DecodeString (Text (content (response entry))) = (data, Some err) →
  snd (writeContent sys entry file w) = Some err
  ∧ files (fst (writeContent sys entry file w)) = files w
  ∧ dirs (fst (writeContent sys entry file w)) = dirs w.
Proof.
  intros Henc Hdec. unfold writeContent. rewrite Henc, Hdec. simpl.
  pose proof (Close_keeps w file) as (? & ? & ?). repeat split; assumption.
Qed.

(** A successful write: the file holds what it held before followed by
    the payload, nothing else changes in the file system. *)
Lemma writeContent_ok entry file w w' :
  writeContent sys entry file w = (w', None) →
  ∃ data,
    payload entry = Some data
    ∧ files w' = <[file := default "" (files w !! file) +:+ data]> (files w)
    ∧ dirs w' = dirs w ∧ stdout w' = stdout w.
Proof.
  unfold writeContent, payload. intros H.
  destruct (seqb _ _).
  - destruct (base64.DecodeString _) as [data [e|]].
    + simpl in H. injection H as _ H. discriminate.
    + destruct (os.Write sys w file data) as [w1 [e|]] eqn:Hw.
      * simpl in H. injection H as _ H. discriminate.
      * apply Write_ok in Hw as (Hf & Hd & Hs).
        destruct (os.Close sys w1 file) as [w2 err] eqn:Hc.
        injection H as <- ->.
        pose proof (Close_keeps w1 file) as (Hf1 & Hd1 & Hs1).
        pose proof (Close_keeps w2 file) as (Hf2 & Hd2 & Hs2).
        rewrite Hc in Hf1, Hd1, Hs1. simpl in *.
        exists data. repeat split; congruence.
  - destruct (os.Write sys w file _) as [w1 [e|]] eqn:Hw.
    + simpl in H. injection H as _ H. discriminate.
    + apply Write_ok in Hw as (Hf & Hd & Hs).
      destruct (os.Close sys w1 file) as [w2 err] eqn:Hc.
      injection H as <- ->.
      pose proof (Close_keeps w1 file) as (Hf1 & Hd1 & Hs1).
      pose proof (Close_keeps w2 file) as (Hf2 & Hd2 & Hs2).
      rewrite Hc in Hf1, Hd1, Hs1. simpl in *.
      eexists. repeat split; congruence.
Qed.

(** The steps of a run that is not dry, one after the other. *)
Lemma extractEntry_run entry rootDir verbose u w :
  extractEntry sys entry rootDir false verbose u w =
  match os.MkdirAll sys w (dirPathOf rootDir u) with
  | (w1, Some err) => (w1, Some err)
  | (w1, None) =>
      match os.Create sys
              (if verbose
               then fmt_Println w1 "Processing: " (filePathOf rootDir u)
               else w1)
              (filePathOf rootDir u) with
      | (w3, inr err) => (w3, Some err)
      | (w3, inl file) => writeContent sys entry file w3
      end
  end.
Proof.
  unfold extractEntry, dirPathOf, filePathOf. simpl.
  destruct (os.MkdirAll _ _ _) as [w1 [e|]]; reflexivity.
Qed.

(** A run that is not dry and ends well has made the directory and put
    the payload of the entry into the file at [filePathOf]; no other file
    is touched. *)
Lemma extractEntry_ok entry rootDir verbose u w w' :
  extractEntry sys entry rootDir false verbose u w = (w', None) →
  ∃ data,
    payload entry = Some data
    ∧ files w' = <[filePathOf rootDir u := data]> (files w)
    ∧ dirPathOf rootDir u ∈ dirs w'.
Proof.
  rewrite extractEntry_run. intros H.
  destruct (os.MkdirAll sys w (dirPathOf rootDir u)) as [w1 [e|]] eqn:Hm;
    [discriminate|].
  pose proof (files_MkdirAll w (dirPathOf rootDir u)) as Hf1.
  rewrite Hm in Hf1. simpl in Hf1.
  apply dirs_MkdirAll in Hm as (Hin & _).
  destruct (os.Create _ _ _) as [w3 [file|e]] eqn:Hc; [|discriminate].
  apply Create_ok in Hc as (-> & Hf3 & Hd3 & _).
  apply writeContent_ok in H as (data & Hp & Hf & Hd & _).
  exists data. split; [assumption|]. split.
  - rewrite Hf, Hf3, lookup_insert_eq. simpl. rewrite insert_insert_eq.
    destruct verbose; simpl; rewrite Hf1; reflexivity.
  - rewrite Hd, Hd3. destruct verbose; exact Hin.
Qed.

End WriteProperties.

(** ** [processEntry]: a successful run *)

Lemma DecodeString_error_kind s data err :
  base64.DecodeString s = (data, Some err) →
  ∃ off, err = base64_CorruptInputError off.
Proof.
  unfold base64.DecodeString. generalize (slen s) as fuel.
  generalize 0%nat as si. generalize EmptyString as dst. revert s.
  intros s dst si fuel. revert s dst si.
  induction fuel as [|fuel IH]; intros s dst si H; [discriminate|].
  simpl in H. destruct s as [|c s']; [discriminate|].
  destruct (base64.readQuantum _ _ _ _) as [|off|dlen dbuf rest si' e];
    [discriminate|injection H as _ <-; eauto|].
  destruct e as [off|]; [injection H as _ <-; eauto|].
  eapply IH, H.
Qed.

Section EntrySuccess.

Context (url_Parse : string → url_URL + error) (sys : Faults).

(** An entry that is parsed, not left out and processed with success in
    a run that is not dry: its payload is in the file at [filePathOf]. *)
Lemma processEntry_ok entry rootDir rq verbose allow w u w' :
  url_Parse (URL (request entry)) = inl u →
  skipped allow u = false →
  processEntry url_Parse sys entry rootDir rq false verbose allow w
  = (w', None) →
  ∃ data,
    payload entry = Some data
    ∧ files w' = <[filePathOf rootDir u := data]> (files w)
    ∧ dirPathOf rootDir u ∈ dirs w'.
Proof.
  intros Hu Hs. rewrite (processEntry_parsed _ _ _ _ _ _ _ _ _ u Hu), Hs.
  intros H. apply (extractEntry_ok sys entry rootDir verbose u w w').
  destruct rq; exact H.
Qed.

End EntrySuccess.

(** ** [processHar]: the loops end, and what they return *)

Section HarProperties.

Context (url_Parse : string → url_URL + error) (sys : Faults).

(** The first loop returns when its fuel is more than the lexemes left. *)
Lemma scanEntries_fuel fuel : ∀ dec,
  (length (json.input dec) < fuel)%nat →
  ∃ err dec', scanEntries fuel dec = Some (err, dec')
              ∧ (length (json.input dec') ≤ length (json.input dec))%nat.
Proof.
  induction fuel as [|fuel IH]; intros dec Hlt; [lia|].
  simpl. destruct (json.Token_ dec) as [[t|e] dec1] eqn:Ht.
  - pose proof (Token_shrinks _ _ _ Ht) as Hs.
    assert (Hrec : ∃ err dec', scanEntries fuel dec1 = Some (err, dec')
              ∧ (length (json.input dec') ≤ length (json.input dec))%nat).
    { destruct (IH dec1) as (err & dec' & -> & Hle); [lia|].
      exists err, dec'. split; [reflexivity|lia]. }
    destruct t; try exact Hrec.
    destruct (seqb s "entries"); [|exact Hrec].
    exists None, dec1. split; [reflexivity|lia].
  - exists (Some e), dec1. split; [reflexivity|].
    eapply Token_loop_failed, Ht.
Qed.

(** So does the second loop. *)
Lemma entriesLoop_fuel rootDir rq dryRun verbose allow fuel : ∀ dec count w,
  (length (json.input dec) < fuel)%nat →
  is_Some (entriesLoop url_Parse sys fuel dec rootDir rq dryRun verbose allow
             count w).
Proof.
  induction fuel as [|fuel IH]; intros dec count w Hlt; [lia|].
  simpl. destruct (json.More dec); [|eauto].
  destruct (json.Decode dec) as [[entry|e] dec1] eqn:Hd; [|eauto].
  apply Decode_shrinks in Hd.
  destruct (processEntry _ _ _ _ _ _ _ _ _) as [w' [e|]]; [eauto|].
  apply IH. lia.
Qed.

(** [processHar] returns on every stream. *)
Lemma processHar_returns reader rootDir rq dryRun verbose allow w :
  is_Some (processHar url_Parse sys reader rootDir rq dryRun verbose allow w).
Proof.
  unfold processHar, processHar_fuel.
  destruct (scanEntries_fuel (S (length reader)) (json.NewDecoder reader))
    as (err & dec & -> & Hle); [simpl; lia|].
  simpl in Hle.
  destruct err as [e|]; [eauto|].
  destruct (json.Token_ dec) as [[t|e] dec1] eqn:Ht; [|eauto].
  apply Token_shrinks in Ht.
  destruct (entriesLoop_fuel rootDir rq dryRun verbose allow
              (S (length reader)) dec1 0%nat w) as [[[[n err] d] w'] ->];
    [lia|].
  destruct err; [eauto|].
  destruct (json.Token_ d) as [[?|?] ?]; eauto.
Qed.

(** The option to remove the query string changes nothing. *)
Lemma entriesLoop_RawQuery rootDir dryRun verbose allow fuel : ∀ dec count w,
  entriesLoop url_Parse sys fuel dec rootDir true dryRun verbose allow count w
  = entriesLoop url_Parse sys fuel dec rootDir false dryRun verbose allow
      count w.
Proof.
  induction fuel as [|fuel IH]; intros dec count w; [reflexivity|].
  simpl. destruct (json.More dec); [|reflexivity].
  destruct (json.Decode dec) as [[entry|e] dec1]; [|reflexivity].
  rewrite processEntry_RawQuery.
  destruct (processEntry _ _ _ _ _ _ _ _ _) as [w' [e|]]; [reflexivity|].
  apply IH.
Qed.

Lemma processHar_RawQuery reader rootDir dryRun verbose allow w :
  processHar url_Parse sys reader rootDir true dryRun verbose allow w =
  processHar url_Parse sys reader rootDir false dryRun verbose allow w.
Proof.
  unfold processHar, processHar_fuel.
  destruct (scanEntries _ _) as [[[e|] dec]|]; try reflexivity.
  destruct (json.Token_ dec) as [[t|e] dec1]; [|reflexivity].
  rewrite entriesLoop_RawQuery. reflexivity.
Qed.

(** A dry run leaves the file system as it is. *)
Lemma entriesLoop_dryRun rootDir rq verbose allow fuel :
  ∀ dec count w n err dec' w',
  entriesLoop url_Parse sys fuel dec rootDir rq true verbose allow count w
  = Some (n, err, dec', w') →
  same_fs w w'.
Proof.
  induction fuel as [|fuel IH]; intros dec count w n err dec' w' H;
    [discriminate|].
  simpl in H. destruct (json.More dec).
  - destruct (json.Decode dec) as [[entry|e] dec1].
    + pose proof (processEntry_dryRun_fs url_Parse sys entry rootDir rq
                    verbose allow w) as Hfs.
      destruct (processEntry _ _ _ _ _ _ _ _ _) as [w1 [e|]]; simpl in Hfs.
      * injection H as _ _ _ <-. exact Hfs.
      * eapply same_fs_trans; [exact Hfs|]. eapply IH, H.
    + injection H as _ _ _ <-. apply same_fs_refl.
  - injection H as _ _ _ <-. apply same_fs_refl.
Qed.

Lemma processHar_dryRun reader rootDir rq verbose allow w n err w' :
  processHar url_Parse sys reader rootDir rq true verbose allow w
  = Some (n, err, w') →
  same_fs w w'.
Proof.
  unfold processHar, processHar_fuel. intros H.
  destruct (scanEntries _ _) as [[[e|] dec]|]; try discriminate.
  { injection H as _ _ <-. apply same_fs_refl. }
  destruct (json.Token_ dec) as [[t|e] dec1].
  2:{ injection H as _ _ <-. apply same_fs_refl. }
  destruct (entriesLoop _ _ _ _ _ _ _ _ _ _ _) as [[[[n1 err1] d] w1]|] eqn:Hl;
    [|discriminate].
  apply entriesLoop_dryRun in Hl.
  destruct err1.
  - injection H as _ _ <-. exact Hl.
  - destruct (json.Token_ d) as [[?|?] ?]; injection H as _ _ <-; exact Hl.
Qed.

End HarProperties.

Section SecondLoop.

Context (url_Parse : string → url_URL + error) (sys : Faults).
Context (rootDir : string) (rq dryRun verbose : bool)
        (allow : gmap string bool).

(** What the second loop returns: the entries decoded and processed with
    success are counted, and the loop ends at the first entry that cannot
    be decoded or processed, or when [More] says there is none left. *)
Lemma entriesLoop_spec fuel : ∀ dec count w n err dec' w',
  entriesLoop url_Parse sys fuel dec rootDir rq dryRun verbose allow count w
  = Some (n, err, dec', w') →
  ∃ es dec1 wmid,
    Decoded dec es dec1
    ∧ runEntries url_Parse sys es rootDir rq dryRun verbose allow w
      = Some wmid
    ∧ n = (count + length es)%nat
    ∧ match err with
      | None => json.More dec1 = false ∧ dec' = dec1 ∧ w' = wmid
      | Some e =>
          json.More dec1 = true
          ∧ ((json.Decode dec1 = (inr e, dec') ∧ w' = wmid)
             ∨ ∃ entry,
                 json.Decode dec1 = (inl entry, dec')
                 ∧ processEntry url_Parse sys entry rootDir rq dryRun
                     verbose allow wmid = (w', Some e))
      end.
Proof.
  induction fuel as [|fuel IH]; intros dec count w n err dec' w' H;
    [discriminate|].
  simpl in H. destruct (json.More dec) eqn:Hmore.
  - destruct (json.Decode dec) as [[entry|e] dec1] eqn:Hdec.
    + destruct (processEntry url_Parse sys entry rootDir rq dryRun verbose
                  allow w) as [w1 [e|]] eqn:Hp.
      * injection H as <- <- <- <-.
        exists [], dec, w. simpl. repeat split; [constructor|lia|assumption|].
        right. exists entry. split; assumption.
      * apply IH in H as (es & dec2 & wmid & Hd & Hr & Hn & Herr).
        exists (entry :: es), dec2, wmid. simpl. rewrite Hp.
        repeat split; [econstructor; eassumption|assumption|lia|assumption].
    + injection H as <- <- <- <-.
      exists [], dec, w. simpl. repeat split; [constructor|lia|assumption|].
      left. split; [assumption|reflexivity].
  - injection H as <- <- <- <-.
    exists [], dec, w. simpl. repeat split; [constructor|lia|assumption].
Qed.

End SecondLoop.

(** * The claims *)

(** ** On every platform *)

Section Claims.

Context (url_Parse : string → url_URL + error) (sys : Faults).

(** **** Claim C1 (amended)
    For an entry whose URL parses and that is not left out, the file path
    is the destination directory joined with the sanitized whole path of
    the URL (not its base name):
    [<root>/<host>/<dir-of-path>/<sanitized-path>]; the sanitized path has
    no slash and no backslash, and on an ASCII path it is the path with
    every slash and backslash replaced by a hyphen.  It is the path of the
    only file a successful run touches, and the path a verbose dry run
    prints. *)
Theorem filePath_sanitizes_whole_path
    entry rootDir rq verbose allow w u :
  url_Parse (URL (request entry)) = inl u →
  skipped allow u = false →
  filePathOf rootDir u
  = filepath.Join
      [filepath.Join [rootDir; Host u; filepath.Dir (Path u)];
       safeFileName (Path u)]
  ∧ has_slash (safeFileName (Path u)) = false
  ∧ (is_ascii (Path u) = true → safeFileName (Path u) = hyphenate (Path u))
  ∧ (∀ w',
       processEntry url_Parse sys entry rootDir rq false verbose allow w
       = (w', None) →
       ∃ data, files w' = <[filePathOf rootDir u := data]> (files w))
  ∧ stdout
      (fst (processEntry url_Parse sys entry rootDir rq true true allow w))
    = stdout w ++ [processing_line (filePathOf rootDir u)].
Proof.
  intros Hu Hs. split; [reflexivity|].
  split; [apply safeFileName_no_slash|].
  split; [apply safeFileName_ascii|]. split.
  - intros w' H.
    destruct (processEntry_ok _ _ _ _ _ _ _ _ _ _ Hu Hs H)
      as (data & _ & Hf & _).
    exists data. exact Hf.
  - rewrite (processEntry_parsed _ _ _ _ _ _ _ _ _ u Hu), Hs.
    rewrite extractEntry_dryRun. destruct rq; reflexivity.
Qed.

(** **** Claim C4
    The option to remove the query string has no effect: the directory
    and the file path computed from a URL do not depend on its query, and
    [processEntry] and [processHar] return the same result and the same
    world with the option on and off. *)
Theorem remove_query_string_no_effect
    entry reader rootDir dryRun verbose allow w u q :
  dirPathOf rootDir (set_RawQuery u q) = dirPathOf rootDir u
  ∧ filePathOf rootDir (set_RawQuery u q) = filePathOf rootDir u
  ∧ processEntry url_Parse sys entry rootDir true dryRun verbose allow w
    = processEntry url_Parse sys entry rootDir false dryRun verbose allow w
  ∧ processHar url_Parse sys reader rootDir true dryRun verbose allow w
    = processHar url_Parse sys reader rootDir false dryRun verbose allow w.
Proof.
  split; [reflexivity|]. split; [reflexivity|]. split.
  - apply processEntry_RawQuery.
  - apply processHar_RawQuery.
Qed.

(** **** Claim C5
    For an entry whose URL parses: when the allowlist is not empty and the
    host of the URL is not in it, [processEntry] returns no error and the
    world as it was (no directory, no file, no line of output); when the
    allowlist is empty the entry is not left out: [processEntry] goes on
    with the steps after the filter. *)
Theorem host_filter_skips_silently
    entry rootDir rq dryRun verbose (allow : gmap string bool) w u :
  url_Parse (URL (request entry)) = inl u →
  ((0 < size allow)%nat → allow !! Host u = None →
   processEntry url_Parse sys entry rootDir rq dryRun verbose allow w
   = (w, None))
  ∧ processEntry url_Parse sys entry rootDir rq dryRun verbose ∅ w
    = extractEntry sys entry rootDir dryRun verbose u w.
Proof.
  intros Hu. split.
  - intros Hsize Hnone.
    rewrite (processEntry_parsed _ _ _ _ _ _ _ _ _ u Hu).
    rewrite skipped_not_member by assumption. reflexivity.
  - rewrite (processEntry_parsed _ _ _ _ _ _ _ _ _ u Hu), skipped_empty.
    destruct rq; reflexivity.
Qed.

(** **** Claim C6
    A dry run writes nothing: [processEntry] leaves the directories, the
    files and the open handles as they were, for every entry, and returns
    no error unless the URL of the entry does not parse; and so does a
    whole run of [processHar], which returns on every stream. *)
Theorem dry_run_writes_nothing entry reader rootDir rq verbose allow w :
  same_fs w
    (fst (processEntry url_Parse sys entry rootDir rq true verbose allow w))
  ∧ snd (processEntry url_Parse sys entry rootDir rq true verbose allow w)
    = match url_Parse (URL (request entry)) with
      | inl _ => None
      | inr err => Some err
      end
  ∧ ∃ count err w',
      processHar url_Parse sys reader rootDir rq true verbose allow w
      = Some (count, err, w')
      ∧ same_fs w w'.
Proof.
  split; [apply processEntry_dryRun_fs|].
  split; [apply processEntry_dryRun_result|].
  destruct (processHar_returns url_Parse sys reader rootDir rq true verbose
              allow w) as [[[count err] w'] H].
  exists count, err, w'. split; [exact H|].
  eapply processHar_dryRun, H.
Qed.

(** **** Claim C7
    An entry marked [base64] whose text does not decode, in a run that is
    not dry, once its directory and its file are created: [processEntry]
    returns the error of the decoder, a [CorruptInputError]; the file
    stays, empty, and the directory stays. *)
Theorem bad_base64_leaves_file
    entry rootDir rq (verbose : bool) allow w u w1 w3 file data err :
  url_Parse (URL (request entry)) = inl u →
  skipped allow u = false →
  os.MkdirAll sys w (dirPathOf rootDir u) = (w1, None) →
  os.Create sys
    (if verbose then fmt_Println w1 "Processing: " (filePathOf rootDir u)
     else w1)
    (filePathOf rootDir u) = (w3, inl file) →
  Encoding (content (response entry)) = "base64" →
  base64.DecodeString (Text (content (response entry))) = (data, Some err) →
  ∃ w',
    processEntry url_Parse sys entry rootDir rq false verbose allow w
    = (w', Some err)
    ∧ (∃ off, err = base64_CorruptInputError off)
    ∧ files w' = <[filePathOf rootDir u := ""]> (files w)
    ∧ dirPathOf rootDir u ∈ dirs w'.
Proof.
  intros Hu Hs Hm Hc Henc Hdec.
  rewrite (processEntry_parsed _ _ _ _ _ _ _ _ _ u Hu), Hs.
  assert (He : extractEntry sys entry rootDir false verbose
                 (if rq then set_RawQuery u "" else u) w
               = extractEntry sys entry rootDir false verbose u w)
    by (destruct rq; reflexivity).
  rewrite He, extractEntry_run, Hm, Hc.
  destruct (writeContent_corrupt sys entry file w3 data err Henc Hdec)
    as (Herr & Hf & Hd).
  destruct (writeContent sys entry file w3) as [w' e]. simpl in *. subst e.
  exists w'. split; [reflexivity|].
  split; [eapply DecodeString_error_kind, Hdec|].
  pose proof (files_MkdirAll sys w (dirPathOf rootDir u)) as Hf1.
  rewrite Hm in Hf1. simpl in Hf1.
  apply dirs_MkdirAll in Hm as (Hin & _).
  apply Create_ok in Hc as (_ & Hf3 & Hd3 & _).
  split.
  - rewrite Hf, Hf3. destruct verbose; simpl; rewrite Hf1; reflexivity.
  - rewrite Hd, Hd3. destruct verbose; exact Hin.
Qed.

(** **** Claim C8
    The first error met while a file is processed ends the processing of
    that file at once: a failure of the scan for [entries] or of the token
    after it is returned with count 0 and the world untouched; otherwise
    the count returned with the error is the number of entries decoded
    and processed with success before it, the entry after them is the one
    that failed to decode or to be processed (or the array could not be
    closed), and the world returned is the one that failure left:
    nothing is decoded or processed after it. *)
Theorem first_error_stops_processing
    rootDir rq dryRun verbose allow reader w count err w' :
  processHar url_Parse sys reader rootDir rq dryRun verbose allow w
  = Some (count, Some err, w') →
  (* the error comes before any entry is decoded *)
  (count = 0%nat ∧ w' = w
   ∧ ∃ dec,
       scanEntries (S (length reader)) (json.NewDecoder reader)
       = Some (Some err, dec)
       ∨ ∃ dec1,
           scanEntries (S (length reader)) (json.NewDecoder reader)
           = Some (None, dec1)
           ∧ json.Token_ dec1 = (inr err, dec))
  ∨
  (* the error comes after [count] entries *)
  (∃ dec1 token dec2 es dec3 wmid,
     scanEntries (S (length reader)) (json.NewDecoder reader)
     = Some (None, dec1)
     ∧ json.Token_ dec1 = (inl token, dec2)
     ∧ Decoded dec2 es dec3
     ∧ runEntries url_Parse sys es rootDir rq dryRun verbose allow w
       = Some wmid
     ∧ count = length es
     ∧ ((json.More dec3 = true
         ∧ ∃ d, json.Decode dec3 = (inr err, d) ∧ w' = wmid)
        ∨ (json.More dec3 = true
           ∧ ∃ entry d,
               json.Decode dec3 = (inl entry, d)
               ∧ processEntry url_Parse sys entry rootDir rq dryRun
                   verbose allow wmid = (w', Some err))
        ∨ (json.More dec3 = false
           ∧ ∃ d, json.Token_ dec3 = (inr err, d) ∧ w' = wmid))).
Proof.
  unfold processHar, processHar_fuel. intros H.
  destruct (scanEntries _ _) as [[[e|] dec1]|] eqn:Hscan; try discriminate.
  { injection H as <- <- <-. left. repeat split. exists dec1. left.
    reflexivity. }
  destruct (json.Token_ dec1) as [[token|e] dec2] eqn:Htok.
  2:{ injection H as <- <- <-. left. repeat split. exists dec2. right.
      exists dec1. split; [reflexivity|assumption]. }
  destruct (entriesLoop _ _ _ _ _ _ _ _ _ _ _) as [[[[n1 err1] d] w1]|] eqn:Hl;
    [|discriminate].
  apply entriesLoop_spec in Hl as (es & dec3 & wmid & Hd & Hr & Hn & Herr).
  right. exists dec1, token, dec2, es, dec3, wmid.
  destruct err1 as [e|].
  - injection H as <- <- <-.
    destruct Herr as (Hmore & [(Hdec & ->)|(entry & Hdec & Hp)]).
    + repeat split; try assumption. left. split; [assumption|].
      exists d. split; [assumption|reflexivity].
    + repeat split; try assumption. right. left. split; [assumption|].
      exists entry, d. split; assumption.
  - destruct Herr as (Hmore & -> & ->).
    destruct (json.Token_ dec3) as [[?|e] d'] eqn:Hclose; [discriminate|].
    injection H as <- <- <-.
    repeat split; try assumption. right. right. split; [assumption|].
    exists d'. split; reflexivity.
Qed.

(** **** Claim C9 (amended)
    An entry marked [base64] whose text is what the standard encoder
    writes for some bytes (padded, without line breaks, the unused bits
    zero), processed with success in a run that is not dry: the file holds
    those bytes, and encoding the bytes of the file gives the text back. *)
Theorem base64_roundtrip_canonical
    entry rootDir rq verbose allow w u w' src :
  url_Parse (URL (request entry)) = inl u →
  skipped allow u = false →
  Encoding (content (response entry)) = "base64" →
  Text (content (response entry)) = base64.EncodeToString src →
  processEntry url_Parse sys entry rootDir rq false verbose allow w
  = (w', None) →
  ∃ data,
    files w' !! filePathOf rootDir u = Some data
    ∧ base64.EncodeToString data = Text (content (response entry)).
Proof.
  intros Hu Hs Henc Htext H.
  destruct (processEntry_ok _ _ _ _ _ _ _ _ _ _ Hu Hs H)
    as (data & Hp & Hf & _).
  unfold payload, seqb in Hp.
  rewrite bool_decide_eq_true_2 in Hp by exact Henc.
  rewrite Htext, DecodeString_EncodeToString in Hp. injection Hp as <-.
  exists src. split; [rewrite Hf; apply lookup_insert_eq|].
  symmetry. exact Htext.
Qed.

(** **** Claim C10
    An entry whose encoding is not [base64] (empty when the marker is
    absent), processed with success in a run that is not dry: the file at
    its path holds the bytes of the text, as they are. *)
Theorem plain_text_written_verbatim
    entry rootDir rq verbose allow w u w' :
  url_Parse (URL (request entry)) = inl u →
  skipped allow u = false →
  Encoding (content (response entry)) ≠ "base64" →
  processEntry url_Parse sys entry rootDir rq false verbose allow w
  = (w', None) →
  files w' !! filePathOf rootDir u = Some (Text (content (response entry)))
  ∧ files w'
    = <[filePathOf rootDir u := Text (content (response entry))]> (files w).
Proof.
  intros Hu Hs Henc H.
  destruct (processEntry_ok _ _ _ _ _ _ _ _ _ _ Hu Hs H)
    as (data & Hp & Hf & _).
  unfold payload, seqb in Hp.
  rewrite bool_decide_eq_false_2 in Hp by exact Henc.
  injection Hp as <-. rewrite Hf. split; [apply lookup_insert_eq|reflexivity].
Qed.

End Claims.

(** ** On the sample platform *)

(** The path the specification describes is not the path of the file:
    for the URL path [/a/b.js] below [out] the file is
    [out/example.com/a/-a-b.js], and nothing is written at
    [out/example.com/a/b.js]. *)
Lemma filePath_not_basename :
  let entry := Sample.entry "http://example.com/a/b.js" "hi" "" in
  let r := processEntry Sample.parse Sample.plainfs entry "out" false false
             false ∅ Sample.w0 in
  Sample.parse (URL (request entry)) = inl Sample.u_ab
  ∧ claimed_filePath "out" Sample.u_ab = "out/example.com/a/b.js"
  ∧ snd r = None
  ∧ files (fst r) !! claimed_filePath "out" Sample.u_ab = None
  ∧ files (fst r) !! "out/example.com/a/-a-b.js" = Some "hi".
Proof. vm_compute. repeat split. Qed.

Lemma filePath_sanitizes_whole_path_witness :
  filePathOf "out" Sample.u_ab = "out/example.com/a/-a-b.js"
  ∧ has_slash (safeFileName (Path Sample.u_ab)) = false
  ∧ stdout
      (fst (processEntry Sample.parse Sample.plainfs
              (Sample.entry "http://example.com/a/b.js" "hi" "") "out" false
              true true ∅ Sample.w0))
    = [processing_line "out/example.com/a/-a-b.js"].
Proof.
  destruct (filePath_sanitizes_whole_path Sample.parse Sample.plainfs
              (Sample.entry "http://example.com/a/b.js" "hi" "") "out" false
              false ∅ Sample.w0 Sample.u_ab)
    as (Hpath & Hslash & _ & _ & Hout).
  - vm_compute. reflexivity.
  - vm_compute. reflexivity.
  - split; [vm_compute; reflexivity|]. split; [exact Hslash|].
    rewrite Hout. vm_compute. reflexivity.
Defined.

(** **** Claim C2 (the code at the failing input)
    In the capture [{"log":{"comment":"entries","entries":[ entry ]}}] the
    scan stops at the value of the comment, a string token that is no field
    name: the decoder is then after a value of the object, the field name
    [entries] is read as the token after, and its array is decoded as if it
    were an entry, which fails.  Without the comment the entry is
    processed. *)
Theorem scan_stops_at_string_value :
  (∃ dec,
     scanEntries (S (length Sample.har_comment))
       (json.NewDecoder Sample.har_comment) = Some (None, dec)
     ∧ json.tokenState dec = json.tokenObjectComma
     ∧ head (json.input dec) = Some Comma
     ∧ fst (json.Token_ dec) = inl (json.TString "entries"))
  ∧ processHar Sample.parse Sample.plainfs Sample.har_comment "out" false
      false false ∅ Sample.w0
    = Some (0%nat, Some (json_UnmarshalTypeError "array"), Sample.w0)
  ∧ ∃ w',
      processHar Sample.parse Sample.plainfs
        (Sample.har (Sample.entry_lexemes "http://example.com/a/b.js" "hi"))
        "out" false false false ∅ Sample.w0
      = Some (1%nat, None, w')
      ∧ files w' !! "out/example.com/a/-a-b.js" = Some "hi".
Proof.
  split; [|split].
  - eexists. split; [vm_compute; reflexivity|]. vm_compute. repeat split.
  - vm_compute. reflexivity.
  - eexists. split; [vm_compute; reflexivity|]. vm_compute. reflexivity.
Qed.

(** **** Claim C3 (the code at the failing input)
    In the capture [{"log":{"entries":"none"}}] the token after the field
    name is a string, not the opening bracket of an array: it is read and
    dropped, no entry follows, the closing brace is read as the end of the
    array, and [processHar] returns count 0 and no error. *)
Theorem non_array_entries_accepted :
  (∃ dec,
     scanEntries (S (length Sample.har_string))
       (json.NewDecoder Sample.har_string) = Some (None, dec)
     ∧ fst (json.Token_ dec) = inl (json.TString "none"))
  ∧ processHar Sample.parse Sample.plainfs Sample.har_string "out" false
      false false ∅ Sample.w0
    = Some (0%nat, None, Sample.w0).
Proof.
  split.
  - eexists. split; [vm_compute; reflexivity|]. vm_compute. reflexivity.
  - vm_compute. reflexivity.
Qed.

Lemma host_filter_skips_silently_witness :
  processEntry Sample.parse Sample.plainfs
    (Sample.entry "http://example.org/a/b.js" "hi" "") "out" false false true
    {[ "example.com" := true ]} Sample.w0
  = (Sample.w0, None).
Proof.
  refine (proj1 (host_filter_skips_silently Sample.parse Sample.plainfs
                   (Sample.entry "http://example.org/a/b.js" "hi" "") "out"
                   false false true {[ "example.com" := true ]} Sample.w0
                   (mkURL "http" "example.org" "/a/b.js" "" "") _) _ _).
  - vm_compute. reflexivity.
  - vm_compute. lia.
  - vm_compute. reflexivity.
Defined.

Lemma bad_base64_leaves_file_witness :
  ∃ w',
    processEntry Sample.parse Sample.plainfs
      (Sample.entry "http://example.com/a/b.js" "!!!!" "base64") "out" false
      false false ∅ Sample.w0
    = (w', Some (base64_CorruptInputError 0))
    ∧ (∃ off, base64_CorruptInputError 0 = base64_CorruptInputError off)
    ∧ files w' = <[filePathOf "out" Sample.u_ab := ""]> (files Sample.w0)
    ∧ dirPathOf "out" Sample.u_ab ∈ dirs w'.
Proof.
  eapply (bad_base64_leaves_file Sample.parse Sample.plainfs
            (Sample.entry "http://example.com/a/b.js" "!!!!" "base64") "out"
            false false ∅ Sample.w0 Sample.u_ab
            (fst (os.MkdirAll Sample.plainfs Sample.w0
                    (dirPathOf "out" Sample.u_ab)))
            (fst (os.Create Sample.plainfs
                    (fst (os.MkdirAll Sample.plainfs Sample.w0
                            (dirPathOf "out" Sample.u_ab)))
                    (filePathOf "out" Sample.u_ab)))
            (filePathOf "out" Sample.u_ab) "").
  - vm_compute. reflexivity.
  - vm_compute. reflexivity.
  - vm_compute. reflexivity.
  - vm_compute. reflexivity.
  - reflexivity.
  - vm_compute. reflexivity.
Defined.

(** The capture [Sample.har_number]: the first entry is written, the
    number after it cannot be decoded, the entry after the number is not
    reached. *)
Lemma first_error_stops_processing_witness :
  let url_Parse := Sample.parse in
  let sys := Sample.plainfs in
  let reader := Sample.har_number in
  let w := Sample.w0 in
  let count := 1%nat in
  let err := json_UnmarshalTypeError "number" in
  let w' :=
    fst (processEntry url_Parse sys
           (Sample.entry "http://example.com/a/b.js" "hi" "") "out" false
           false false ∅ w) in
  processHar url_Parse sys reader "out" false false false ∅ w
  = Some (count, Some err, w')
  ∧ ((count = 0%nat ∧ w' = w
      ∧ ∃ dec,
          scanEntries (S (length reader)) (json.NewDecoder reader)
          = Some (Some err, dec)
          ∨ ∃ dec1,
              scanEntries (S (length reader)) (json.NewDecoder reader)
              = Some (None, dec1)
              ∧ json.Token_ dec1 = (inr err, dec))
     ∨ (∃ dec1 token dec2 es dec3 wmid,
          scanEntries (S (length reader)) (json.NewDecoder reader)
          = Some (None, dec1)
          ∧ json.Token_ dec1 = (inl token, dec2)
          ∧ Decoded dec2 es dec3
          ∧ runEntries url_Parse sys es "out" false false false ∅ w
            = Some wmid
          ∧ count = length es
          ∧ ((json.More dec3 = true
              ∧ ∃ d, json.Decode dec3 = (inr err, d) ∧ w' = wmid)
             ∨ (json.More dec3 = true
                ∧ ∃ entry d,
                    json.Decode dec3 = (inl entry, d)
                    ∧ processEntry url_Parse sys entry "out" false false
                        false ∅ wmid = (w', Some err))
             ∨ (json.More dec3 = false
                ∧ ∃ d, json.Token_ dec3 = (inr err, d) ∧ w' = wmid)))).
Proof.
  intros url_Parse sys reader w count err w'.
  assert (H : processHar url_Parse sys reader "out" false false false ∅ w
              = Some (count, Some err, w'))
    by (vm_compute; reflexivity).
  split; [exact H|].
  exact (first_error_stops_processing url_Parse sys "out" false false false ∅
           reader w count err w' H).
Defined.

(** A text that decodes but is not what the encoder writes: [YR==]
    decodes to the byte [a], whose encoding is [YQ==]. *)
Lemma base64_roundtrip_fails_noncanonical :
  let entry := Sample.entry "http://example.com/a/b.js" "YR==" "base64" in
  let r := processEntry Sample.parse Sample.plainfs entry "out" false false
             false ∅ Sample.w0 in
  snd r = None
  ∧ files (fst r) !! filePathOf "out" Sample.u_ab = Some "a"
  ∧ base64.EncodeToString "a" = "YQ=="
  ∧ base64.EncodeToString "a" ≠ Text (content (response entry)).
Proof. vm_compute. repeat split. discriminate. Qed.

Lemma base64_roundtrip_canonical_witness :
  ∃ data,
    files (fst (processEntry Sample.parse Sample.plainfs
                  (Sample.entry "http://example.com/a/b.js" "aGVsbG8="
                     "base64")
                  "out" false false false ∅ Sample.w0))
    !! filePathOf "out" Sample.u_ab = Some data
    ∧ base64.EncodeToString data = "aGVsbG8=".
Proof.
  apply (base64_roundtrip_canonical Sample.parse Sample.plainfs
           (Sample.entry "http://example.com/a/b.js" "aGVsbG8=" "base64")
           "out" false false ∅ Sample.w0 Sample.u_ab _ "hello").
  - vm_compute. reflexivity.
  - vm_compute. reflexivity.
  - reflexivity.
  - vm_compute. reflexivity.
  - vm_compute. reflexivity.
Defined.

Lemma plain_text_written_verbatim_witness :
  files (fst (processEntry Sample.parse Sample.plainfs
                (Sample.entry "http://example.com/a/b.js" "hi" "") "out"
                false false false ∅ Sample.w0))
  !! filePathOf "out" Sample.u_ab = Some "hi".
Proof.
  refine (proj1 (plain_text_written_verbatim Sample.parse Sample.plainfs
                   (Sample.entry "http://example.com/a/b.js" "hi" "") "out"
                   false false ∅ Sample.w0 Sample.u_ab _ _ _ _ _)).
  - vm_compute. reflexivity.
  - vm_compute. reflexivity.
  - vm_compute. discriminate.
  - vm_compute. reflexivity.
Defined.

(** * Further properties *)

(** ** What [processEntry] touches *)

Section EntryEffects.

Context (url_Parse : string → url_URL + error) (sys : Faults).

Lemma touches_refl file w : touches file w w.
Proof. split; [reflexivity|]. split; [reflexivity|]. reflexivity. Qed.

Lemma touches_trans file w1 w2 w3 :
  touches file w1 w2 → touches file w2 w3 → touches file w1 w3.
Proof.
  intros (Hd & Ho & Hf) (Hd' & Ho' & Hf').
  split; [etrans; eassumption|]. split; [etrans; eassumption|].
  intros p Hp. rewrite Hf', Hf by exact Hp. reflexivity.
Qed.

Lemma touches_Println file w a b : touches file w (fmt_Println w a b).
Proof. split; [reflexivity|]. split; reflexivity. Qed.

Lemma Write_touches w file data :
  touches file w (fst (os.Write sys w file data))
  ∧ stdout (fst (os.Write sys w file data)) = stdout w.
Proof.
  unfold os.Write.
  destruct (write_fault sys w file data) as [[n e]|]; simpl;
    (split; [|reflexivity]);
    (split; [reflexivity|]); (split; [reflexivity|]);
    intros p Hp; simpl; apply lookup_insert_ne; congruence.
Qed.

Lemma Close_touches w file :
  touches file w (fst (os.Close sys w file))
  ∧ stdout (fst (os.Close sys w file)) = stdout w.
Proof.
  unfold os.Close. destruct (bool_decide (file ∈ opened w)); simpl.
  - split; [|reflexivity]. split; [reflexivity|].
    split; [apply subseteq_difference_l; reflexivity|reflexivity].
  - split; [apply touches_refl|reflexivity].
Qed.

Lemma writeContent_touches entry file w :
  touches file w (fst (writeContent sys entry file w))
  ∧ stdout (fst (writeContent sys entry file w)) = stdout w.
Proof.
  unfold writeContent.
  set (r := if seqb _ _ then _ else _).
  assert (H1 : touches file w (fst r) ∧ stdout (fst r) = stdout w).
  { subst r. destruct (seqb _ _).
    - destruct (base64.DecodeString _) as [data [e|]];
        [split; [apply touches_refl|reflexivity]|apply Write_touches].
    - apply Write_touches. }
  destruct r as [w1 err]. simpl in H1. destruct H1 as [H1 Hs1].
  destruct err as [e|].
  - simpl. pose proof (Close_touches w1 file) as [Ht Hs].
    split; [eapply touches_trans; eassumption|congruence].
  - pose proof (Close_touches w1 file) as [Ht Hs].
    destruct (os.Close sys w1 file) as [w2 err2]. simpl in *.
    pose proof (Close_touches w2 file) as [Ht2 Hs2].
    split; [|congruence].
    eapply touches_trans; [exact H1|]. eapply touches_trans; eassumption.
Qed.

Lemma MkdirAll_touches file w path :
  touches file w (fst (os.MkdirAll sys w path))
  ∧ files (fst (os.MkdirAll sys w path)) = files w
  ∧ opened (fst (os.MkdirAll sys w path)) = opened w
  ∧ stdout (fst (os.MkdirAll sys w path)) = stdout w.
Proof.
  unfold os.MkdirAll.
  destruct (mkdirall_fault sys w path) as [[k e]|]; simpl;
    (split; [|repeat split]);
    (split; [apply union_subseteq_l|]); (split; reflexivity).
Qed.

(** The steps after the host filter. *)
Lemma extractEntry_touches entry rootDir dryRun verbose u w :
  touches (filePathOf rootDir u) w
    (fst (extractEntry sys entry rootDir dryRun verbose u w)).
Proof.
  destruct dryRun.
  { rewrite extractEntry_dryRun.
    destruct verbose; [apply touches_Println|apply touches_refl]. }
  rewrite extractEntry_run.
  pose proof (MkdirAll_touches (filePathOf rootDir u) w (dirPathOf rootDir u))
    as (H1 & _).
  destruct (os.MkdirAll sys w (dirPathOf rootDir u)) as [w1 [e|]];
    simpl in H1; [exact H1|].
  set (w2 := if verbose then _ else w1).
  assert (H2 : touches (filePathOf rootDir u) w w2).
  { subst w2. destruct verbose; [|exact H1].
    eapply touches_trans; [exact H1|apply touches_Println]. }
  clearbody w2. clear H1.
  destruct (os.Create sys w2 (filePathOf rootDir u)) as [w3 [file|e]] eqn:Hc.
  - pose proof (writeContent_closes sys entry file w3) as Hclosed.
    pose proof (writeContent_touches entry file w3) as [(Hd4 & Ho4 & Hf4) _].
    unfold os.Create in Hc.
    destruct (create_fault sys w2 (filePathOf rootDir u)); [discriminate|].
    injection Hc as <- <-. simpl in *.
    destruct H2 as (Hd2 & Ho2 & Hf2).
    split; [etrans; eassumption|]. split.
    + intros x Hx. apply Ho2. apply Ho4 in Hx as Hx'.
      apply elem_of_union in Hx' as [Hx'|Hx']; [|exact Hx'].
      apply elem_of_singleton in Hx'. subst x. contradiction.
    + intros p Hp. rewrite Hf4, lookup_insert_ne by congruence.
      apply Hf2, Hp.
  - apply Create_failed in Hc as ->. exact H2.
Qed.

(** Without [verbose] nothing is printed. *)
Lemma extractEntry_quiet entry rootDir dryRun u w :
  stdout (fst (extractEntry sys entry rootDir dryRun false u w)) = stdout w.
Proof.
  destruct dryRun; [rewrite extractEntry_dryRun; reflexivity|].
  rewrite extractEntry_run.
  pose proof (MkdirAll_touches "" w (dirPathOf rootDir u)) as (_ & _ & _ & Hs).
  destruct (os.MkdirAll sys w (dirPathOf rootDir u)) as [w1 [e|]];
    simpl in Hs; [exact Hs|].
  destruct (os.Create sys w1 (filePathOf rootDir u)) as [w3 [file|e]] eqn:Hc.
  - pose proof (writeContent_touches entry file w3) as [_ Hs4].
    apply Create_ok in Hc as (_ & _ & _ & Hs3). congruence.
  - apply Create_failed in Hc as ->. exact Hs.
Qed.

Lemma processEntry_touches entry rootDir rq dryRun verbose allow w u :
  url_Parse (URL (request entry)) = inl u →
  touches (filePathOf rootDir u) w
    (fst (processEntry url_Parse sys entry rootDir rq dryRun verbose allow w)).
Proof.
  intros Hu. rewrite (processEntry_parsed _ _ _ _ _ _ _ _ _ u Hu).
  destruct (skipped allow u); [apply touches_refl|].
  destruct rq; [|apply extractEntry_touches].
  exact (extractEntry_touches entry rootDir dryRun verbose
           (set_RawQuery u "") w).
Qed.

Lemma processEntry_quiet entry rootDir rq dryRun allow w :
  stdout (fst (processEntry url_Parse sys entry rootDir rq dryRun false
                 allow w)) = stdout w.
Proof.
  destruct (url_Parse (URL (request entry))) as [u|e] eqn:Hu.
  - rewrite (processEntry_parsed _ _ _ _ _ _ _ _ _ u Hu).
    destruct (skipped allow u); [reflexivity|].
    destruct rq; apply extractEntry_quiet.
  - rewrite (processEntry_unparsed _ _ _ _ _ _ _ _ _ e Hu). reflexivity.
Qed.

End EntryEffects.

(** ** [processEntry]: the ways it fails and what they leave *)

Section EntryFailures.

Context (url_Parse : string → url_URL + error) (sys : Faults).

(** The steps of [processEntry] on an entry that is parsed and not left
    out, in a run that is not dry. *)
Lemma processEntry_run entry rootDir rq verbose allow w u :
  url_Parse (URL (request entry)) = inl u →
  skipped allow u = false →
  processEntry url_Parse sys entry rootDir rq false verbose allow w =
  match os.MkdirAll sys w (dirPathOf rootDir u) with
  | (w1, Some err) => (w1, Some err)
  | (w1, None) =>
      match os.Create sys
              (if verbose
               then fmt_Println w1 "Processing: " (filePathOf rootDir u)
               else w1)
              (filePathOf rootDir u) with
      | (w3, inr err) => (w3, Some err)
      | (w3, inl file) => writeContent sys entry file w3
      end
  end.
Proof.
  intros Hu Hs. rewrite (processEntry_parsed _ _ _ _ _ _ _ _ _ u Hu), Hs.
  rewrite <- extractEntry_run. destruct rq; reflexivity.
Qed.

(** **** Property X1
    When the directory cannot be made, [processEntry] returns the error of
    [MkdirAll]: no file is created or changed, no handle is opened, and
    nothing is printed, not even in a verbose run (the line is printed
    after the directory is made). *)
Theorem mkdir_failure_creates_no_file
    entry rootDir rq verbose allow w u w1 err :
  url_Parse (URL (request entry)) = inl u →
  skipped allow u = false →
  os.MkdirAll sys w (dirPathOf rootDir u) = (w1, Some err) →
  processEntry url_Parse sys entry rootDir rq false verbose allow w
  = (w1, Some err)
  ∧ files w1 = files w ∧ opened w1 = opened w ∧ stdout w1 = stdout w.
Proof.
  intros Hu Hs Hm. rewrite (processEntry_run _ _ _ _ _ _ u Hu Hs), Hm.
  split; [reflexivity|].
  pose proof (MkdirAll_touches sys "" w (dirPathOf rootDir u))
    as (_ & Hf & Ho & Hout).
  rewrite Hm in Hf, Ho, Hout. auto.
Qed.

(** **** Property X2
    When the file cannot be created, [processEntry] returns the error of
    [Create]: the directory has been made and stays, no file is created or
    changed, and a verbose run has printed the path already. *)
Theorem create_failure_keeps_directory
    entry rootDir rq (verbose : bool) allow w u w1 w3 err :
  url_Parse (URL (request entry)) = inl u →
  skipped allow u = false →
  os.MkdirAll sys w (dirPathOf rootDir u) = (w1, None) →
  os.Create sys
    (if verbose then fmt_Println w1 "Processing: " (filePathOf rootDir u)
     else w1)
    (filePathOf rootDir u) = (w3, inr err) →
  processEntry url_Parse sys entry rootDir rq false verbose allow w
  = (w3, Some err)
  ∧ dirPathOf rootDir u ∈ dirs w3
  ∧ files w3 = files w ∧ opened w3 = opened w
  ∧ stdout w3
    = stdout w
      ++ (if verbose then [processing_line (filePathOf rootDir u)] else []).
Proof.
  intros Hu Hs Hm Hc. rewrite (processEntry_run _ _ _ _ _ _ u Hu Hs), Hm, Hc.
  split; [reflexivity|].
  pose proof (MkdirAll_touches sys "" w (dirPathOf rootDir u))
    as (_ & Hf & Ho & Hout).
  rewrite Hm in Hf, Ho, Hout. simpl in *.
  apply dirs_MkdirAll in Hm as (Hin & _).
  apply Create_failed in Hc as ->.
  destruct verbose; simpl; rewrite ?Hout, ?app_nil_r; auto.
Qed.

(** **** Property X3
    When the write fails after [n] bytes, [processEntry] returns the error
    of the write: the file is left with the first [n] bytes of the payload
    and its handle is released. *)
Theorem write_failure_leaves_partial_file
    entry rootDir rq (verbose : bool) allow w u w1 w3 file data n err :
  url_Parse (URL (request entry)) = inl u →
  skipped allow u = false →
  os.MkdirAll sys w (dirPathOf rootDir u) = (w1, None) →
  os.Create sys
    (if verbose then fmt_Println w1 "Processing: " (filePathOf rootDir u)
     else w1)
    (filePathOf rootDir u) = (w3, inl file) →
  payload entry = Some data →
  write_fault sys w3 file data = Some (n, err) →
  ∃ w',
    processEntry url_Parse sys entry rootDir rq false verbose allow w
    = (w', Some err)
    ∧ files w' = <[filePathOf rootDir u := stake n data]> (files w)
    ∧ filePathOf rootDir u ∉ opened w'.
Proof.
  intros Hu Hs Hm Hc Hp Hw.
  rewrite (processEntry_run _ _ _ _ _ _ u Hu Hs), Hm, Hc.
  pose proof (writeContent_closes sys entry file w3) as Hclosed.
  pose proof (files_MkdirAll sys w (dirPathOf rootDir u)) as Hf1.
  rewrite Hm in Hf1. simpl in Hf1.
  apply Create_ok in Hc as (-> & Hf3 & _ & _).
  assert (Hf3' : files w3 = <[filePathOf rootDir u := ""]> (files w)).
  { rewrite Hf3. destruct verbose; simpl; rewrite Hf1; reflexivity. }
  assert (Hrun : writeContent sys entry (filePathOf rootDir u) w3
                 = (fst (os.Close sys
                           (os.append_file w3 (filePathOf rootDir u)
                              (stake n data))
                           (filePathOf rootDir u)), Some err)).
  { unfold writeContent, payload in *.
    destruct (seqb _ _).
    - destruct (base64.DecodeString _) as [d [e|]]; [discriminate|].
      injection Hp as ->. unfold os.Write. rewrite Hw. reflexivity.
    - injection Hp as ->. unfold os.Write. rewrite Hw. reflexivity. }
  rewrite Hrun in Hclosed |- *. eexists. split; [reflexivity|].
  split; [|exact Hclosed].
  pose proof (Close_keeps sys
                (os.append_file w3 (filePathOf rootDir u) (stake n data))
                (filePathOf rootDir u)) as (Hf & _).
  simpl in *. rewrite Hf. simpl.
  rewrite Hf3', lookup_insert_eq, insert_insert_eq. reflexivity.
Qed.

(** **** Property X4
    When the payload is written and [Close] fails, [processEntry] returns
    the error of [Close] although the file holds the whole payload. *)
Theorem close_failure_after_full_write
    entry rootDir rq (verbose : bool) allow w u w1 w3 file data w4 err :
  url_Parse (URL (request entry)) = inl u →
  skipped allow u = false →
  os.MkdirAll sys w (dirPathOf rootDir u) = (w1, None) →
  os.Create sys
    (if verbose then fmt_Println w1 "Processing: " (filePathOf rootDir u)
     else w1)
    (filePathOf rootDir u) = (w3, inl file) →
  payload entry = Some data →
  os.Write sys w3 file data = (w4, None) →
  close_fault sys w4 file = Some err →
  ∃ w',
    processEntry url_Parse sys entry rootDir rq false verbose allow w
    = (w', Some err)
    ∧ files w' = <[filePathOf rootDir u := data]> (files w)
    ∧ filePathOf rootDir u ∉ opened w'.
Proof.
  intros Hu Hs Hm Hc Hp Hw Hcl.
  rewrite (processEntry_run _ _ _ _ _ _ u Hu Hs), Hm, Hc.
  pose proof (writeContent_closes sys entry file w3) as Hclosed.
  pose proof (files_MkdirAll sys w (dirPathOf rootDir u)) as Hf1.
  rewrite Hm in Hf1. simpl in Hf1.
  assert (Hopen : file ∈ opened w4).
  { unfold os.Create in Hc.
    destruct (create_fault sys _ _); [discriminate|].
    injection Hc as <- <-.
    unfold os.Write in Hw. destruct (write_fault sys _ _ _) as [[? ?]|];
      [discriminate|].
    injection Hw as <-. simpl. apply elem_of_union_l, elem_of_singleton.
    reflexivity. }
  apply Create_ok in Hc as (-> & Hf3 & _ & _).
  assert (Hf3' : files w3 = <[filePathOf rootDir u := ""]> (files w)).
  { rewrite Hf3. destruct verbose; simpl; rewrite Hf1; reflexivity. }
  pose proof (Write_ok sys _ _ _ _ Hw) as (Hf4 & _ & _).
  assert (Hclose : os.Close sys w4 (filePathOf rootDir u)
                   = (mkWorld (dirs w4) (files w4)
                        (opened w4 ∖ {[filePathOf rootDir u]}) (stdout w4),
                      Some err)).
  { unfold os.Close. rewrite bool_decide_eq_true_2 by exact Hopen.
    rewrite Hcl. reflexivity. }
  assert (Hrun : ∃ w', writeContent sys entry (filePathOf rootDir u) w3
                       = (w', Some err) ∧ files w' = files w4).
  { unfold writeContent, payload in *.
    destruct (seqb _ _).
    - destruct (base64.DecodeString _) as [d [e|]]; [discriminate|].
      injection Hp as ->. rewrite Hw, Hclose. eexists. split; [reflexivity|].
      apply (Close_keeps sys (mkWorld _ _ _ _)).
    - injection Hp as ->. rewrite Hw, Hclose. eexists. split; [reflexivity|].
      apply (Close_keeps sys (mkWorld _ _ _ _)). }
  destruct Hrun as (w' & Hrun & Hf). rewrite Hrun in Hclosed |- *.
  exists w'. split; [reflexivity|]. split; [|exact Hclosed].
  rewrite Hf, Hf4, Hf3', lookup_insert_eq, insert_insert_eq. reflexivity.
Qed.

(** **** Property X5
    [processEntry] changes no file but the one at the path of its entry,
    removes no directory and leaves no handle open that was not, however
    it ends; an entry whose URL does not parse changes nothing. *)
Theorem processEntry_touches_one_file
    entry rootDir rq dryRun verbose allow w :
  let w' :=
    fst (processEntry url_Parse sys entry rootDir rq dryRun verbose allow w)
  in
  match url_Parse (URL (request entry)) with
  | inl u =>
      dirs w ⊆ dirs w' ∧ opened w' ⊆ opened w
      ∧ ∀ p, p ≠ filePathOf rootDir u → files w' !! p = files w !! p
  | inr _ => w' = w
  end.
Proof.
  intros w'. subst w'.
  destruct (url_Parse (URL (request entry))) as [u|e] eqn:Hu.
  - apply (processEntry_touches url_Parse sys _ _ _ _ _ _ _ _ Hu).
  - rewrite (processEntry_unparsed _ _ _ _ _ _ _ _ _ e Hu). reflexivity.
Qed.

(** **** Property X6
    Two entries whose URLs have the same host and the same path (they may
    differ in the query) are written to the same file: after both are
    processed with success the file holds the payload of the second, and
    nothing is left of the first. *)
Theorem same_path_last_entry_wins
    e1 e2 rootDir rq verbose allow w u1 u2 w1 w2 :
  url_Parse (URL (request e1)) = inl u1 →
  url_Parse (URL (request e2)) = inl u2 →
  Host u1 = Host u2 → Path u1 = Path u2 →
  skipped allow u1 = false →
  processEntry url_Parse sys e1 rootDir rq false verbose allow w
  = (w1, None) →
  processEntry url_Parse sys e2 rootDir rq false verbose allow w1
  = (w2, None) →
  ∃ data,
    payload e2 = Some data
    ∧ files w2 = <[filePathOf rootDir u1 := data]> (files w).
Proof.
  intros Hu1 Hu2 Hh Hp Hs1 H1 H2.
  assert (Hs2 : skipped allow u2 = false).
  { unfold skipped in *. rewrite <- Hh. exact Hs1. }
  assert (Hpath : filePathOf rootDir u2 = filePathOf rootDir u1).
  { unfold filePathOf, dirPathOf. rewrite Hh, Hp. reflexivity. }
  destruct (processEntry_ok _ _ _ _ _ _ _ _ _ _ Hu1 Hs1 H1)
    as (d1 & _ & Hf1 & _).
  destruct (processEntry_ok _ _ _ _ _ _ _ _ _ _ Hu2 Hs2 H2)
    as (d2 & Hp2 & Hf2 & _).
  exists d2. split; [exact Hp2|].
  rewrite Hf2, Hf1, Hpath. apply insert_insert_eq.
Qed.

End EntryFailures.

(** ** [processHar]: what a run touches and returns *)

Section HarEffects.

Context (url_Parse : string → url_URL + error) (sys : Faults).

(** What a token leaves of the stream is its end. *)
Lemma Token_loop_suffix inp : ∀ st stk r dec',
  json.Token_loop inp st stk = (r, dec') → suffix (json.input dec') inp.
Proof.
  induction inp as [|c rest IH]; intros st stk r dec' H.
  { injection H as _ <-. reflexivity. }
  assert (Hrest : ∀ l, suffix l rest → suffix l (c :: rest))
    by (intros l Hl; apply suffix_cons_r, Hl).
  destruct c; destruct st; simpl in H;
    repeat match type of H with
           | context [json.popState ?s] => destruct (json.popState s)
           | context [if ?b then _ else _] => destruct b
           end;
    first [ injection H as _ <-; simpl; first [reflexivity|apply Hrest; reflexivity]
          | apply IH in H; apply Hrest, H ].
Qed.

(** A string token is a string lexeme of the stream. *)
Lemma Token_loop_string inp : ∀ st stk s dec',
  json.Token_loop inp st stk = (inl (json.TString s), dec') →
  LStr s ∈ inp.
Proof.
  induction inp as [|c rest IH]; intros st stk s dec' H; [discriminate|].
  destruct c; destruct st; simpl in H;
    repeat match type of H with
           | context [json.popState ?s] => destruct (json.popState s)
           | context [if ?b then _ else _] => destruct b
           end;
    first [ discriminate
          | injection H as <- _; apply list_elem_of_here
          | apply IH in H; apply list_elem_of_further, H ].
Qed.

(** The scan stops without an error at a string lexeme [entries] only. *)
Lemma scanEntries_found fuel : ∀ dec dec',
  scanEntries fuel dec = Some (None, dec') →
  LStr "entries" ∈ json.input dec.
Proof.
  induction fuel as [|fuel IH]; intros dec dec' H; [discriminate|].
  simpl in H. destruct (json.Token_ dec) as [[t|e] dec1] eqn:Ht;
    [|discriminate].
  assert (Hrec : scanEntries fuel dec1 = Some (None, dec') →
                 LStr "entries" ∈ json.input dec).
  { intros H1. apply IH in H1. apply Token_loop_suffix in Ht.
    destruct Ht as [pre ->]. apply elem_of_app. right. exact H1. }
  destruct t as [|s| | |]; try (apply Hrec, H).
  unfold seqb in H. destruct (bool_decide (s = "entries")) eqn:Hs;
    [|apply Hrec, H].
  apply bool_decide_eq_true in Hs. subst s.
  eapply Token_loop_string, Ht.
Qed.

(** **** Property X7
    A stream that has no string [entries] is refused: [processHar] returns
    an error and the count 0, and changes nothing. *)
Theorem no_entries_string_is_an_error
    reader rootDir rq dryRun verbose allow w :
  LStr "entries" ∉ reader →
  ∃ err,
    processHar url_Parse sys reader rootDir rq dryRun verbose allow w
    = Some (0%nat, Some err, w).
Proof.
  intros Hno. unfold processHar, processHar_fuel.
  destruct (scanEntries_fuel (S (length reader)) (json.NewDecoder reader))
    as (err & dec & Hscan & _); [simpl; lia|].
  rewrite Hscan. destruct err as [e|]; [eauto|].
  apply scanEntries_found in Hscan. contradiction.
Qed.

Lemma har_frame_refl rootDir verbose w : har_frame url_Parse rootDir verbose w w.
Proof.
  split; [reflexivity|]. split; [reflexivity|]. split; [reflexivity|].
  intros p Hp. contradiction.
Qed.

Lemma har_frame_trans rootDir verbose w1 w2 w3 :
  har_frame url_Parse rootDir verbose w1 w2 → har_frame url_Parse rootDir verbose w2 w3 →
  har_frame url_Parse rootDir verbose w1 w3.
Proof.
  intros (Hd & Ho & Hs & Hf) (Hd' & Ho' & Hs' & Hf').
  split; [etrans; eassumption|]. split; [etrans; eassumption|].
  split; [intros Hv; rewrite Hs', Hs by exact Hv; reflexivity|].
  intros p Hp.
  destruct (decide (files w2 !! p = files w1 !! p)) as [Heq|Hne].
  - apply Hf'. congruence.
  - apply Hf, Hne.
Qed.

Lemma processEntry_frame entry rootDir rq dryRun verbose allow w :
  har_frame url_Parse rootDir verbose w
    (fst (processEntry url_Parse sys entry rootDir rq dryRun verbose allow w)).
Proof.
  destruct (url_Parse (URL (request entry))) as [u|e] eqn:Hu.
  - pose proof (processEntry_touches url_Parse sys entry rootDir rq dryRun
                  verbose allow w u Hu) as (Hd & Ho & Hf).
    split; [exact Hd|]. split; [exact Ho|]. split.
    + intros ->. apply processEntry_quiet.
    + intros p Hp. exists (URL (request entry)), u. split; [exact Hu|].
      destruct (decide (p = filePathOf rootDir u)) as [Heq|Hne];
        [exact Heq|].
      exfalso. apply Hp, Hf, Hne.
  - rewrite (processEntry_unparsed _ _ _ _ _ _ _ _ _ e Hu).
    apply har_frame_refl.
Qed.

Lemma entriesLoop_frame rootDir rq dryRun verbose allow fuel :
  ∀ dec count w n err dec' w',
  entriesLoop url_Parse sys fuel dec rootDir rq dryRun verbose allow count w
  = Some (n, err, dec', w') →
  har_frame url_Parse rootDir verbose w w'.
Proof.
  induction fuel as [|fuel IH]; intros dec count w n err dec' w' H;
    [discriminate|].
  simpl in H. destruct (json.More dec).
  - destruct (json.Decode dec) as [[entry|e] dec1].
    + pose proof (processEntry_frame entry rootDir rq dryRun verbose allow w)
        as Hfr.
      destruct (processEntry _ _ _ _ _ _ _ _ _) as [w1 [e|]]; simpl in Hfr.
      * injection H as _ _ _ <-. exact Hfr.
      * eapply har_frame_trans; [exact Hfr|]. eapply IH, H.
    + injection H as _ _ _ <-. apply har_frame_refl.
  - injection H as _ _ _ <-. apply har_frame_refl.
Qed.

Lemma processHar_har_frame
    reader rootDir rq dryRun verbose allow w count err w' :
  processHar url_Parse sys reader rootDir rq dryRun verbose allow w
  = Some (count, err, w') →
  har_frame url_Parse rootDir verbose w w'.
Proof.
  unfold processHar, processHar_fuel. intros H.
  destruct (scanEntries _ _) as [[[e|] dec]|]; try discriminate.
  { injection H as _ _ <-. apply har_frame_refl. }
  destruct (json.Token_ dec) as [[t|e] dec1].
  2:{ injection H as _ _ <-. apply har_frame_refl. }
  destruct (entriesLoop _ _ _ _ _ _ _ _ _ _ _) as [[[[n1 err1] d] w1]|] eqn:Hl;
    [|discriminate].
  apply entriesLoop_frame in Hl.
  destruct err1.
  - injection H as _ _ <-. exact Hl.
  - destruct (json.Token_ d) as [[?|?] ?]; injection H as _ _ <-; exact Hl.
Qed.

(** **** Property X8
    Whatever [processHar] returns, it has removed no directory and left no
    handle open; every file it has created or changed is at the file path
    computed from a URL that parses; and a run that is not verbose prints
    nothing. *)
Theorem processHar_frame
    reader rootDir rq dryRun verbose allow w count err w' :
  processHar url_Parse sys reader rootDir rq dryRun verbose allow w
  = Some (count, err, w') →
  dirs w ⊆ dirs w'
  ∧ opened w' ⊆ opened w
  ∧ (verbose = false → stdout w' = stdout w)
  ∧ ∀ p, files w' !! p ≠ files w !! p →
         ∃ url u, url_Parse url = inl u ∧ p = filePathOf rootDir u.
Proof. apply processHar_har_frame. Qed.

Lemma processHar_success
    reader rootDir rq dryRun verbose allow w count w' :
  processHar url_Parse sys reader rootDir rq dryRun verbose allow w
  = Some (count, None, w') →
  ∃ dec1 token dec2 es dec3 token' dec4,
    scanEntries (S (length reader)) (json.NewDecoder reader)
    = Some (None, dec1)
    ∧ json.Token_ dec1 = (inl token, dec2)
    ∧ Decoded dec2 es dec3
    ∧ json.More dec3 = false
    ∧ json.Token_ dec3 = (inl token', dec4)
    ∧ runEntries url_Parse sys es rootDir rq dryRun verbose allow w
      = Some w'
    ∧ count = length es.
Proof.
  unfold processHar, processHar_fuel. intros H.
  destruct (scanEntries _ _) as [[[e|] dec1]|] eqn:Hscan; try discriminate.
  destruct (json.Token_ dec1) as [[token|e] dec2] eqn:Htok; [|discriminate].
  destruct (entriesLoop _ _ _ _ _ _ _ _ _ _ _) as [[[[n1 err1] d] w1]|] eqn:Hl;
    [|discriminate].
  apply entriesLoop_spec in Hl as (es & dec3 & wmid & Hd & Hr & Hn & Herr).
  destruct err1 as [e|]; [discriminate|].
  destruct Herr as (Hmore & -> & ->).
  destruct (json.Token_ dec3) as [[token'|e] dec4] eqn:Hclose;
    [|discriminate].
  injection H as <- <-.
  exists dec1, token, dec2, es, dec3, token', dec4.
  repeat split; try assumption; try reflexivity.
Qed.

(** **** Property X9
    When [processHar] returns no error, its count is the number of the
    elements of the array: each of them was decoded as an entry and
    processed with success, in their order, and the token after the last
    one was read. *)
Theorem success_counts_every_entry
    reader rootDir rq dryRun verbose allow w count w' :
  processHar url_Parse sys reader rootDir rq dryRun verbose allow w
  = Some (count, None, w') →
  ∃ dec1 token dec2 es dec3 token' dec4,
    scanEntries (S (length reader)) (json.NewDecoder reader)
    = Some (None, dec1)
    ∧ json.Token_ dec1 = (inl token, dec2)
    ∧ Decoded dec2 es dec3
    ∧ json.More dec3 = false
    ∧ json.Token_ dec3 = (inl token', dec4)
    ∧ runEntries url_Parse sys es rootDir rq dryRun verbose allow w
      = Some w'
    ∧ count = length es.
Proof. apply processHar_success. Qed.




End HarEffects.

(** ** [processHar]: what follows the array is not read *)

(** A value that scans well scans the same when the stream goes on. *)
Lemma scan_extend fuel more :
  (∀ inp v rest, json.scanValue fuel inp = inl (v, rest) →
     json.scanValue fuel (inp ++ more) = inl (v, rest ++ more))
  ∧ (∀ inp vs rest, json.scanElements fuel inp = inl (vs, rest) →
       json.scanElements fuel (inp ++ more) = inl (vs, rest ++ more))
  ∧ (∀ inp kvs rest, json.scanMembers fuel inp = inl (kvs, rest) →
       json.scanMembers fuel (inp ++ more) = inl (kvs, rest ++ more)).
Proof.
  induction fuel as [|fuel (IHv & IHe & IHm)];
    [repeat split; intros; discriminate|].
  pose proof (scan_shrinks fuel) as (Sv & Se & Sm).
  split; [|split].
  - intros inp v rest H.
    destruct inp as [|c inp']; [discriminate|].
    destruct c; try discriminate; try (injection H as <- <-; reflexivity).
    + destruct inp' as [|c inp''].
      { simpl in H.
        destruct (json.scanMembers fuel []) as [[kvs r]|e] eqn:Hm;
          [apply Sm in Hm; simpl in Hm; lia|discriminate]. }
      destruct c; simpl in H |- *;
        try (injection H as <- <-; reflexivity);
        (destruct (json.scanMembers fuel _) as [[kvs r]|e] eqn:Hm in H;
           [|discriminate]);
        injection H as <- <-; apply IHm in Hm; simpl in Hm; rewrite Hm;
        reflexivity.
    + destruct inp' as [|c inp''].
      { simpl in H.
        destruct (json.scanElements fuel []) as [[vs r]|e] eqn:He;
          [apply Se in He; simpl in He; lia|discriminate]. }
      destruct c; simpl in H |- *;
        try (injection H as <- <-; reflexivity);
        (destruct (json.scanElements fuel _) as [[vs r]|e] eqn:He in H;
           [|discriminate]);
        injection H as <- <-; apply IHe in He; simpl in He; rewrite He;
        reflexivity.
  - intros inp vs rest H. simpl in H |- *.
    destruct (json.scanValue fuel inp) as [[v r]|e] eqn:Hv; [|discriminate].
    apply IHv in Hv. rewrite Hv.
    destruct r as [|[] r']; try discriminate; simpl.
    + injection H as <- <-. reflexivity.
    + destruct (json.scanElements fuel r') as [[vs' r'']|e] eqn:He;
        [|discriminate].
      apply IHe in He. rewrite He. injection H as <- <-. reflexivity.
  - intros inp kvs rest H. simpl in H.
    destruct inp as [|[] inp']; try discriminate.
    destruct inp' as [|[] inp'']; try discriminate.
    simpl.
    destruct (json.scanValue fuel inp'') as [[v r]|e] eqn:Hv; [|discriminate].
    apply IHv in Hv. rewrite Hv.
    destruct r as [|[] r']; try discriminate; simpl.
    + injection H as <- <-. reflexivity.
    + destruct (json.scanMembers fuel r') as [[kvs' r'']|e] eqn:Hm;
        [|discriminate].
      apply IHm in Hm. rewrite Hm. injection H as <- <-. reflexivity.
Qed.

Lemma readValue_extend inp more v rest :
  json.readValue inp = inl (v, rest) →
  json.readValue (inp ++ more) = inl (v, rest ++ more).
Proof.
  intros H. unfold json.readValue at 1. rewrite length_app.
  replace (2 * (length inp + length more) + 2)%nat
    with (2 * length inp + 2 + 2 * length more)%nat by lia.
  apply scan_extend. rewrite readValue_fuel. exact H.
Qed.

(** A token that reads well reads the same when the stream goes on. *)
Lemma Token_loop_extend more inp : ∀ st stk t dec',
  json.Token_loop inp st stk = (inl t, dec') →
  json.Token_loop (inp ++ more) st stk = (inl t, fed dec' more).
Proof.
  induction inp as [|c rest IH]; intros st stk t dec' H; [discriminate|].
  destruct c; destruct st; simpl in H |- *;
    repeat match type of H with
           | context [json.popState ?s] => destruct (json.popState s)
           | context [if ?b then _ else _] => destruct b
           end;
    first [ discriminate
          | injection H as <- <-; reflexivity
          | apply IH, H ].
Qed.

Lemma Token_extend more dec t dec' :
  json.Token_ dec = (inl t, dec') →
  json.Token_ (fed dec more) = (inl t, fed dec' more).
Proof. apply Token_loop_extend. Qed.

Lemma More_extend more dec :
  json.input dec ≠ [] → json.More (fed dec more) = json.More dec.
Proof.
  unfold json.More, fed. simpl.
  destruct (json.input dec) as [|c rest]; [congruence|reflexivity].
Qed.

Lemma Decode_extend more dec entry dec' :
  json.Decode dec = (inl entry, dec') →
  json.Decode (fed dec more) = (inl entry, fed dec' more).
Proof.
  unfold json.Decode. intros H.
  assert (Hprep : ∀ dec1, json.tokenPrepareForDecode dec = inl dec1 →
            json.tokenPrepareForDecode (fed dec more) = inl (fed dec1 more)).
  { unfold json.tokenPrepareForDecode, fed. destruct dec as [inp st stk].
    simpl. intros dec1 H1.
    destruct st; try (injection H1 as <-; reflexivity);
      destruct inp as [|[] rest]; try discriminate;
      injection H1 as <-; reflexivity. }
  destruct (json.tokenPrepareForDecode dec) as [dec1|e]; [|discriminate].
  rewrite (Hprep dec1 eq_refl). clear Hprep.
  change (json.tokenState (fed dec1 more)) with (json.tokenState dec1).
  destruct (negb (json.tokenValueAllowed (json.tokenState dec1)));
    [discriminate|].
  change (json.input (fed dec1 more)) with (json.input dec1 ++ more).
  destruct (json.input dec1) as [|c rest] eqn:Hin; [discriminate|].
  destruct (json.readValue (c :: rest)) as [[v r]|e] eqn:Hr; [|discriminate].
  apply (readValue_extend _ more) in Hr. simpl in Hr |- *. rewrite Hr.
  destruct (json.unmarshalEntry v zeroEntry) as [en [e|]]; [discriminate|].
  injection H as <- <-. reflexivity.
Qed.

Section HarExtension.

Context (url_Parse : string → url_URL + error) (sys : Faults).

Lemma scanEntries_extend more fuel : ∀ dec dec',
  scanEntries fuel dec = Some (None, dec') →
  scanEntries fuel (fed dec more) = Some (None, fed dec' more).
Proof.
  induction fuel as [|fuel IH]; intros dec dec' H; [discriminate|].
  simpl in H |- *.
  destruct (json.Token_ dec) as [[t|e] dec1] eqn:Ht; [|discriminate].
  rewrite (Token_extend more _ _ _ Ht).
  destruct t as [|s| | |]; try (apply IH, H).
  destruct (seqb s "entries"); [|apply IH, H].
  injection H as <-. reflexivity.
Qed.

Lemma scanEntries_more_fuel fuel : ∀ dec r,
  scanEntries fuel dec = Some r → scanEntries (S fuel) dec = Some r.
Proof.
  induction fuel as [|fuel IH]; intros dec r H; [discriminate|].
  change (scanEntries (S (S fuel)) dec)
    with (match json.Token_ dec with
          | (inr err, dec') => Some (Some err, dec')
          | (inl token, dec') =>
              match token with
              | json.TString key =>
                  if seqb key "entries" then Some (None, dec')
                  else scanEntries (S fuel) dec'
              | _ => scanEntries (S fuel) dec'
              end
          end).
  simpl in H. destruct (json.Token_ dec) as [[t|e] dec1]; [|exact H].
  destruct t as [|s| | |]; try (apply IH, H).
  destruct (seqb s "entries"); [exact H|apply IH, H].
Qed.

Lemma entriesLoop_more_fuel rootDir rq dryRun verbose allow fuel :
  ∀ dec count w r,
  entriesLoop url_Parse sys fuel dec rootDir rq dryRun verbose allow count w
  = Some r →
  entriesLoop url_Parse sys (S fuel) dec rootDir rq dryRun verbose allow
    count w = Some r.
Proof.
  induction fuel as [|fuel IH]; intros dec count w r H; [discriminate|].
  change (entriesLoop url_Parse sys (S (S fuel)) dec rootDir rq dryRun
            verbose allow count w)
    with (if json.More dec then
            match json.Decode dec with
            | (inr err, dec') => Some (count, Some err, dec', w)
            | (inl entry, dec') =>
                match processEntry url_Parse sys entry rootDir rq dryRun
                        verbose allow w with
                | (w', Some err) => Some (count, Some err, dec', w')
                | (w', None) =>
                    entriesLoop url_Parse sys (S fuel) dec' rootDir rq
                      dryRun verbose allow (S count) w'
                end
            end
          else Some (count, None, dec, w)).
  simpl in H. destruct (json.More dec); [|exact H].
  destruct (json.Decode dec) as [[entry|e] dec1]; [|exact H].
  destruct (processEntry _ _ _ _ _ _ _ _ _) as [w1 [e|]]; [exact H|].
  apply IH, H.
Qed.

Lemma entriesLoop_extend more rootDir rq dryRun verbose allow fuel :
  ∀ dec count w n dec' w',
  entriesLoop url_Parse sys fuel dec rootDir rq dryRun verbose allow count w
  = Some (n, None, dec', w') →
  json.input dec' ≠ [] →
  entriesLoop url_Parse sys fuel (fed dec more) rootDir rq dryRun verbose
    allow count w = Some (n, None, fed dec' more, w').
Proof.
  induction fuel as [|fuel IH]; intros dec count w n dec' w' H Hne;
    [discriminate|].
  simpl in H |- *.
  destruct (json.More dec) eqn:Hmore.
  - assert (Hin : json.input dec ≠ []).
    { unfold json.More in Hmore. destruct (json.input dec);
        [discriminate|congruence]. }
    rewrite More_extend, Hmore by exact Hin.
    destruct (json.Decode dec) as [[entry|e] dec1] eqn:Hd; [|discriminate].
    rewrite (Decode_extend more _ _ _ Hd).
    destruct (processEntry _ _ _ _ _ _ _ _ _) as [w1 [e|]]; [discriminate|].
    apply IH; assumption.
  - injection H as <- <- <-. rewrite More_extend, Hmore by exact Hne.
    reflexivity.
Qed.

Lemma fuel_le {A} (f : nat → option A) :
  (∀ n r, f n = Some r → f (S n) = Some r) →
  ∀ n m r, (n ≤ m)%nat → f n = Some r → f m = Some r.
Proof.
  intros Hstep n m r Hle. induction Hle as [|m Hle IH]; [auto|].
  intros H. apply Hstep, IH, H.
Qed.

(** **** Property X11
    A stream that [processHar] accepts is accepted with the same count and
    the same effects whatever is put after it: nothing is read after the
    token that closes the array. *)
Theorem rest_of_stream_is_not_read
    reader more rootDir rq dryRun verbose allow w count w' :
  processHar url_Parse sys reader rootDir rq dryRun verbose allow w
  = Some (count, None, w') →
  processHar url_Parse sys (reader ++ more) rootDir rq dryRun verbose allow w
  = Some (count, None, w').
Proof.
  unfold processHar, processHar_fuel. intros H.
  assert (Hfuel : (S (length reader) ≤ S (length (reader ++ more)))%nat)
    by (rewrite length_app; lia).
  destruct (scanEntries (S (length reader)) (json.NewDecoder reader))
    as [[[e|] dec1]|] eqn:Hscan; try discriminate.
  apply (scanEntries_extend more) in Hscan.
  apply (fuel_le (fun n => scanEntries n _) (fun n => scanEntries_more_fuel n _)
           _ _ _ Hfuel) in Hscan.
  change (fed (json.NewDecoder reader) more)
    with (json.NewDecoder (reader ++ more)) in Hscan.
  rewrite Hscan.
  destruct (json.Token_ dec1) as [[token|e] dec2] eqn:Htok; [|discriminate].
  rewrite (Token_extend more _ _ _ Htok).
  destruct (entriesLoop _ _ _ _ _ _ _ _ _ _ _) as [[[[n1 err1] d] w1]|] eqn:Hl;
    [|discriminate].
  destruct err1 as [e|]; [discriminate|].
  destruct (json.Token_ d) as [[token'|e] d'] eqn:Hclose; [|discriminate].
  injection H as <- <-.
  assert (Hne : json.input d ≠ []).
  { intros Hnil. unfold json.Token_ in Hclose. rewrite Hnil in Hclose.
    discriminate. }
  apply (entriesLoop_extend more) in Hl; [|exact Hne].
  apply (fuel_le (fun n => entriesLoop url_Parse sys n _ _ _ _ _ _ _ _)
           (fun n => entriesLoop_more_fuel _ _ _ _ _ n _ _ _)
           _ _ _ Hfuel) in Hl.
  rewrite Hl, (Token_extend more _ _ _ Hclose). reflexivity.
Qed.

End HarExtension.

(** ** A dry run and the run it previews *)

Section Preview.

Context (url_Parse : string → url_URL + error) (sys : Faults).

(** The entries of an array are what they are. *)
Lemma Decoded_deterministic dec es dec' :
  Decoded dec es dec' → json.More dec' = false →
  ∀ es2 dec2, Decoded dec es2 dec2 → json.More dec2 = false →
              es2 = es ∧ dec2 = dec'.
Proof.
  induction 1 as [dec|dec entry dec1 es dec' Hmore Hdec Hrest IH];
    intros Hend es2 dec2 H2 Hend2.
  - destruct H2 as [|? ? ? ? ? Hmore2]; [auto|congruence].
  - destruct H2 as [|? entry2 dec1' es2 dec2 Hmore2 Hdec2 Hrest2];
      [congruence|].
    rewrite Hdec in Hdec2. injection Hdec2 as <- <-.
    destruct (IH Hend es2 dec2 Hrest2 Hend2) as [-> ->]. auto.
Qed.

(** A verbose dry run prints the paths of the plan. *)
Lemma runEntries_dry rootDir rq allow : ∀ es w w',
  runEntries url_Parse sys es rootDir rq true true allow w = Some w' →
  stdout w'
  = stdout w
    ++ map (fun p => processing_line (fst p))
         (planned url_Parse rootDir allow es).
Proof.
  induction es as [|entry es IH]; intros w w' H; simpl in H |- *.
  { injection H as <-. rewrite app_nil_r. reflexivity. }
  destruct (url_Parse (URL (request entry))) as [u|e] eqn:Hu.
  - rewrite (processEntry_parsed _ _ _ _ _ _ _ _ _ u Hu) in H.
    destruct (skipped allow u); [apply IH, H|].
    rewrite extractEntry_dryRun in H. apply IH in H.
    rewrite H. simpl. rewrite <- app_assoc.
    destruct rq; reflexivity.
  - rewrite (processEntry_unparsed _ _ _ _ _ _ _ _ _ e Hu) in H.
    discriminate.
Qed.

(** A run that is not dry writes the files of the plan. *)
Lemma runEntries_real rootDir rq verbose allow : ∀ es w w',
  runEntries url_Parse sys es rootDir rq false verbose allow w = Some w' →
  files w' = write_all (planned url_Parse rootDir allow es) (files w).
Proof.
  induction es as [|entry es IH]; intros w w' H; simpl in H |- *.
  { injection H as <-. reflexivity. }
  destruct (url_Parse (URL (request entry))) as [u|e] eqn:Hu.
  - destruct (skipped allow u) eqn:Hs.
    + rewrite (processEntry_parsed _ _ _ _ _ _ _ _ _ u Hu), Hs in H.
      apply IH, H.
    + destruct (processEntry _ _ _ _ _ _ _ _ _) as [w1 [e|]] eqn:Hp;
        [discriminate|].
      destruct (processEntry_ok _ _ _ _ _ _ _ _ _ _ Hu Hs Hp)
        as (data & Hpay & Hf & _).
      apply IH in H. rewrite H, Hf, Hpay. reflexivity.
  - rewrite (processEntry_unparsed _ _ _ _ _ _ _ _ _ e Hu) in H.
    discriminate.
Qed.

(** The entries of two runs on the same stream that both end well. *)
Lemma same_entries reader rootDir rq1 dry1 verbose1 rq2 dry2 verbose2 allow
    w1 w2 n1 n2 w1' w2' :
  processHar url_Parse sys reader rootDir rq1 dry1 verbose1 allow w1
  = Some (n1, None, w1') →
  processHar url_Parse sys reader rootDir rq2 dry2 verbose2 allow w2
  = Some (n2, None, w2') →
  ∃ es,
    n1 = length es ∧ n2 = length es
    ∧ runEntries url_Parse sys es rootDir rq1 dry1 verbose1 allow w1
      = Some w1'
    ∧ runEntries url_Parse sys es rootDir rq2 dry2 verbose2 allow w2
      = Some w2'.
Proof.
  intros H1 H2.
  apply processHar_success in H1
    as (dec1 & t1 & dec2 & es & dec3 & t1' & dec4 & Hs1 & Ht1 & Hd1 & Hm1
        & _ & Hr1 & Hn1).
  apply processHar_success in H2
    as (dec1' & t2 & dec2' & es' & dec3' & t2' & dec4' & Hs2 & Ht2 & Hd2
        & Hm2 & _ & Hr2 & Hn2).
  rewrite Hs1 in Hs2. injection Hs2 as <-.
  rewrite Ht1 in Ht2. injection Ht2 as <- <-.
  destruct (Decoded_deterministic _ _ _ Hd1 Hm1 _ _ Hd2 Hm2) as [-> _].
  exists es. auto.
Qed.

(** **** Property X12
    A verbose dry run previews the run: when both end without an error on
    the same capture, they count the same entries, and the paths the dry
    run prints, in their order, are the paths of the files the run
    writes. *)
Theorem dry_run_previews_the_run
    reader rootDir rq verbose allow w count wd count' wr :
  processHar url_Parse sys reader rootDir rq true true allow w
  = Some (count, None, wd) →
  processHar url_Parse sys reader rootDir rq false verbose allow w
  = Some (count', None, wr) →
  count' = count
  ∧ ∃ plan : list (string * string),
      stdout wd = stdout w ++ map (fun p => processing_line (fst p)) plan
      ∧ files wr = write_all plan (files w).
Proof.
  intros Hd Hr.
  destruct (same_entries _ _ _ _ _ _ _ _ _ _ _ _ _ _ _ Hd Hr)
    as (es & -> & -> & Hrd & Hrr).
  split; [reflexivity|].
  exists (planned url_Parse rootDir allow es).
  split; [eapply runEntries_dry, Hrd|eapply runEntries_real, Hrr].
Qed.

(** Writing a plan twice is writing it once. *)
Lemma write_all_lookup plan : ∀ (m : gmap string string) path,
  write_all plan m !! path
  = match last (List.filter (fun p => bool_decide (fst p = path)) plan) with
    | Some p => Some (snd p)
    | None => m !! path
    end.
Proof.
  unfold write_all.
  induction plan as [|[k d] plan IH]; intros m path; [reflexivity|].
  cbn [fold_left List.filter fst snd]. rewrite IH.
  destruct (decide (k = path)) as [->|Hne].
  - rewrite bool_decide_eq_true_2 by reflexivity.
    destruct (List.filter _ plan) as [|q l] eqn:Hl.
    + simpl. apply lookup_insert_eq.
    + change (last ((path, d) :: q :: l)) with (last (q :: l)).
      destruct (last (q :: l)) as [p|] eqn:Hlast; [reflexivity|].
      apply last_None in Hlast. discriminate.
  - rewrite bool_decide_eq_false_2 by exact Hne.
    destruct (last _); [reflexivity|]. apply lookup_insert_ne, Hne.
Qed.

Lemma write_all_twice plan (m : gmap string string) :
  write_all plan (write_all plan m) = write_all plan m.
Proof.
  apply map_eq. intros path. rewrite !write_all_lookup.
  destruct (last _); reflexivity.
Qed.

(** **** Property X13
    Extracting a capture a second time changes no file: when the run and
    the run after it both end without an error, the second counts the
    entries of the first and leaves every file as the first left it. *)
Theorem second_run_changes_no_file
    reader rootDir rq verbose rq' verbose' allow w count w1 count' w2 :
  processHar url_Parse sys reader rootDir rq false verbose allow w
  = Some (count, None, w1) →
  processHar url_Parse sys reader rootDir rq' false verbose' allow w1
  = Some (count', None, w2) →
  count' = count ∧ files w2 = files w1.
Proof.
  intros H1 H2.
  destruct (same_entries _ _ _ _ _ _ _ _ _ _ _ _ _ _ _ H1 H2)
    as (es & -> & -> & Hr1 & Hr2).
  split; [reflexivity|].
  apply runEntries_real in Hr1, Hr2. rewrite Hr2, Hr1.
  apply write_all_twice.
Qed.

End Preview.

(** ** [safeFileName] on well-formed UTF-8 *)

(** The [first] table on the bytes that start a sequence. *)
Lemma first_lead b :
  0 ≤ b < 256 →
  (0xC2 ≤ b ≤ 0xDF → utf8.first b = utf8.s1)
  ∧ (b = 0xE0 → utf8.first b = utf8.s2)
  ∧ (0xE1 ≤ b ≤ 0xEC → utf8.first b = utf8.s3)
  ∧ (b = 0xED → utf8.first b = utf8.s4)
  ∧ (0xEE ≤ b ≤ 0xEF → utf8.first b = utf8.s3)
  ∧ (b = 0xF0 → utf8.first b = utf8.s5)
  ∧ (0xF1 ≤ b ≤ 0xF3 → utf8.first b = utf8.s6)
  ∧ (b = 0xF4 → utf8.first b = utf8.s7).
Proof.
  intros Hb. unfold utf8.first.
  repeat match goal with
         | |- context [if ?c then _ else _] =>
             lazymatch c with
             | context [if _ then _ else _] => fail
             | _ => destruct c eqn:?
             end
         end;
    bools_to_props; repeat split; intros; first [reflexivity|lia].
Qed.

Lemma in_range b lo hi :
  lo ≤ b ≤ hi → (b <? lo) || (hi <? b) = false.
Proof.
  intros H. apply orb_false_iff. split; apply Z.ltb_ge; lia.
Qed.

Ltac decode_lead H :=
  unfold utf8.DecodeRuneInString;
  cbn [slen String.length Nat.ltb Nat.leb byteAt String.get];
  rewrite H;
  repeat match goal with
         | |- context [utf8.acceptRanges ?x] =>
             let v := eval vm_compute in (utf8.acceptRanges x) in
             change (utf8.acceptRanges x) with v
         | |- context [Z.to_nat (Z.land ?x 7)] =>
             let v := eval vm_compute in (Z.to_nat (Z.land x 7)) in
             change (Z.to_nat (Z.land x 7)) with v
         | |- context [?x >=? utf8.as_] =>
             let v := eval vm_compute in (x >=? utf8.as_) in
             change (x >=? utf8.as_) with v
         end;
  cbv iota beta; unfold utf8.decodeMulti;
  cbn [slen String.length Nat.ltb Nat.leb byteAt String.get];
  unfold utf8.locb, utf8.hicb;
  rewrite ?in_range by lia; reflexivity.

Lemma decode2 a b rest :
  0xC2 ≤ code a ≤ 0xDF → is_cont b = true →
  utf8.DecodeRuneInString (String a (String b rest))
  = (rune2 (code a) (code b), 2%nat).
Proof.
  intros Ha Hb. unfold is_cont in Hb. bools_to_props.
  destruct (first_lead (code a) (code_range a)) as (Hf1 & _).
  specialize (Hf1 Ha). decode_lead Hf1.
Qed.

Lemma decode3 a b c rest :
  lead3 (code a) (code b) = true → is_cont c = true →
  utf8.DecodeRuneInString (String a (String b (String c rest)))
  = (rune3 (code a) (code b) (code c), 3%nat).
Proof.
  intros Hl Hc. unfold is_cont in Hc. unfold lead3 in Hl.
  destruct (first_lead (code a) (code_range a))
    as (_ & Hf2 & Hf3 & Hf4 & Hf5 & _).
  repeat (apply orb_true_iff in Hl as [Hl|Hl]); bools_to_props.
  - specialize (Hf2 ltac:(lia)). decode_lead Hf2.
  - specialize (Hf3 ltac:(lia)). decode_lead Hf3.
  - specialize (Hf4 ltac:(lia)). decode_lead Hf4.
  - specialize (Hf5 ltac:(lia)). decode_lead Hf5.
Qed.

Lemma decode4 a b c d rest :
  lead4 (code a) (code b) = true → is_cont c = true → is_cont d = true →
  utf8.DecodeRuneInString (String a (String b (String c (String d rest))))
  = (rune4 (code a) (code b) (code c) (code d), 4%nat).
Proof.
  intros Hl Hc Hd. unfold is_cont in Hc, Hd. unfold lead4 in Hl.
  destruct (first_lead (code a) (code_range a))
    as (_ & _ & _ & _ & _ & Hf5 & Hf6 & Hf7).
  repeat (apply orb_true_iff in Hl as [Hl|Hl]); bools_to_props.
  - specialize (Hf5 ltac:(lia)). decode_lead Hf5.
  - specialize (Hf6 ltac:(lia)). decode_lead Hf6.
  - specialize (Hf7 ltac:(lia)). decode_lead Hf7.
Qed.

(** The runes as numbers. *)
Lemma rune2_value b0 b1 :
  192 ≤ b0 < 224 → 128 ≤ b1 < 192 →
  rune2 b0 b1 = (b0 - 192) * 64 + (b1 - 128).
Proof.
  intros H0 H1. unfold rune2, utf8.mask2, utf8.maskx.
  change 0x1F with (Z.ones 5). change 0x3F with (Z.ones 6).
  rewrite !Z.land_ones, !Z.shiftl_mul_pow2 by lia.
  change (2 ^ 5) with 32. change (2 ^ 6) with 64.
  replace (b0 mod 32) with (b0 - 192) by (Z.div_mod_to_equations; lia).
  replace (b1 mod 64) with (b1 - 128) by (Z.div_mod_to_equations; lia).
  apply (lor_disjoint_add _ _ 6); [lia|change (2 ^ 6) with 64; lia|].
  change (2 ^ 6) with 64. apply Z.mod_mul. lia.
Qed.

Lemma rune3_value b0 b1 b2 :
  224 ≤ b0 < 240 → 128 ≤ b1 < 192 → 128 ≤ b2 < 192 →
  rune3 b0 b1 b2 = (b0 - 224) * 4096 + (b1 - 128) * 64 + (b2 - 128).
Proof.
  intros H0 H1 H2. unfold rune3, utf8.mask3, utf8.maskx.
  change 0x0F with (Z.ones 4). change 0x3F with (Z.ones 6).
  rewrite !Z.land_ones, !Z.shiftl_mul_pow2 by lia.
  change (2 ^ 4) with 16. change (2 ^ 6) with 64. change (2 ^ 12) with 4096.
  replace (b0 mod 16) with (b0 - 224) by (Z.div_mod_to_equations; lia).
  replace (b1 mod 64) with (b1 - 128) by (Z.div_mod_to_equations; lia).
  replace (b2 mod 64) with (b2 - 128) by (Z.div_mod_to_equations; lia).
  rewrite (lor_disjoint_add ((b0 - 224) * 4096) ((b1 - 128) * 64) 12);
    [|lia|change (2 ^ 12) with 4096; lia
     |change (2 ^ 12) with 4096; apply Z.mod_mul; lia].
  apply (lor_disjoint_add _ _ 6); [lia|change (2 ^ 6) with 64; lia|].
  change (2 ^ 6) with 64. Z.div_mod_to_equations. lia.
Qed.

Lemma rune4_value b0 b1 b2 b3 :
  240 ≤ b0 < 248 → 128 ≤ b1 < 192 → 128 ≤ b2 < 192 → 128 ≤ b3 < 192 →
  rune4 b0 b1 b2 b3
  = (b0 - 240) * 262144 + (b1 - 128) * 4096 + (b2 - 128) * 64 + (b3 - 128).
Proof.
  intros H0 H1 H2 H3. unfold rune4, utf8.mask4, utf8.maskx.
  change 0x07 with (Z.ones 3). change 0x3F with (Z.ones 6).
  rewrite !Z.land_ones, !Z.shiftl_mul_pow2 by lia.
  change (2 ^ 3) with 8. change (2 ^ 6) with 64. change (2 ^ 12) with 4096.
  change (2 ^ 18) with 262144.
  replace (b0 mod 8) with (b0 - 240) by (Z.div_mod_to_equations; lia).
  replace (b1 mod 64) with (b1 - 128) by (Z.div_mod_to_equations; lia).
  replace (b2 mod 64) with (b2 - 128) by (Z.div_mod_to_equations; lia).
  replace (b3 mod 64) with (b3 - 128) by (Z.div_mod_to_equations; lia).
  rewrite (lor_disjoint_add ((b0 - 240) * 262144) ((b1 - 128) * 4096) 18);
    [|lia|change (2 ^ 18) with 262144; lia
     |change (2 ^ 18) with 262144; apply Z.mod_mul; lia].
  rewrite (lor_disjoint_add _ ((b2 - 128) * 64) 12);
    [|lia|change (2 ^ 12) with 4096; lia
     |change (2 ^ 12) with 4096; Z.div_mod_to_equations; lia].
  apply (lor_disjoint_add _ _ 6); [lia|change (2 ^ 6) with 64; lia|].
  change (2 ^ 6) with 64. Z.div_mod_to_equations. lia.
Qed.

(** A leading byte and a continuation byte put together again. *)
Lemma lead_byte m x k :
  0 ≤ k → 0 ≤ x < 2 ^ k → m mod 2 ^ k = 0 → 0 ≤ m → m + 2 ^ k ≤ 256 →
  Z.lor m (utf8.byte x) = m + x.
Proof.
  intros Hk Hx Hm Hm0 Hle. unfold utf8.byte.
  rewrite Z.mod_small by lia. apply (lor_disjoint_add _ _ k); assumption.
Qed.

Lemma cont_byte x :
  0 ≤ x → Z.lor 0x80 (Z.land (utf8.byte x) utf8.maskx) = 128 + x mod 64.
Proof.
  intros Hx. unfold utf8.byte, utf8.maskx. change 0x3F with (Z.ones 6).
  rewrite Z.land_ones by lia. change (2 ^ 6) with 64.
  replace ((x mod 256) mod 64) with (x mod 64)
    by (Z.div_mod_to_equations; lia).
  apply (lor_disjoint_add _ _ 6); [lia| |reflexivity].
  change (2 ^ 6) with 64. apply Z.mod_pos_bound. lia.
Qed.

(** Encoding gives the bytes back. *)
Lemma encode2 b0 b1 :
  0xC2 ≤ b0 ≤ 0xDF → 0x80 ≤ b1 ≤ 0xBF →
  utf8.EncodeRune (rune2 b0 b1) = [b0; b1] ∧ 0x80 ≤ rune2 b0 b1.
Proof.
  intros H0 H1. rewrite rune2_value by lia.
  set (v := (b0 - 192) * 64 + (b1 - 128)).
  assert (Hv : 128 ≤ v < 2048) by (subst v; lia).
  split; [|lia]. unfold utf8.EncodeRune.
  rewrite (Z.mod_small v (2 ^ 32)) by (change (2 ^ 32) with 4294967296; lia).
  destruct (v <=? 127) eqn:E1; [bools_to_props; lia|].
  destruct (v <=? 2047) eqn:E2; [|bools_to_props; lia].
  rewrite Z.shiftr_div_pow2 by lia. change (2 ^ 6) with 64.
  rewrite (lead_byte 0xC0 (v / 64) 5), cont_byte;
    [|lia|lia|change (2 ^ 5) with 32; subst v; Z.div_mod_to_equations; lia
     |reflexivity|lia|change (2 ^ 5) with 32; lia].
  subst v. f_equal; [|f_equal]; Z.div_mod_to_equations; lia.
Qed.

Lemma encode3 b0 b1 b2 :
  lead3 b0 b1 = true → 0x80 ≤ b2 ≤ 0xBF →
  utf8.EncodeRune (rune3 b0 b1 b2) = [b0; b1; b2] ∧ 0x80 ≤ rune3 b0 b1 b2.
Proof.
  intros Hl H2.
  assert (Hv : 224 ≤ b0 < 240 ∧ 128 ≤ b1 < 192
               ∧ 2048 ≤ (b0 - 224) * 4096 + (b1 - 128) * 64 + (b2 - 128)
                 < 65536
               ∧ ¬ (55296 ≤ (b0 - 224) * 4096 + (b1 - 128) * 64 + (b2 - 128)
                    ≤ 57343)).
  { unfold lead3 in Hl.
    repeat (apply orb_true_iff in Hl as [Hl|Hl]); bools_to_props; lia. }
  destruct Hv as (H0 & H1 & Hv & Hsur).
  rewrite rune3_value by lia.
  set (v := (b0 - 224) * 4096 + (b1 - 128) * 64 + (b2 - 128)) in *.
  split; [|lia]. unfold utf8.EncodeRune.
  rewrite (Z.mod_small v (2 ^ 32)) by (change (2 ^ 32) with 4294967296; lia).
  unfold utf8.MaxRune, utf8.surrogateMin, utf8.surrogateMax.
  destruct (v <=? 127) eqn:E1; [bools_to_props; lia|].
  destruct (v <=? 2047) eqn:E2; [bools_to_props; lia|].
  destruct ((1114111 <? v) || ((55296 <=? v) && (v <=? 57343))) eqn:E3.
  { apply orb_true_iff in E3 as [E3|E3]; bools_to_props; lia. }
  destruct (v <=? 65535) eqn:E4; [|bools_to_props; lia].
  unfold utf8.encode3. rewrite !Z.shiftr_div_pow2 by lia.
  change (2 ^ 6) with 64. change (2 ^ 12) with 4096.
  rewrite (lead_byte 0xE0 (v / 4096) 4), !cont_byte;
    [|lia|apply Z.div_pos; lia|lia
     |change (2 ^ 4) with 16; subst v; Z.div_mod_to_equations; lia
     |reflexivity|lia|change (2 ^ 4) with 16; lia].
  subst v. f_equal; [|f_equal; [|f_equal]]; Z.div_mod_to_equations; lia.
Qed.

Lemma encode4 b0 b1 b2 b3 :
  lead4 b0 b1 = true → 0x80 ≤ b2 ≤ 0xBF → 0x80 ≤ b3 ≤ 0xBF →
  utf8.EncodeRune (rune4 b0 b1 b2 b3) = [b0; b1; b2; b3]
  ∧ 0x80 ≤ rune4 b0 b1 b2 b3.
Proof.
  intros Hl H2 H3.
  assert (Hv : 240 ≤ b0 < 248 ∧ 128 ≤ b1 < 192
               ∧ 65536 ≤ (b0 - 240) * 262144 + (b1 - 128) * 4096
                         + (b2 - 128) * 64 + (b3 - 128) ≤ 1114111).
  { unfold lead4 in Hl.
    repeat (apply orb_true_iff in Hl as [Hl|Hl]); bools_to_props; lia. }
  destruct Hv as (H0 & H1 & Hv).
  rewrite rune4_value by lia.
  set (v := (b0 - 240) * 262144 + (b1 - 128) * 4096 + (b2 - 128) * 64
            + (b3 - 128)) in *.
  split; [|lia]. unfold utf8.EncodeRune.
  rewrite (Z.mod_small v (2 ^ 32)) by (change (2 ^ 32) with 4294967296; lia).
  unfold utf8.MaxRune, utf8.surrogateMin, utf8.surrogateMax.
  destruct (v <=? 127) eqn:E1; [bools_to_props; lia|].
  destruct (v <=? 2047) eqn:E2; [bools_to_props; lia|].
  destruct ((1114111 <? v) || ((55296 <=? v) && (v <=? 57343))) eqn:E3.
  { apply orb_true_iff in E3 as [E3|E3]; bools_to_props; lia. }
  destruct (v <=? 65535) eqn:E4; [bools_to_props; lia|].
  rewrite !Z.shiftr_div_pow2 by lia.
  change (2 ^ 6) with 64. change (2 ^ 12) with 4096.
  change (2 ^ 18) with 262144.
  rewrite (lead_byte 0xF0 (v / 262144) 3), !cont_byte;
    [|lia|apply Z.div_pos; lia|apply Z.div_pos; lia|lia
     |change (2 ^ 3) with 8; subst v; Z.div_mod_to_equations; lia
     |reflexivity|lia|change (2 ^ 3) with 8; lia].
  subst v. f_equal; [|f_equal; [|f_equal; [|f_equal]]];
    Z.div_mod_to_equations; lia.
Qed.

Lemma hyphenate_app (a b : string) :
  hyphenate (a +:+ b) = hyphenate a +:+ hyphenate b.
Proof.
  induction a as [|c a IH]; [reflexivity|].
  rewrite string_app_cons. simpl. rewrite IH. reflexivity.
Qed.

Lemma hyphenate_high s : all_high s = true → hyphenate s = s.
Proof.
  induction s as [|c s IH]; [reflexivity|]. simpl. intros H.
  apply andb_true_iff in H as (Hc & Hs). apply Z.leb_le in Hc.
  rewrite (IH Hs). unfold is_slash.
  destruct (code c =? 47) eqn:E1; [bools_to_props; lia|].
  destruct (code c =? 92) eqn:E2; [bools_to_props; lia|]. reflexivity.
Qed.

(** The first rune of a well-formed string that is not empty: an ASCII
    byte, or a rune outside ASCII whose encoding is the bytes it was
    decoded from; what follows it is well-formed. *)
Lemma valid_step s :
  utf8_valid s = true → s ≠ "" →
  ∃ c size,
    utf8.DecodeRuneInString s = (c, size)
    ∧ (1 ≤ size ≤ slen s)%nat
    ∧ utf8_valid (sdrop size s) = true
    ∧ ((size = 1%nat ∧ ∃ a s1, s = String a s1 ∧ code a < 0x80 ∧ c = code a)
       ∨ ((2 ≤ size)%nat ∧ 0x80 ≤ c
          ∧ string_of (utf8.EncodeRune c) = stake size s
          ∧ all_high (stake size s) = true)).
Proof.
  intros Hv Hne. destruct s as [|a s1]; [congruence|]. clear Hne.
  unfold slen. cbn [utf8_valid] in Hv.
  destruct (code a <? 128) eqn:Ha.
  { apply Z.ltb_lt in Ha. exists (code a), 1%nat.
    split; [apply DecodeRune_ascii, Ha|]. split; [simpl; lia|].
    split; [exact Hv|]. left. split; [reflexivity|]. eauto. }
  apply Z.ltb_ge in Ha.
  destruct s1 as [|b s2]; [discriminate|].
  destruct ((194 <=? code a) && (code a <=? 223)) eqn:H2.
  { apply andb_true_iff in Hv as [Hb Hv]. pose proof Hb as Hb'.
    unfold is_cont in Hb'. bools_to_props.
    exists (rune2 (code a) (code b)), 2%nat.
    split; [apply decode2; [lia|exact Hb]|].
    split; [simpl; lia|]. split; [exact Hv|]. right.
    destruct (encode2 (code a) (code b)) as [He Hr]; [lia..|].
    split; [lia|]. split; [exact Hr|]. rewrite He.
    cbn [string_of stake all_high]. rewrite !chr_code.
    split; [reflexivity|].
    rewrite !andb_true_iff, !Z.leb_le. repeat split; lia. }
  destruct s2 as [|c s3]; [discriminate|].
  destruct (lead3 (code a) (code b)) eqn:H3.
  { apply andb_true_iff in Hv as [Hc Hv].
    exists (rune3 (code a) (code b) (code c)), 3%nat.
    split; [apply decode3; assumption|].
    split; [simpl; lia|]. split; [exact Hv|]. right.
    assert (Hb : 128 ≤ code b).
    { unfold lead3 in H3.
      repeat (apply orb_true_iff in H3 as [H3|H3]); bools_to_props; lia. }
    unfold is_cont in Hc. apply andb_true_iff in Hc as [Hc1 Hc2].
    apply Z.leb_le in Hc1, Hc2.
    destruct (encode3 (code a) (code b) (code c)) as [He Hr];
      [assumption|lia|].
    split; [lia|]. split; [exact Hr|]. rewrite He.
    cbn [string_of stake all_high]. rewrite !chr_code.
    split; [reflexivity|].
    rewrite !andb_true_iff, !Z.leb_le. repeat split; lia. }
  destruct s3 as [|d s4]; [discriminate|].
  apply andb_true_iff in Hv as [Hv Hv4]. apply andb_true_iff in Hv as [Hv Hd].
  apply andb_true_iff in Hv as [H4 Hc].
  exists (rune4 (code a) (code b) (code c) (code d)), 4%nat.
  split; [apply decode4; assumption|].
  split; [simpl; lia|]. split; [exact Hv4|]. right.
  assert (Hb : 128 ≤ code b).
  { unfold lead4 in H4.
    repeat (apply orb_true_iff in H4 as [H4|H4]); bools_to_props; lia. }
  unfold is_cont in Hc, Hd.
  apply andb_true_iff in Hc as [Hc1 Hc2]. apply andb_true_iff in Hd as [Hd1 Hd2].
  apply Z.leb_le in Hc1, Hc2, Hd1, Hd2.
  destruct (encode4 (code a) (code b) (code c) (code d)) as [He Hr];
    [assumption|lia|lia|].
  split; [lia|]. split; [exact Hr|]. rewrite He.
  cbn [string_of stake all_high]. rewrite !chr_code.
  split; [reflexivity|].
  rewrite !andb_true_iff, !Z.leb_le. repeat split; lia.
Qed.

(** A rune outside ASCII is kept and written as it is encoded. *)
Lemma mapping_high c : 0x80 ≤ c → safeFileName_mapping c = c.
Proof.
  intros Hc. unfold safeFileName_mapping.
  change (code "/") with 0x2F. change (code "\") with 0x5C.
  destruct (c =? 47) eqn:E1; [bools_to_props; lia|].
  destruct (c =? 92) eqn:E2; [bools_to_props; lia|]. reflexivity.
Qed.

Lemma written_high c :
  0x80 ≤ c → strings.written c = string_of (utf8.EncodeRune c).
Proof.
  intros Hc. unfold strings.written, utf8.RuneSelf.
  destruct (c <? 0) eqn:E1; [bools_to_props; lia|].
  destruct (c <? 128) eqn:E2; [bools_to_props; lia|]. reflexivity.
Qed.

Lemma hyphenate_cut n s :
  hyphenate s = hyphenate (stake n s) +:+ hyphenate (sdrop n s).
Proof. rewrite <- hyphenate_app, stake_sdrop. reflexivity. Qed.

Lemma Map_rest_valid fuel : ∀ s,
  utf8_valid s = true → (slen s ≤ fuel)%nat →
  strings.Map_rest safeFileName_mapping fuel s = hyphenate s.
Proof.
  induction fuel as [|fuel IH]; intros s Hs Hlen.
  { destruct s; [reflexivity|unfold slen in Hlen; simpl in Hlen; lia]. }
  destruct s as [|c0 s1]; [reflexivity|].
  destruct (valid_step (String c0 s1) Hs ltac:(discriminate))
    as (c & size & Hd & Hsize & Hrest & Hcase).
  cbn [strings.Map_rest]. rewrite Hd.
  rewrite IH; [|exact Hrest|rewrite slen_sdrop; lia].
  rewrite (hyphenate_cut size (String c0 s1)). f_equal.
  destruct Hcase as [(-> & a & s' & Heq & Ha & ->)
                    |(H2 & Hc & Henc & Hhigh)].
  - injection Heq as <- <-. pose proof (code_range c0) as Hr0.
    destruct (mapping_ascii c0 Ha) as (Hm & Hr).
    rewrite written_ascii by exact Hr. rewrite Hm, chr_code. reflexivity.
  - rewrite mapping_high, written_high, Henc by exact Hc.
    symmetry. apply hyphenate_high, Hhigh.
Qed.

Lemma Map_first_valid fuel : ∀ pre s,
  utf8_valid s = true → (slen s ≤ fuel)%nat →
  match strings.Map_first safeFileName_mapping fuel pre s with
  | None => hyphenate s = s
  | Some (b, rest) =>
      b +:+ strings.Map_rest safeFileName_mapping (slen rest) rest
      = pre +:+ hyphenate s
  end.
Proof.
  induction fuel as [|fuel IH]; intros pre s Hs Hlen.
  { destruct s; [reflexivity|unfold slen in Hlen; simpl in Hlen; lia]. }
  destruct s as [|c0 s1]; [reflexivity|].
  destruct (valid_step (String c0 s1) Hs ltac:(discriminate))
    as (c & size & Hd & Hsize & Hrest & Hcase).
  rewrite Map_first_step. cbv zeta. rewrite Hd.
  assert (Hkeep :
    match strings.Map_first safeFileName_mapping fuel
            (pre +:+ stake size (String c0 s1)) (sdrop size (String c0 s1))
    with
    | None => hyphenate (sdrop size (String c0 s1))
              = sdrop size (String c0 s1)
    | Some (b, rest) =>
        b +:+ strings.Map_rest safeFileName_mapping (slen rest) rest
        = (pre +:+ stake size (String c0 s1))
          +:+ hyphenate (sdrop size (String c0 s1))
    end)
    by (apply IH; [exact Hrest|rewrite slen_sdrop; lia]).
  assert (Hcont : hyphenate (stake size (String c0 s1))
                  = stake size (String c0 s1) →
    match strings.Map_first safeFileName_mapping fuel
            (pre +:+ stake size (String c0 s1)) (sdrop size (String c0 s1))
    with
    | None => hyphenate (String c0 s1) = String c0 s1
    | Some (b, rest) =>
        b +:+ strings.Map_rest safeFileName_mapping (slen rest) rest
        = pre +:+ hyphenate (String c0 s1)
    end).
  { intros Hsame. rewrite (hyphenate_cut size (String c0 s1)), Hsame.
    destruct (strings.Map_first _ _ _ _) as [[b rest]|].
    - rewrite Hkeep, string_app_assoc. reflexivity.
    - rewrite Hkeep. apply stake_sdrop. }
  destruct Hcase as [(-> & a & s' & Heq & Ha & ->)
                    |(H2 & Hc & Henc & Hhigh)].
  - injection Heq as <- <-. pose proof (code_range c0) as Hr0.
    destruct (mapping_ascii c0 Ha) as (Hm & Hr).
    assert (Herr : (code c0 =? utf8.RuneError) = false)
      by (apply Z.eqb_neq; unfold utf8.RuneError; lia).
    rewrite Herr. cbn [negb]. rewrite andb_true_r.
    destruct (safeFileName_mapping (code c0) =? code c0) eqn:Hsame.
    + apply Hcont. apply Z.eqb_eq in Hsame.
      cbn [stake hyphenate]. f_equal.
      rewrite Hm in Hsame. apply (f_equal chr) in Hsame.
      rewrite !chr_code in Hsame. exact Hsame.
    + rewrite RuneLen_ascii by lia.
      cbn [Z.to_nat Pos.to_nat Pos.iter_op Nat.add sdrop].
      destruct (0 <=? safeFileName_mapping (code c0)) eqn:Hpos;
        [|bools_to_props; lia].
      rewrite encoded_ascii by exact Hr. rewrite Hm, chr_code.
      cbn [hyphenate].
      rewrite string_app_assoc, string_app_cons, string_app_nil_l.
      cbn [sdrop] in Hrest.
      rewrite Map_rest_valid by (exact Hrest || lia). reflexivity.
  - rewrite (mapping_high c Hc), Z.eqb_refl. cbn [andb].
    destruct (c =? utf8.RuneError) eqn:Herr; cbn [negb].
    + assert (Hw : (size =? 1)%nat = false) by (apply Nat.eqb_neq; lia).
      rewrite Hw. cbn [negb andb].
      apply Hcont, hyphenate_high, Hhigh.
    + apply Hcont, hyphenate_high, Hhigh.
Qed.

(** **** Property X14
    On a path that is well-formed UTF-8 [safeFileName] replaces every
    slash and backslash by a hyphen and keeps every other byte: the name
    has the length of the path, and a path without a slash or a backslash
    is its own name. *)
Theorem safeFileName_utf8 s :
  utf8_valid s = true →
  safeFileName s = hyphenate s
  ∧ slen (safeFileName s) = slen s
  ∧ (has_slash s = false → safeFileName s = s).
Proof.
  intros Hs.
  assert (H : safeFileName s = hyphenate s).
  { unfold safeFileName, strings.Map.
    pose proof (Map_first_valid (slen s) "" s Hs (le_n _)) as H.
    destruct (strings.Map_first _ _ _ _) as [[b rest]|].
    - rewrite H. reflexivity.
    - symmetry. exact H. }
  rewrite H. split; [reflexivity|]. split.
  - clear. unfold slen. induction s as [|c s IH]; [reflexivity|].
    simpl. rewrite IH. reflexivity.
  - clear. induction s as [|c s IH]; [reflexivity|]. simpl. intros Hno.
    apply orb_false_iff in Hno as [Hc Hno]. rewrite Hc, (IH Hno).
    reflexivity.
Qed.

(** ** The members of an entry that the program does not know *)

Lemma saveError_None saved : json.saveError saved None = saved.
Proof. destruct saved; reflexivity. Qed.

(** The members that [member] leaves alone can be left out of the
    object. *)
Lemma storeStruct_known {A : Type}
    (member : string → JValue → A → A * option error) names :
  (∀ k x a, known names (k, x) = false → member k x a = (a, None)) →
  ∀ kvs old,
    json.storeStruct member (JObj kvs) old
    = json.storeStruct member (JObj (List.filter (known names) kvs)) old.
Proof.
  intros Hskip kvs old. unfold json.storeStruct.
  generalize (old, @None error) as acc.
  induction kvs as [|[k x] kvs IH]; intros acc; [reflexivity|].
  cbn [fold_left List.filter]. destruct (known names (k, x)) eqn:Hk.
  - cbn [fold_left]. apply IH.
  - rewrite <- IH. f_equal. destruct acc as [a saved].
    rewrite (Hskip k x a Hk), saveError_None. reflexivity.
Qed.

(** **** Property X15
    An entry is decoded from the members [request] and [response] of its
    object, a request from [method] and [url], a response from [status]
    and [content], a content from [size], [mimeType], [text],
    [compression] and [encoding] (the names compared without regard to
    case): every other member is left out, whatever its value. *)
Theorem unknown_members_are_ignored kvs :
  (∀ en, json.unmarshalEntry (JObj kvs) en
         = json.unmarshalEntry
             (JObj (List.filter (known ["request"; "response"]) kvs)) en)
  ∧ (∀ r, json.storeStruct json.memberRequest (JObj kvs) r
          = json.storeStruct json.memberRequest
              (JObj (List.filter (known ["method"; "url"]) kvs)) r)
  ∧ (∀ r, json.storeStruct json.memberResponse (JObj kvs) r
          = json.storeStruct json.memberResponse
              (JObj (List.filter (known ["status"; "content"]) kvs)) r)
  ∧ (∀ c, json.storeStruct json.memberContent (JObj kvs) c
          = json.storeStruct json.memberContent
              (JObj (List.filter
                       (known ["size"; "mimeType"; "text"; "compression";
                               "encoding"]) kvs)) c).
Proof.
  repeat split; intros a; apply storeStruct_known; clear;
    intros k x a H; unfold known in H; cbn [existsb fst] in H;
    repeat (apply orb_false_iff in H as [? H]).
  - unfold json.memberEntry.
    repeat match goal with Hf : json.isField k _ = false |- _ =>
             rewrite Hf; clear Hf end.
    reflexivity.
  - unfold json.memberRequest.
    repeat match goal with Hf : json.isField k _ = false |- _ =>
             rewrite Hf; clear Hf end.
    reflexivity.
  - unfold json.memberResponse.
    repeat match goal with Hf : json.isField k _ = false |- _ =>
             rewrite Hf; clear Hf end.
    reflexivity.
  - unfold json.memberContent.
    repeat match goal with Hf : json.isField k _ = false |- _ =>
             rewrite Hf; clear Hf end.
    reflexivity.
Qed.

(** ** [strings.Split] and the allowlist of [main] *)

Lemma slen_app (a b : string) : slen (a +:+ b) = (slen a + slen b)%nat.
Proof.
  unfold slen. induction a as [|c a IH]; [reflexivity|].
  rewrite string_app_cons. simpl. rewrite IH. reflexivity.
Qed.

Lemma HasPrefix_spec s prefix :
  strings.HasPrefix s prefix = true →
  s = prefix +:+ sdrop (slen prefix) s.
Proof.
  revert s. induction prefix as [|a p IH]; intros s H; [reflexivity|].
  destruct s as [|b s]; [discriminate|]. simpl in H.
  apply andb_true_iff in H as [Hab Hp]. apply bool_decide_eq_true in Hab.
  subst b. rewrite string_app_cons. simpl. f_equal. apply IH, Hp.
Qed.

Lemma HasPrefix_stake n s prefix :
  strings.HasPrefix (stake n s) prefix = true →
  strings.HasPrefix s prefix = true.
Proof.
  revert n s. induction prefix as [|a p IH]; intros n s H;
    [destruct s; reflexivity|].
  destruct n as [|n]; [discriminate|]. destruct s as [|b s]; [discriminate|].
  simpl in H |- *. apply andb_true_iff in H as [Hab Hp].
  rewrite Hab. simpl. eapply IH, Hp.
Qed.

Lemma Index_unfold s substr :
  strings.Index s substr =
  if strings.HasPrefix s substr then Some 0%nat
  else
    match s with
    | EmptyString => None
    | String _ s' => option_map S (strings.Index s' substr)
    end.
Proof. destruct s; reflexivity. Qed.

(** [Index] finds an instance: the string is what is before it, the
    instance, and what is after it. *)
Lemma Index_found s substr m :
  strings.Index s substr = Some m →
  s = stake m s +:+ substr +:+ sdrop (m + slen substr) s.
Proof.
  revert m. induction s as [|c s IH]; intros m H; rewrite Index_unfold in H.
  - destruct (strings.HasPrefix "" substr) eqn:Hp; [|discriminate].
    injection H as <-. apply HasPrefix_spec in Hp. exact Hp.
  - destruct (strings.HasPrefix (String c s) substr) eqn:Hp.
    + injection H as <-. apply HasPrefix_spec in Hp. exact Hp.
    + destruct (strings.Index s substr) as [m'|] eqn:Hi; [|discriminate].
      injection H as <-. simpl. rewrite string_app_cons. f_equal.
      apply IH. reflexivity.
Qed.

(** It finds the first one: there is none before it. *)
Lemma Index_first s substr m :
  substr ≠ "" →
  strings.Index s substr = Some m →
  strings.Index (stake m s) substr = None.
Proof.
  intros Hne. revert m.
  induction s as [|c s IH]; intros m H; rewrite Index_unfold in H.
  - destruct substr; [congruence|]. discriminate.
  - destruct (strings.HasPrefix (String c s) substr) eqn:Hp.
    + injection H as <-. destruct substr; [congruence|]. reflexivity.
    + destruct (strings.Index s substr) as [m'|] eqn:Hi; [|discriminate].
      injection H as <-. simpl stake. rewrite Index_unfold.
      destruct (strings.HasPrefix (String c (stake m' s)) substr) eqn:Hp'.
      * apply (HasPrefix_stake (S m') (String c s)) in Hp'. congruence.
      * rewrite (IH m' eq_refl). reflexivity.
Qed.

Lemma HasPrefix_len s prefix :
  strings.HasPrefix s prefix = true → (slen prefix ≤ slen s)%nat.
Proof.
  unfold slen. revert s. induction prefix as [|a p IH]; intros s H;
    [simpl; lia|].
  destruct s as [|b s]; [discriminate|]. simpl in H |- *.
  apply andb_true_iff in H as [_ Hp]. apply IH in Hp. lia.
Qed.

Lemma Index_bound s substr m :
  strings.Index s substr = Some m → (m + slen substr ≤ slen s)%nat.
Proof.
  revert m. induction s as [|c s IH]; intros m H; rewrite Index_unfold in H.
  - destruct (strings.HasPrefix "" substr) eqn:Hp; [|discriminate].
    injection H as <-. apply HasPrefix_len in Hp. exact Hp.
  - destruct (strings.HasPrefix (String c s) substr) eqn:Hp.
    + injection H as <-. apply HasPrefix_len in Hp. exact Hp.
    + destruct (strings.Index s substr) as [m'|] eqn:Hi; [|discriminate].
      injection H as <-. specialize (IH m' eq_refl).
      unfold slen in *. simpl. lia.
Qed.

Lemma genSplit_loop_nonempty k s sep sepSave :
  strings.genSplit_loop k s sep sepSave ≠ [].
Proof.
  destruct k; simpl; [discriminate|].
  destruct (strings.Index s sep); discriminate.
Qed.

(** The pieces put together again with the separator are the string,
    however many cuts are made. *)
Lemma genSplit_loop_Join sep k : ∀ s,
  strings_Join (strings.genSplit_loop k s sep 0) sep = s.
Proof.
  induction k as [|k IH]; intros s; [reflexivity|].
  simpl. destruct (strings.Index s sep) as [m|] eqn:Hi; [|reflexivity].
  rewrite Nat.add_0_r.
  pose proof (genSplit_loop_nonempty k (sdrop (m + slen sep) s) sep 0) as Hne.
  specialize (IH (sdrop (m + slen sep) s)).
  destruct (strings.genSplit_loop k _ sep 0) as [|p l]; [congruence|].
  change (strings_Join (stake m s :: p :: l) sep)
    with (stake m s +:+ sep +:+ strings_Join (p :: l) sep).
  rewrite IH. symmetry. apply Index_found, Hi.
Qed.

Lemma Count_loop_acc sep fuel : ∀ s n,
  strings.Count_loop fuel s sep n
  = (n + strings.Count_loop fuel s sep 0)%nat.
Proof.
  induction fuel as [|fuel IH]; intros s n; simpl; [lia|].
  destruct (strings.Index s sep) as [i|]; [|lia].
  rewrite (IH _ (S n)), (IH _ 1%nat). lia.
Qed.

(** With as many cuts as [Count] says, no piece has an instance of the
    separator. *)
Lemma genSplit_loop_pieces sep k :
  sep ≠ "" →
  ∀ fuel s,
    (slen s < fuel)%nat →
    (strings.Count_loop fuel s sep 0 ≤ k)%nat →
    Forall (fun p => strings.Index p sep = None)
      (strings.genSplit_loop k s sep 0).
Proof.
  intros Hne.
  assert (Hsep : (1 ≤ slen sep)%nat).
  { destruct sep; [congruence|]. unfold slen. simpl. lia. }
  induction k as [|k IH]; intros fuel s Hfuel Hcount.
  - destruct fuel as [|fuel]; [lia|]. simpl in Hcount |- *.
    destruct (strings.Index s sep) as [i|] eqn:Hi.
    + rewrite Count_loop_acc in Hcount. lia.
    + constructor; [exact Hi|constructor].
  - destruct fuel as [|fuel]; [lia|]. simpl in Hcount |- *.
    destruct (strings.Index s sep) as [i|] eqn:Hi.
    + rewrite Nat.add_0_r. constructor; [apply Index_first; assumption|].
      apply (IH fuel).
      * rewrite slen_sdrop. apply Index_bound in Hi. lia.
      * rewrite Count_loop_acc in Hcount. lia.
    + constructor; [exact Hi|constructor].
Qed.

Lemma Count_loop_bound sep :
  sep ≠ "" →
  ∀ fuel s, (strings.Count_loop fuel s sep 0 ≤ slen s)%nat.
Proof.
  intros Hne.
  assert (Hsep : (1 ≤ slen sep)%nat).
  { destruct sep; [congruence|]. unfold slen. simpl. lia. }
  induction fuel as [|fuel IH]; intros s; simpl; [lia|].
  destruct (strings.Index s sep) as [i|] eqn:Hi; [|lia].
  rewrite Count_loop_acc. specialize (IH (sdrop (i + slen sep) s)).
  rewrite slen_sdrop in IH. apply Index_bound in Hi. lia.
Qed.

(** [Split] with a separator that is not empty is the loop with [Count]
    cuts. *)
Lemma Split_loop s sep :
  sep ≠ "" →
  strings.Split s sep
  = strings.genSplit_loop (strings.Count s sep) s sep 0.
Proof.
  intros Hne. unfold strings.Split, strings.genSplit.
  unfold seqb. rewrite bool_decide_eq_false_2 by exact Hne.
  change (-1 =? 0) with false. change (-1 <? 0) with true. cbv iota.
  assert (Hc : (strings.Count s sep ≤ slen s)%nat).
  { unfold strings.Count. destruct (slen sep =? 0)%nat eqn:Hz.
    - apply Nat.eqb_eq in Hz. destruct sep; [congruence|discriminate].
    - apply Count_loop_bound, Hne. }
  destruct (Z.of_nat (slen s) + 1 <? Z.of_nat (strings.Count s sep) + 1)
    eqn:Hcap; [apply Z.ltb_lt in Hcap; lia|].
  f_equal. lia.
Qed.

(** **** Property X16
    [strings.Split] with a separator that is not empty cuts the string at
    every instance of the separator: the pieces put together again with
    the separator are the string, there is at least one piece, and no
    piece has an instance of the separator. *)
Theorem Split_pieces s sep :
  sep ≠ "" →
  strings_Join (strings.Split s sep) sep = s
  ∧ strings.Split s sep ≠ []
  ∧ Forall (fun p => strings.Index p sep = None) (strings.Split s sep).
Proof.
  intros Hne. rewrite Split_loop by exact Hne.
  split; [apply genSplit_loop_Join|]. split.
  - apply genSplit_loop_nonempty.
  - unfold strings.Count. destruct (slen sep =? 0)%nat eqn:Hz.
    { apply Nat.eqb_eq in Hz. destruct sep; [congruence|discriminate]. }
    apply (genSplit_loop_pieces sep _ Hne (S (slen s))); lia.
Qed.

Lemma allowlist_lookup (l : list string) : ∀ (m : gmap string bool) host,
  fold_left (fun m host => <[host := true]> m) l m !! host
  = if bool_decide (host ∈ l) then Some true else m !! host.
Proof.
  induction l as [|a l IH]; intros m host; [reflexivity|].
  cbn [fold_left]. rewrite IH.
  destruct (decide (host ∈ l)) as [Hin|Hnin].
  - rewrite !bool_decide_eq_true_2; [reflexivity| |exact Hin].
    apply list_elem_of_further, Hin.
  - rewrite (bool_decide_eq_false_2 (host ∈ l)) by exact Hnin.
    destruct (decide (host = a)) as [->|Hne].
    + rewrite lookup_insert_eq, bool_decide_eq_true_2; [reflexivity|].
      apply list_elem_of_here.
    + rewrite lookup_insert_ne by congruence.
      rewrite bool_decide_eq_false_2; [reflexivity|].
      intros Hin. apply elem_of_cons in Hin as [?|?]; contradiction.
Qed.

Lemma allowlist_size (l : list string) : ∀ (m : gmap string bool),
  (size m ≤ size (fold_left (fun m host => <[host := true]> m) l m))%nat.
Proof.
  induction l as [|a l IH]; intros m; simpl; [lia|].
  etrans; [|apply IH].
  destruct (m !! a) as [b|] eqn:Ha.
  - rewrite <- (insert_delete_id m a b Ha) at 1.
    rewrite <- (insert_delete_eq m). rewrite !map_size_insert_None; [lia|..];
      apply lookup_delete_eq.
  - rewrite map_size_insert_None by exact Ha. lia.
Qed.

(** **** Property X17
    The allowlist of [main] is made of the pieces of the option between
    commas, as they are: with the empty option no entry is left out;
    otherwise an entry is left out exactly when the host of its URL is
    none of the pieces. *)
Theorem allowlist_is_the_comma_pieces hostAllowlistStr u :
  skipped (hostAllowlist_of hostAllowlistStr) u = true
  ↔ hostAllowlistStr ≠ "" ∧ Host u ∉ strings.Split hostAllowlistStr ",".
Proof.
  unfold skipped, hostAllowlist_of, allowed, seqb.
  destruct (decide (hostAllowlistStr = "")) as [->|Hne].
  - rewrite bool_decide_eq_true_2 by reflexivity. simpl.
    split; [discriminate|]. intros [H _]. congruence.
  - rewrite bool_decide_eq_false_2 by exact Hne. simpl.
    rewrite allowlist_lookup, lookup_empty.
    assert (Hsize : (0 <? size (fold_left (fun m host => <[host := true]> m)
                               (strings.Split hostAllowlistStr ",")
                               (∅ : gmap string bool)))%nat
                    = true).
    { apply Nat.ltb_lt.
      pose proof (genSplit_loop_nonempty
                    (strings.Count hostAllowlistStr ",") hostAllowlistStr
                    "," 0) as Hnil.
      rewrite <- Split_loop in Hnil by discriminate.
      destruct (strings.Split hostAllowlistStr ",") as [|a l];
        [congruence|]. simpl.
      eapply Nat.lt_le_trans; [|apply allowlist_size].
      rewrite map_size_insert_None by apply lookup_empty. lia. }
    rewrite Hsize. simpl.
    destruct (decide (Host u ∈ strings.Split hostAllowlistStr ","))
      as [Hin|Hnin].
    + rewrite bool_decide_eq_true_2 by exact Hin. simpl.
      split; [discriminate|]. intros [_ H]. contradiction.
    + rewrite bool_decide_eq_false_2 by exact Hnin. simpl.
      split; [auto|reflexivity].
Qed.

(** ** The flags *)

(** A flag that is seen uses up an argument. *)
Lemma parseOne_shrinks v args v' args' :
  flag.parseOne v args = flag.Seen v' args' →
  (length args' < length args)%nat.
Proof.
  unfold flag.parseOne. intros H.
  repeat match type of H with
         | context [match ?x with _ => _ end] =>
             lazymatch x with
             | context [match _ with _ => _ end] => fail
             | _ => destruct x eqn:?
             end
         end;
    try discriminate; injection H as _ <-; simpl; lia.
Qed.

Lemma Parse_loop_returns fuel : ∀ v args,
  (length args < fuel)%nat → is_Some (flag.Parse_loop fuel v args).
Proof.
  induction fuel as [|fuel IH]; intros v args Hlt; [lia|].
  simpl. destruct (flag.parseOne v args) as [v' args'| |] eqn:Hp; [|eauto..].
  apply parseOne_shrinks in Hp. apply IH. lia.
Qed.

(** [flag.Parse] returns on all arguments. *)
Lemma Parse_returns args : is_Some (flag.Parse args).
Proof. apply Parse_loop_returns. lia. Qed.

(** It ends the command with the status 0 or 2 only. *)
Lemma Parse_loop_exit fuel : ∀ v args code,
  flag.Parse_loop fuel v args = Some (flag.Exit code) → code = 0 ∨ code = 2.
Proof.
  induction fuel as [|fuel IH]; intros v args code H; [discriminate|].
  simpl in H. destruct (flag.parseOne v args) as [v' args'| |help].
  - eapply IH, H.
  - discriminate.
  - injection H as <-. destruct help; auto.
Qed.

(** Settings that differ in the query option only are parsed alike. *)
Lemma parseOne_query v v' args :
  same_but_query v v' →
  match flag.parseOne v args, flag.parseOne v' args with
  | flag.Seen a r, flag.Seen a' r' => same_but_query a a' ∧ r = r'
  | flag.Over r, flag.Over r' => r = r'
  | flag.Refused h, flag.Refused h' => h = h'
  | _, _ => False
  end.
Proof.
  intros (Ho & Hd & Hv & Hh). unfold flag.parseOne.
  destruct args as [|s rest]; [exact eq_refl|].
  destruct (_ || _); [exact eq_refl|].
  destruct (_ && _); [exact eq_refl|].
  destruct (sdrop _ s) as [|c name']; [exact eq_refl|].
  destruct (_ || _); [exact eq_refl|].
  destruct (flag.cut_value name') as [tail value].
  unfold flag.formal.
  repeat (destruct (seqb (String c tail) _); [
    destruct value as [x|];
      [try destruct (flag.ParseBool x)|try destruct rest as [|y rest']];
    first [ exact eq_refl
          | split; [|reflexivity]; repeat split; simpl; assumption ] |]).
  exact eq_refl.
Qed.

Lemma Parse_loop_query fuel : ∀ v v' args,
  same_but_query v v' →
  match flag.Parse_loop fuel v args, flag.Parse_loop fuel v' args with
  | Some (flag.Parsed a r), Some (flag.Parsed a' r') =>
      same_but_query a a' ∧ r = r'
  | Some (flag.Exit c), Some (flag.Exit c') => c = c'
  | None, None => True
  | _, _ => False
  end.
Proof.
  induction fuel as [|fuel IH]; intros v v' args Hv; [exact I|].
  simpl. pose proof (parseOne_query v v' args Hv) as Hp.
  destruct (flag.parseOne v args) as [a r|r|h],
           (flag.parseOne v' args) as [a' r'|r'|h']; try contradiction.
  - destruct Hp as [Ha <-]. apply IH, Ha.
  - subst r'. split; [exact Hv|reflexivity].
  - subst h'. reflexivity.
Qed.

(** ** [main] *)

Section MainProperties.

Context (url_Parse : string → url_URL + error) (sys : Faults).
Context (os_Open : World → string → list lexeme + error).
Context (Error : error → string).

Lemma processFile_returns v allow harFilePath w :
  is_Some (processFile url_Parse sys os_Open Error v allow harFilePath w).
Proof.
  unfold processFile. destruct (os_Open w harFilePath) as [reader|e];
    [|eauto].
  destruct (processHar_returns url_Parse sys reader (flag.output v)
              (flag.removeQueryString v) (flag.dryRun v) (flag.verbose v)
              allow w) as [[[count [e|]] w'] ->]; eauto.
Qed.

Lemma processFiles_returns v allow args : ∀ w,
  is_Some (processFiles url_Parse sys os_Open Error v allow args w).
Proof.
  induction args as [|a args IH]; intros w; simpl; [eauto|].
  destruct (processFile_returns v allow a w) as [w' ->]. apply IH.
Qed.

(** **** Property X18
    [main] returns on all arguments, with the status 0 or 2 and nothing
    done when the flags are refused, with the status 1 and one line
    printed when no capture is named, and otherwise with the status 0,
    whether the captures could be opened and processed or not. *)
Theorem main_exit_status args w :
  ∃ w' code,
    main url_Parse sys os_Open Error args w = Some (w', code)
    ∧ match flag.Parse args with
      | Some (flag.Exit c) => code = c ∧ (c = 0 ∨ c = 2) ∧ w' = w
      | Some (flag.Parsed _ []) => code = 1 ∧ w' = fmt_Print w usage_line
      | Some (flag.Parsed _ (_ :: _)) => code = 0
      | None => False
      end.
Proof.
  unfold main. destruct (Parse_returns args) as [[v files|c] Hp]; rewrite Hp.
  - destruct files as [|a files].
    + eexists _, _. split; [reflexivity|]. split; reflexivity.
    + cbn [length Nat.eqb].
      destruct (processFiles_returns v
                  (hostAllowlist_of (flag.hostAllowlistStr v)) (a :: files) w)
        as [w' ->].
      eexists _, _. split; reflexivity.
  - eexists _, _. split; [reflexivity|]. split; [reflexivity|].
    split; [|reflexivity]. eapply Parse_loop_exit, Hp.
Qed.

Lemma same_fs_Print w s : same_fs w (fmt_Print w s).
Proof. repeat split. Qed.

Lemma processFile_dryRun v allow harFilePath w w' :
  flag.dryRun v = true →
  processFile url_Parse sys os_Open Error v allow harFilePath w = Some w' →
  same_fs w w'.
Proof.
  unfold processFile. intros Hdry H. rewrite Hdry in H.
  destruct (os_Open w harFilePath) as [reader|e].
  - destruct (processHar _ _ _ _ _ _ _ _ _) as [[[count err] w1]|] eqn:Hh;
      [|discriminate].
    apply processHar_dryRun in Hh.
    destruct err; injection H as <-;
      (eapply same_fs_trans; [exact Hh|apply same_fs_Print]).
  - injection H as <-. apply same_fs_Println.
Qed.

Lemma processFiles_dryRun v allow args : ∀ w w',
  flag.dryRun v = true →
  processFiles url_Parse sys os_Open Error v allow args w = Some w' →
  same_fs w w'.
Proof.
  induction args as [|a args IH]; intros w w' Hdry H; simpl in H.
  - injection H as <-. apply same_fs_refl.
  - destruct (processFile _ _ _ _ _ _ _ _) as [w1|] eqn:Hf; [|discriminate].
    apply processFile_dryRun in Hf; [|exact Hdry].
    eapply same_fs_trans; [exact Hf|]. eapply IH; eassumption.
Qed.

(** **** Property X19
    With the flag [-dry-run] the command as a whole leaves the file system
    as it is, however many captures it is given and whatever they hold. *)
Theorem main_dry_run_writes_nothing args w v files w' code :
  flag.Parse args = Some (flag.Parsed v files) →
  flag.dryRun v = true →
  main url_Parse sys os_Open Error args w = Some (w', code) →
  same_fs w w'.
Proof.
  unfold main. intros -> Hdry H.
  destruct (length files =? 0)%nat.
  - injection H as <- _. apply same_fs_Print.
  - destruct (processFiles _ _ _ _ _ _ _ _) as [w1|] eqn:Hf; [|discriminate].
    injection H as <- _. eapply processFiles_dryRun; eassumption.
Qed.

(** Without [-verbose] a capture costs one line. *)
Lemma processFile_quiet v allow harFilePath w w' :
  flag.verbose v = false →
  processFile url_Parse sys os_Open Error v allow harFilePath w = Some w' →
  ∃ line, stdout w' = stdout w ++ [line].
Proof.
  unfold processFile. intros Hq H. rewrite Hq in H.
  destruct (os_Open w harFilePath) as [reader|e].
  - destruct (processHar _ _ _ _ _ _ _ _ _) as [[[count err] w1]|] eqn:Hh;
      [|discriminate].
    apply processHar_har_frame in Hh as (_ & _ & Hs & _).
    specialize (Hs eq_refl).
    destruct err; injection H as <-; simpl; rewrite Hs; eauto.
  - injection H as <-. simpl. eauto.
Qed.

(** **** Property X20
    Without the flag [-verbose] the command prints one line for each
    capture it is given, and nothing else. *)
Theorem main_reports_each_capture args w v files w' code :
  flag.Parse args = Some (flag.Parsed v files) →
  flag.verbose v = false →
  files ≠ [] →
  main url_Parse sys os_Open Error args w = Some (w', code) →
  ∃ lines, stdout w' = stdout w ++ lines ∧ length lines = length files.
Proof.
  unfold main. intros -> Hq Hne H.
  destruct files as [|a files]; [congruence|]. cbn [length Nat.eqb] in H.
  destruct (processFiles _ _ _ _ _ _ _ _) as [w1|] eqn:Hf; [|discriminate].
  injection H as <- _. clear Hne. revert Hf.
  generalize (a :: files) as l. clear a files. intros l. revert w.
  induction l as [|a l IH]; intros w Hf; simpl in Hf.
  - injection Hf as <-. exists []. rewrite app_nil_r. auto.
  - destruct (processFile _ _ _ _ _ _ _ _) as [w2|] eqn:Hp; [|discriminate].
    apply processFile_quiet in Hp as [line Hline]; [|exact Hq].
    apply IH in Hf as (lines & Hlines & Hlen).
    exists (line :: lines). simpl. rewrite Hlines, Hline, <- app_assoc.
    auto.
Qed.

Lemma processHar_query rq rq' reader rootDir dryRun verbose allow w :
  processHar url_Parse sys reader rootDir rq dryRun verbose allow w =
  processHar url_Parse sys reader rootDir rq' dryRun verbose allow w.
Proof.
  destruct rq, rq'; try reflexivity;
    [|symmetry]; apply processHar_RawQuery.
Qed.

Lemma processFiles_query v v' allow args : ∀ w,
  same_but_query v v' →
  processFiles url_Parse sys os_Open Error v allow args w
  = processFiles url_Parse sys os_Open Error v' allow args w.
Proof.
  intros w (Ho & Hd & Hv & _). revert w.
  induction args as [|a args IH]; intros w; [reflexivity|].
  simpl. unfold processFile.
  destruct (os_Open w a) as [reader|e]; [|apply IH].
  rewrite Ho, Hd, Hv.
  rewrite (processHar_query (flag.removeQueryString v)
             (flag.removeQueryString v')).
  destruct (processHar _ _ _ _ _ _ _ _ _) as [[[count [e|]] w1]|];
    [apply IH..|reflexivity].
Qed.

(** **** Property X21
    The flags [-r] and [-remove-query-string] are accepted and change
    nothing: the command does the same with and without them. *)
Theorem main_ignores_remove_query_string args w :
  main url_Parse sys os_Open Error ("-r" :: args) w
  = main url_Parse sys os_Open Error args w
  ∧ main url_Parse sys os_Open Error ("-remove-query-string" :: args) w
    = main url_Parse sys os_Open Error args w.
Proof.
  assert (Hq : same_but_query
                 (flag.set_removeQueryString true flag.defaults)
                 flag.defaults) by (repeat split).
  assert (Hmain : ∀ o o',
    match o, o' with
    | Some (flag.Parsed a r), Some (flag.Parsed a' r') =>
        same_but_query a a' ∧ r = r'
    | Some (flag.Exit c), Some (flag.Exit c') => c = c'
    | None, None => True
    | _, _ => False
    end →
    match o with
    | None => None
    | Some (flag.Exit code) => Some (w, code)
    | Some (flag.Parsed v args) =>
        if (length args =? 0)%nat then
          Some (fmt_Print w
                  ("Please provide at least one HAR file to process"
                   +:+ newline), 1)
        else
          match processFiles url_Parse sys os_Open Error v
                  (hostAllowlist_of (flag.hostAllowlistStr v)) args w with
          | Some w' => Some (w', 0)
          | None => None
          end
    end =
    match o' with
    | None => None
    | Some (flag.Exit code) => Some (w, code)
    | Some (flag.Parsed v args) =>
        if (length args =? 0)%nat then
          Some (fmt_Print w
                  ("Please provide at least one HAR file to process"
                   +:+ newline), 1)
        else
          match processFiles url_Parse sys os_Open Error v
                  (hostAllowlist_of (flag.hostAllowlistStr v)) args w with
          | Some w' => Some (w', 0)
          | None => None
          end
    end).
  { intros [[a r|c]|] [[a' r'|c']|] H; try contradiction; try reflexivity.
    - destruct H as [Ha <-]. destruct (length r =? 0)%nat; [reflexivity|].
      pose proof Ha as (_ & _ & _ & Hh). rewrite Hh.
      rewrite (processFiles_query a a' _ _ _ Ha). reflexivity.
    - subst c'. reflexivity. }
  split; apply Hmain;
    apply (Parse_loop_query (S (length args)) _ _ args Hq).
Qed.

End MainProperties.

(** ** [filepath.Clean], element by element *)

Lemma component_fields p :
  ∃ fs, fields p = fst (filepath.component p) :: fs
        ∧ fields (snd (filepath.component p)) = "" :: fs.
Proof.
  induction p as [|c p IH]; [exists []; split; reflexivity|].
  simpl. destruct (filepath.is_sep c) eqn:Hc.
  - exists (fields p). simpl. rewrite Hc. split; reflexivity.
  - destruct IH as (fs & Hf & Hr).
    destruct (filepath.component p) as [a b]. simpl in *.
    exists fs. rewrite Hf. split; [reflexivity|exact Hr].
Qed.

Lemma component_rest_shrinks c p :
  filepath.is_sep c = false →
  (slen (snd (filepath.component (String c p))) ≤ slen p)%nat.
Proof.
  intros Hc. simpl. rewrite Hc.
  destruct (filepath.component p) as [a b] eqn:Hp. simpl.
  apply component_shrinks in Hp. exact Hp.
Qed.

Lemma component_end_or_sep p :
  filepath.end_or_sep p = true → filepath.component p = ("", p).
Proof.
  destruct p as [|c p]; [reflexivity|]. simpl. intros ->. reflexivity.
Qed.

Lemma component_not_end p :
  filepath.end_or_sep p = false →
  ∃ c a, fst (filepath.component p) = String c a.
Proof.
  destruct p as [|c p]; [discriminate|]. simpl. intros ->.
  destruct (filepath.component p) as [a b]. eauto.
Qed.

(** The tests of the loop on the first bytes of the path are tests on its
    first element. *)
Lemma dot_test c p1 :
  filepath.is_sep c = false →
  bool_decide (c = "."%char) && filepath.end_or_sep p1
  = seqb (fst (filepath.component (String c p1))) "."
  ∧ (bool_decide (c = "."%char) && filepath.end_or_sep p1 = true →
     snd (filepath.component (String c p1)) = p1).
Proof.
  intros Hc. simpl. rewrite Hc. unfold seqb.
  destruct (filepath.end_or_sep p1) eqn:He.
  - rewrite (component_end_or_sep p1 He). simpl. rewrite andb_true_r.
    split; [|reflexivity].
    destruct (decide (c = "."%char)) as [->|Hne].
    + rewrite !bool_decide_eq_true_2; reflexivity.
    + rewrite !bool_decide_eq_false_2; [reflexivity|congruence|exact Hne].
  - rewrite andb_false_r. split; [|discriminate].
    destruct (component_not_end p1 He) as (c' & a & Ha).
    destruct (filepath.component p1) as [x y]. simpl in *. subst x.
    rewrite bool_decide_eq_false_2; [reflexivity|discriminate].
Qed.

Lemma dotdot_test c p1 :
  filepath.is_sep c = false →
  bool_decide (c = "."%char) && filepath.starts_dot p1
  && filepath.end_or_sep (sdrop 1 p1)
  = seqb (fst (filepath.component (String c p1))) ".."
  ∧ (bool_decide (c = "."%char) && filepath.starts_dot p1
     && filepath.end_or_sep (sdrop 1 p1) = true →
     snd (filepath.component (String c p1)) = sdrop 1 p1).
Proof.
  intros Hc. simpl filepath.component. rewrite Hc. unfold seqb.
  destruct p1 as [|c1 p2].
  { simpl. rewrite andb_false_r. split; [|discriminate].
    rewrite bool_decide_eq_false_2; [reflexivity|discriminate]. }
  cbn [filepath.starts_dot sdrop filepath.component].
  destruct (filepath.is_sep c1) eqn:Hc1.
  { assert (Hn : bool_decide (c1 = "."%char) = false).
    { apply bool_decide_eq_false_2. intros ->. discriminate. }
    rewrite Hn, andb_false_r. simpl. split; [|discriminate].
    rewrite bool_decide_eq_false_2; [reflexivity|discriminate]. }
  destruct (filepath.end_or_sep p2) eqn:He.
  - rewrite (component_end_or_sep p2 He). simpl. rewrite andb_true_r.
    split; [|reflexivity].
    destruct (decide (c = "."%char)) as [->|Hne];
      destruct (decide (c1 = "."%char)) as [->|Hne1];
      rewrite ?bool_decide_eq_true_2 by reflexivity;
      rewrite ?(bool_decide_eq_false_2 (c = "."%char)) by exact Hne;
      rewrite ?(bool_decide_eq_false_2 (c1 = "."%char)) by exact Hne1;
      simpl; try reflexivity;
      rewrite bool_decide_eq_false_2; try reflexivity; congruence.
  - rewrite andb_false_r. split; [|discriminate].
    destruct (component_not_end p2 He) as (c' & a & Ha).
    destruct (filepath.component p2) as [x y]. simpl in *. subst x.
    rewrite bool_decide_eq_false_2; [reflexivity|discriminate].
Qed.

Lemma Clean_step_skip rooted st fs :
  fold_left (Clean_step rooted) ("" :: fs) st
  = fold_left (Clean_step rooted) fs st.
Proof. destruct st. reflexivity. Qed.

(** The loop of [Clean] is the fold of its step over the elements. *)
Lemma Clean_loop_fields rooted fuel : ∀ p out dotdot,
  (slen p ≤ fuel)%nat →
  filepath.Clean_loop fuel rooted p out dotdot
  = fst (fold_left (Clean_step rooted) (fields p) (out, dotdot)).
Proof.
  induction fuel as [|fuel IH]; intros p out dotdot Hlen.
  { destruct p; [reflexivity|unfold slen in Hlen; simpl in Hlen; lia]. }
  destruct p as [|c p1]; [reflexivity|].
  assert (H1 : (slen p1 ≤ fuel)%nat)
    by (unfold slen in *; simpl in Hlen; lia).
  rewrite Clean_loop_step.
  destruct (filepath.is_sep c) eqn:Hc.
  { rewrite IH by exact H1. cbn [fields]. rewrite Hc.
    rewrite Clean_step_skip. reflexivity. }
  destruct (component_fields (String c p1)) as (fs & Hf & Hr).
  pose proof (component_rest_shrinks c p1 Hc) as Hshr.
  destruct (dot_test c p1 Hc) as [Hdot Hdot'].
  destruct (dotdot_test c p1 Hc) as [Hdd Hdd'].
  assert (Hne : seqb (fst (filepath.component (String c p1))) "" = false).
  { simpl. rewrite Hc. destruct (filepath.component p1).
    apply bool_decide_eq_false_2. discriminate. }
  rewrite Hf. cbn [fold_left]. unfold Clean_step at 2.
  rewrite Hne, <- Hdot, <- Hdd. cbn [orb].
  destruct (bool_decide (c = "."%char) && filepath.end_or_sep p1) eqn:E1.
  { rewrite <- Clean_step_skip, <- Hr, (Hdot' eq_refl). apply IH, H1. }
  destruct (bool_decide (c = "."%char) && filepath.starts_dot p1
            && filepath.end_or_sep (sdrop 1 p1)) eqn:E2.
  { specialize (Hdd' eq_refl). cbv zeta.
    assert (H2 : (slen (sdrop 1 p1) ≤ fuel)%nat)
      by (rewrite slen_sdrop; lia).
    destruct (dotdot <? slen out)%nat.
    - rewrite <- Clean_step_skip, <- Hr, Hdd'. apply IH, H2.
    - destruct (negb rooted).
      + rewrite <- Clean_step_skip, <- Hr, Hdd'. apply IH, H2.
      + rewrite <- Clean_step_skip, <- Hr, Hdd'. apply IH, H2. }
  cbv zeta.
  destruct (filepath.component (String c p1)) as [elem rest] eqn:Hcomp.
  simpl in Hr, Hshr |- *.
  rewrite <- Clean_step_skip, <- Hr. apply IH. lia.
Qed.

(** ** [filepath.Clean] and the lexical rules *)

Lemma byteAt_app_r (a b : string) i :
  byteAt (a +:+ b) (slen a + i) = byteAt b i.
Proof.
  unfold byteAt, slen. induction a as [|c a IH]; [reflexivity|].
  rewrite string_app_cons. simpl. exact IH.
Qed.

Lemma byteAt_sep_free s i : has_sep s = false → byteAt s i ≠ code "/".
Proof.
  unfold byteAt. revert i. induction s as [|c s IH]; intros i H.
  - destruct i; simpl; discriminate.
  - simpl in H. apply orb_false_iff in H as [Hc Hs].
    destruct i as [|i]; simpl; [|apply IH, Hs].
    unfold filepath.is_sep in Hc. apply bool_decide_eq_false in Hc.
    intros Heq. apply Hc. rewrite <- (chr_code c), Heq. reflexivity.
Qed.

(** [backup] stops at the separator before the last name. *)
Lemma backup_at_sep out dotdot q n :
  byteAt out q = code "/" →
  (∀ i, (1 ≤ i ≤ n)%nat → byteAt out (q + i) ≠ code "/") →
  (dotdot ≤ q)%nat →
  filepath.backup out dotdot (q + n) = q.
Proof.
  intros Hq Hlast Hd. induction n as [|n IH].
  - rewrite Nat.add_0_r. destruct q as [|q]; [reflexivity|].
    simpl. rewrite Hq, Z.eqb_refl, andb_false_r. reflexivity.
  - rewrite Nat.add_succ_r. cbn [filepath.backup].
    assert (Hlt : (dotdot <? S (q + n))%nat = true)
      by (apply Nat.ltb_lt; lia).
    rewrite Hlt. cbn [andb].
    specialize (Hlast (S n) ltac:(lia)) as Hn.
    rewrite Nat.add_succ_r in Hn.
    apply Z.eqb_neq in Hn. rewrite Hn. cbn [negb].
    apply IH. intros i Hi. apply Hlast. lia.
Qed.

(** Or at [dotdot], when there is no separator after it. *)
Lemma backup_at_dotdot out dotdot n :
  (∀ i, (dotdot < i ≤ n)%nat → byteAt out i ≠ code "/") →
  (dotdot ≤ n)%nat →
  filepath.backup out dotdot n = dotdot.
Proof.
  induction n as [|n IH]; intros Hfree Hle.
  - simpl. lia.
  - cbn [filepath.backup]. destruct (dotdot <? S n)%nat eqn:Hlt.
    + apply Nat.ltb_lt in Hlt. cbn [andb].
      specialize (Hfree (S n) ltac:(lia)) as Hn.
      apply Z.eqb_neq in Hn. rewrite Hn. cbn [negb].
      apply IH; [|lia]. intros i Hi. apply Hfree. lia.
    + apply Nat.ltb_ge in Hlt. cbn [andb]. lia.
Qed.

Lemma stake_app (a b : string) : stake (slen a) (a +:+ b) = a.
Proof.
  unfold slen. induction a as [|c a IH]; [destruct b; reflexivity|].
  rewrite string_app_cons. simpl. rewrite IH. reflexivity.
Qed.

Lemma join_sep_snoc names x :
  filepath.join_sep (names ++ [x])
  = match names with
    | [] => x
    | _ => filepath.join_sep names +:+ "/" +:+ x
    end.
Proof.
  induction names as [|a names IH]; [reflexivity|].
  destruct names as [|b names]; [reflexivity|].
  change (filepath.join_sep ((a :: b :: names) ++ [x]))
    with (a +:+ "/" +:+ filepath.join_sep ((b :: names) ++ [x])).
  rewrite IH.
  change (filepath.join_sep (a :: b :: names))
    with (a +:+ "/" +:+ filepath.join_sep (b :: names)).
  rewrite !string_app_assoc. reflexivity.
Qed.

Lemma below_snoc dir names x :
  below dir (names ++ [x])
  = match names with
    | [] => if seqb dir "" || seqb dir "/" then dir +:+ x
            else dir +:+ "/" +:+ x
    | _ => below dir names +:+ "/" +:+ x
    end.
Proof.
  unfold below. destruct names as [|a names]; [reflexivity|].
  cbn [app]. cbv iota.
  change (a :: names ++ [x]) with ((a :: names) ++ [x]).
  rewrite (join_sep_snoc (a :: names) x).
  destruct (seqb dir "" || seqb dir "/");
    rewrite ?string_app_assoc; reflexivity.
Qed.

Lemma is_name_not_empty s : is_name s = true → (1 ≤ slen s)%nat.
Proof.
  unfold is_name, seqb. destruct s; [discriminate|].
  unfold slen. simpl. lia.
Qed.

Lemma join_sep_length names :
  names ≠ [] → Forall (fun s => is_name s = true) names →
  (1 ≤ slen (filepath.join_sep names))%nat.
Proof.
  intros Hne Hall. destruct names as [|a names]; [congruence|].
  apply Forall_cons in Hall as [Ha _]. apply is_name_not_empty in Ha.
  destruct names; [exact Ha|].
  change (filepath.join_sep (a :: s :: names))
    with (a +:+ "/" +:+ filepath.join_sep (s :: names)).
  rewrite slen_app. lia.
Qed.

Lemma below_length dir names :
  Forall (fun s => is_name s = true) names →
  (slen dir ≤ slen (below dir names))%nat
  ∧ (names ≠ [] → (slen dir < slen (below dir names))%nat).
Proof.
  intros Hall. unfold below. destruct names as [|a names]; [split; [lia|congruence]|].
  pose proof (join_sep_length (a :: names) ltac:(discriminate) Hall) as Hj.
  destruct (seqb dir "" || seqb dir "/"); rewrite !slen_app; split; lia.
Qed.

Lemma dots_length k : (slen (dots k) = 0)%nat ↔ k = 0%nat.
Proof.
  destruct k as [|[|k]]; [split; reflexivity|split; discriminate|].
  change (dots (S (S k))) with (dots (S k) +:+ "/..").
  rewrite slen_app. unfold slen at 2. simpl. split; [lia|discriminate].
Qed.

Lemma dots_not_root k : dots k ≠ "/".
Proof.
  destruct k as [|[|k]]; try discriminate.
  change (dots (S (S k))) with (dots (S k) +:+ "/..").
  intros H. apply (f_equal slen) in H. rewrite slen_app in H.
  unfold slen in H at 2 3. simpl in H. lia.
Qed.

Lemma dots_S k :
  dots (S k)
  = (if (0 <? slen (dots k))%nat then dots k +:+ "/" else dots k) +:+ "..".
Proof.
  destruct k as [|k]; [reflexivity|].
  assert (H : (0 <? slen (dots (S k)))%nat = true).
  { apply Nat.ltb_lt. pose proof (dots_length (S k)) as [H _].
    destruct (slen (dots (S k))); [specialize (H eq_refl); discriminate|lia]. }
  rewrite H. change (dots (S (S k))) with (dots (S k) +:+ "/..").
  rewrite string_app_assoc. reflexivity.
Qed.

Lemma seqb_false (a b : string) : a ≠ b → seqb a b = false.
Proof. intros H. apply bool_decide_eq_false_2, H. Qed.

Lemma seqb_true (a b : string) : seqb a b = true → a = b.
Proof. apply bool_decide_eq_true. Qed.

(** The turn of the loop follows the rules. *)
Lemma Clean_step_lex rooted k names el :
  Forall (fun s => is_name s = true) names →
  has_sep el = false →
  Clean_step rooted (lex_state rooted (k, names)) el
  = lex_state rooted (lex_step rooted (k, names) el)
  ∧ Forall (fun s => is_name s = true)
      (snd (lex_step rooted (k, names) el)).
Proof.
  intros Hall Hel.
  assert (Hrev : Forall (fun s => is_name s = true) (rev names))
    by (apply Forall_rev, Hall).
  unfold Clean_step, lex_step, lex_state.
  destruct (seqb el "" || seqb el ".") eqn:Hskip; [auto|].
  apply orb_false_iff in Hskip as [He Hd].
  set (dir := if rooted then "/" else dots k).
  unfold lex_path. cbn [fst snd]. fold dir.
  destruct (seqb el "..") eqn:Hdd.
  - (* [..] *)
    destruct names as [|top names'].
    + cbn [rev below]. rewrite Nat.ltb_irrefl.
      destruct rooted; cbn [negb]; [auto|].
      subst dir. cbn [fst snd]. rewrite <- dots_S. auto.
    + apply Forall_cons in Hall as [Htop Hall'].
      split; [|exact Hall'].
      cbn [rev snd fst] in *.
      assert (Hrev' : Forall (fun s => is_name s = true) (rev names'))
        by (apply Forall_rev, Hall').
      pose proof (below_length dir (rev names' ++ [top]) Hrev) as [_ Hlt].
      specialize (Hlt ltac:(intros H; apply app_eq_nil in H as [_ H];
                           discriminate)).
      apply Nat.ltb_lt in Hlt. rewrite Hlt. f_equal.
      assert (Hfree : has_sep top = false).
      { unfold is_name in Htop.
        repeat (apply andb_true_iff in Htop as [Htop ?]).
        apply negb_true_iff. assumption. }
      pose proof (is_name_not_empty top Htop) as Htop1.
      assert (Hsep : ∀ q,
        below dir (rev names' ++ [top]) = q +:+ "/" +:+ top →
        (slen dir ≤ slen q)%nat →
        stake (filepath.backup (below dir (rev names' ++ [top])) (slen dir)
                 (slen (below dir (rev names' ++ [top])) - 1))
          (below dir (rev names' ++ [top])) = q).
      { intros q Hq Hle. rewrite Hq.
        replace (slen (q +:+ "/" +:+ top) - 1)%nat
          with (slen q + slen top)%nat
          by (rewrite slen_app;
              change (slen ("/" +:+ top)) with (S (slen top)); lia).
        rewrite backup_at_sep; [apply stake_app| |  |exact Hle].
        - rewrite <- (Nat.add_0_r (slen q)), byteAt_app_r. reflexivity.
        - intros i Hi. rewrite byteAt_app_r.
          destruct i as [|i]; [lia|].
          change (byteAt ("/" +:+ top) (S i)) with (byteAt top i).
          apply byteAt_sep_free, Hfree. }
      rewrite below_snoc.
      destruct (rev names') as [|a l] eqn:Hl.
      * (* the last name *)
        cbn [below].
        destruct (seqb dir "" || seqb dir "/") eqn:Hdir.
        -- assert (Hb : filepath.backup (dir +:+ top) (slen dir)
                          (slen (dir +:+ top) - 1) = slen dir).
           { apply backup_at_dotdot; [|rewrite slen_app; lia].
             intros i Hi.
             replace i with (slen dir + (i - slen dir))%nat by lia.
             rewrite byteAt_app_r. apply byteAt_sep_free, Hfree. }
           rewrite Hb. apply stake_app.
        -- specialize (Hsep dir). rewrite below_snoc, Hdir in Hsep.
           apply Hsep; [reflexivity|lia].
      * specialize (Hsep (below dir (a :: l))).
        rewrite below_snoc in Hsep. apply Hsep; [reflexivity|].
        apply below_length. exact Hrev'.
  - (* a name *)
    assert (Hname : is_name el = true).
    { unfold is_name. rewrite He, Hel, Hd, Hdd. reflexivity. }
    split; [|apply Forall_cons; split; assumption].
    cbn [snd fst rev]. f_equal. rewrite below_snoc.
    pose proof (below_length dir (rev names) Hrev) as [Hle Hlt].
    destruct (rev names) as [|a l] eqn:Hl.
    + cbn [below]. subst dir. destruct rooted; cbn [negb andb orb].
      * reflexivity.
      * rewrite (seqb_false (dots k) "/") by apply dots_not_root.
        rewrite orb_false_r.
        destruct k as [|k]; [reflexivity|].
        assert (Hk : (slen (dots (S k)) =? 0)%nat = false).
        { apply Nat.eqb_neq. intros H.
          apply (proj1 (dots_length (S k))) in H. discriminate. }
        rewrite Hk. cbn [negb].
        rewrite seqb_false; [rewrite string_app_assoc; reflexivity|].
        intros H. rewrite H in Hk. discriminate.
    + specialize (Hlt ltac:(discriminate)).
      assert (Hcond : (rooted && negb (slen (below dir (a :: l)) =? 1)%nat)
                      || (negb rooted
                          && negb (slen (below dir (a :: l)) =? 0)%nat)
                      = true).
      { subst dir. destruct rooted; cbn [negb andb orb].
        - change (slen "/") with 1%nat in Hlt.
          rewrite orb_false_r. apply negb_true_iff, Nat.eqb_neq. lia.
        - apply negb_true_iff, Nat.eqb_neq. lia. }
      rewrite Hcond, string_app_assoc. reflexivity.
Qed.

Lemma has_sep_fields p : Forall (fun el => has_sep el = false) (fields p).
Proof.
  induction p as [|c p IH]; [repeat constructor|].
  simpl. destruct (filepath.is_sep c) eqn:Hc.
  - apply Forall_cons. split; [reflexivity|exact IH].
  - destruct (fields p) as [|f fs]; [repeat constructor; simpl; rewrite Hc; reflexivity|].
    apply Forall_cons in IH as [Hf Hfs].
    apply Forall_cons. split; [simpl; rewrite Hc, Hf; reflexivity|exact Hfs].
Qed.

Lemma Clean_fold_lex rooted els : ∀ k names,
  Forall (fun s => is_name s = true) names →
  Forall (fun el => has_sep el = false) els →
  fold_left (Clean_step rooted) els (lex_state rooted (k, names))
  = lex_state rooted (fold_left (lex_step rooted) els (k, names))
  ∧ Forall (fun s => is_name s = true)
      (snd (fold_left (lex_step rooted) els (k, names))).
Proof.
  induction els as [|el els IH]; intros k names Hall Hels; [auto|].
  apply Forall_cons in Hels as [Hel Hels].
  destruct (Clean_step_lex rooted k names el Hall Hel) as [Hstep Hall'].
  cbn [fold_left]. rewrite Hstep.
  destruct (lex_step rooted (k, names) el) as [k' names'].
  apply IH; assumption.
Qed.

(** [filepath.Clean] follows the lexical rules of its documentation,
    element by element. *)
Lemma Clean_lex path :
  filepath.Clean path = lex_Clean path.
Proof.
  unfold filepath.Clean, lex_Clean. destruct path as [|c p1]; [reflexivity|].
  cbn [filepath.end_or_sep]. rewrite (seqb_false (String c p1) "")
    by discriminate.
  cbn [negb]. rewrite andb_true_r.
  destruct (filepath.is_sep c) eqn:Hc.
  - rewrite Clean_loop_fields
      by (unfold slen; simpl; lia).
    cbn [fields]. rewrite Hc.
    change (fold_left (lex_step true) ("" :: fields p1) (0%nat, []))
      with (fold_left (lex_step true) (fields p1) (0%nat, [])).
    destruct (Clean_fold_lex true (fields p1) 0 [] ltac:(constructor)
                (has_sep_fields p1)) as [Hfold _].
    change ("/", 1%nat) with (lex_state true (0%nat, [])).
    rewrite Hfold. cbn [fst lex_state].
    unfold seqb. destruct (decide (lex_path true (fold_left (lex_step true)
                                     (fields p1) (0%nat, [])) = ""))
      as [Heq|Hne].
    + rewrite Heq. reflexivity.
    + rewrite bool_decide_eq_false_2 by exact Hne.
      destruct (lex_path true _) as [|x y] eqn:Hp; [congruence|reflexivity].
  - rewrite Clean_loop_fields by lia.
    destruct (Clean_fold_lex false (fields (String c p1)) 0 []
                ltac:(constructor) (has_sep_fields (String c p1)))
      as [Hfold _].
    change ("", 0%nat) with (lex_state false (0%nat, [])).
    rewrite Hfold. cbn [fst lex_state].
    unfold seqb. destruct (decide (lex_path false (fold_left (lex_step false)
                                     (fields (String c p1)) (0%nat, [])) = ""))
      as [Heq|Hne].
    + rewrite Heq. reflexivity.
    + rewrite bool_decide_eq_false_2 by exact Hne.
      destruct (lex_path false _) as [|x y] eqn:Hp; [congruence|reflexivity].
Qed.

(** ** Paths that are clean, and the names put under them *)

Lemma fields_nonempty s : fields s ≠ [].
Proof.
  destruct s as [|c s]; [discriminate|]. simpl.
  destruct (filepath.is_sep c); [discriminate|].
  destruct (fields s); discriminate.
Qed.

Lemma fields_sep_free s : has_sep s = false → fields s = [s].
Proof.
  induction s as [|c s IH]; [reflexivity|]. simpl. intros H.
  apply orb_false_iff in H as [Hc Hs]. rewrite Hc, (IH Hs). reflexivity.
Qed.

Lemma fields_app (a b : string) :
  fields (a +:+ "/" +:+ b) = fields a ++ fields b.
Proof.
  induction a as [|c a IH]; [reflexivity|].
  rewrite string_app_cons. simpl. rewrite IH.
  destruct (filepath.is_sep c); [reflexivity|].
  pose proof (fields_nonempty a) as Hne.
  destruct (fields a) as [|f fs]; [congruence|reflexivity].
Qed.

Lemma is_name_sep_free s : is_name s = true → has_sep s = false.
Proof.
  unfold is_name. intros H. repeat (apply andb_true_iff in H as [H ?]).
  apply negb_true_iff. assumption.
Qed.

Lemma fields_join names :
  names ≠ [] → Forall (fun s => has_sep s = false) names →
  fields (filepath.join_sep names) = names.
Proof.
  induction names as [|a names IH]; [congruence|]. intros _ Hall.
  apply Forall_cons in Hall as [Ha Hall].
  destruct names as [|b names]; [apply fields_sep_free, Ha|].
  change (filepath.join_sep (a :: b :: names))
    with (a +:+ "/" +:+ filepath.join_sep (b :: names)).
  rewrite fields_app, (fields_sep_free a Ha), IH; [reflexivity| |exact Hall].
  discriminate.
Qed.

Lemma lex_step_name rooted k st el :
  is_name el = true → lex_step rooted (k, st) el = (k, el :: st).
Proof.
  unfold is_name, lex_step. intros H.
  repeat (apply andb_true_iff in H as [H ?]).
  repeat match goal with
         | H : negb _ = true |- _ => apply negb_true_iff in H
         end.
  repeat match goal with
         | H : seqb el _ = false |- _ => rewrite H
         end.
  reflexivity.
Qed.

(** Names are added one after the other. *)
Lemma lex_fold_names rooted names : ∀ k st,
  Forall (fun s => is_name s = true) names →
  fold_left (lex_step rooted) names (k, st) = (k, rev names ++ st).
Proof.
  induction names as [|a names IH]; intros k st Hall; [reflexivity|].
  apply Forall_cons in Hall as [Ha Hall]. cbn [fold_left].
  rewrite lex_step_name by exact Ha. rewrite IH by exact Hall.
  cbn [rev]. rewrite <- app_assoc. reflexivity.
Qed.

Lemma fields_dots k :
  fold_left (lex_step false) (fields (dots k)) (0%nat, []) = (k, []).
Proof.
  induction k as [|[|k] IH]; [reflexivity|reflexivity|].
  change (dots (S (S k))) with (dots (S k) +:+ "/" +:+ "..").
  rewrite fields_app, fold_left_app, IH. reflexivity.
Qed.

Lemma lex_step_rooted st el :
  fst st = 0%nat → fst (lex_step true st el) = 0%nat.
Proof.
  destruct st as [k names]. unfold lex_step.
  destruct (_ || _); [auto|]. destruct (seqb el ".."); [|auto].
  destruct names; auto.
Qed.

Lemma lex_fold_rooted els : ∀ st,
  fst st = 0%nat → fst (fold_left (lex_step true) els st) = 0%nat.
Proof.
  induction els as [|el els IH]; intros st H; [exact H|].
  cbn [fold_left]. apply IH, lex_step_rooted, H.
Qed.

Lemma below_nonempty dir names :
  names ≠ [] → Forall (fun s => is_name s = true) names →
  below dir names ≠ "".
Proof.
  intros Hne Hall Heq. pose proof (below_length dir names Hall) as [_ Hlt].
  specialize (Hlt Hne). rewrite Heq in Hlt. unfold slen in Hlt at 2.
  simpl in Hlt. lia.
Qed.

Lemma is_rooted_app (a b : string) :
  a ≠ "" → is_rooted (a +:+ b) = is_rooted a.
Proof. destruct a as [|c a]; [congruence|reflexivity]. Qed.

Lemma dots_start k : is_rooted (dots k) = false.
Proof.
  induction k as [|[|k] IH]; [reflexivity|reflexivity|].
  change (dots (S (S k))) with (dots (S k) +:+ "/..").
  rewrite is_rooted_app; [exact IH|]. intros H.
  apply (f_equal slen) in H. apply (proj1 (dots_length (S k))) in H.
  discriminate.
Qed.

Lemma name_start s : is_name s = true → is_rooted s = false.
Proof.
  intros H. pose proof (is_name_sep_free s H) as Hs.
  destruct s as [|c s]; [reflexivity|]. simpl in Hs.
  apply orb_false_iff in Hs as [Hc _]. unfold is_rooted. simpl.
  rewrite Hc. reflexivity.
Qed.

Lemma join_start names :
  Forall (fun s => is_name s = true) names →
  is_rooted (filepath.join_sep names) = false.
Proof.
  intros Hall. destruct names as [|a names]; [reflexivity|].
  apply Forall_cons in Hall as [Ha _].
  destruct names as [|b names]; [apply name_start, Ha|].
  change (filepath.join_sep (a :: b :: names))
    with (a +:+ "/" +:+ filepath.join_sep (b :: names)).
  rewrite is_rooted_app; [apply name_start, Ha|].
  intros ->. discriminate.
Qed.

Lemma lex_fold_skip rooted st fs :
  fold_left (lex_step rooted) ("" :: fs) st
  = fold_left (lex_step rooted) fs st.
Proof. destruct st. reflexivity. Qed.

Lemma app_sep_nonempty (a b : string) : a +:+ "/" +:+ b ≠ "".
Proof. destruct a; discriminate. Qed.

(** A clean path is read back as the state it was made from. *)
Lemma clean_path_state rooted k st :
  Forall (fun s => is_name s = true) st →
  (rooted = true → k = 0%nat) →
  fold_left (lex_step rooted) (fields (clean_path rooted (k, st)))
    (0%nat, []) = (k, st)
  ∧ is_rooted (clean_path rooted (k, st)) = rooted
  ∧ clean_path rooted (k, st) ≠ "".
Proof.
  intros Hall Hk.
  assert (Hrev : Forall (fun s => is_name s = true) (rev st))
    by (apply Forall_rev, Hall).
  assert (Hfree : Forall (fun s => has_sep s = false) (rev st)).
  { eapply Forall_impl; [exact Hrev|]. apply is_name_sep_free. }
  assert (Hst : rev (rev st) ++ [] = st)
    by (rewrite app_nil_r; apply rev_involutive).
  unfold clean_path, lex_path. cbn [fst snd].
  destruct rooted.
  - rewrite (Hk eq_refl).
    destruct (rev st) as [|a l] eqn:Hl.
    + assert (st = []) as -> by (rewrite <- Hst; reflexivity).
      repeat split; discriminate.
    + assert (Hb : below "/" (a :: l)
                   = "" +:+ "/" +:+ filepath.join_sep (a :: l))
        by reflexivity.
      rewrite Hb. rewrite seqb_false by apply app_sep_nonempty.
      rewrite fields_app, fields_join by (discriminate || exact Hfree).
      change (fields "" ++ a :: l) with ("" :: a :: l).
      rewrite lex_fold_skip, lex_fold_names by exact Hrev.
      rewrite Hst. split; [reflexivity|]. split; [reflexivity|].
      apply app_sep_nonempty.
  - destruct (rev st) as [|a l] eqn:Hl.
    + assert (st = []) as -> by (rewrite <- Hst; reflexivity).
      cbn [below].
      destruct k as [|k]; [repeat split; discriminate|].
      assert (Hne : dots (S k) ≠ "").
      { intros H. apply (f_equal slen) in H.
        apply (proj1 (dots_length (S k))) in H. discriminate. }
      rewrite seqb_false by exact Hne.
      split; [apply fields_dots|]. split; [apply dots_start|exact Hne].
    + unfold below.
      destruct (seqb (dots k) "" || seqb (dots k) "/") eqn:Hdir.
      * apply orb_true_iff in Hdir as [Hd|Hd]; apply seqb_true in Hd;
          [|exfalso; eapply dots_not_root, Hd].
        assert (k = 0%nat) as ->
          by (apply dots_length; rewrite Hd; reflexivity).
        cbn [dots]. rewrite string_app_nil_l.
        assert (Hne : filepath.join_sep (a :: l) ≠ "").
        { intros H. pose proof (join_sep_length (a :: l)
                                  ltac:(discriminate) Hrev) as Hj.
          rewrite H in Hj. unfold slen in Hj. simpl in Hj. lia. }
        rewrite seqb_false by exact Hne.
        rewrite fields_join by (discriminate || exact Hfree).
        rewrite lex_fold_names by exact Hrev. rewrite Hst.
        split; [reflexivity|]. split; [apply join_start, Hrev|exact Hne].
      * apply orb_false_iff in Hdir as [Hd _].
        assert (Hne : dots k ≠ "").
        { intros H. rewrite H in Hd. discriminate. }
        rewrite seqb_false by apply app_sep_nonempty.
        rewrite fields_app, fold_left_app, fields_dots.
        rewrite fields_join by (discriminate || exact Hfree).
        rewrite lex_fold_names by exact Hrev. rewrite Hst.
        split; [reflexivity|]. split; [|apply app_sep_nonempty].
        rewrite is_rooted_app by exact Hne. apply dots_start.
Qed.

(** [Clean] returns the clean path of a state of the rules. *)
Lemma Clean_state path :
  ∃ rooted k st,
    Forall (fun s => is_name s = true) st
    ∧ (rooted = true → k = 0%nat)
    ∧ filepath.Clean path = clean_path rooted (k, st)
    ∧ (path ≠ "" →
       rooted = is_rooted path
       ∧ fold_left (lex_step rooted) (fields path) (0%nat, []) = (k, st)).
Proof.
  rewrite Clean_lex. unfold lex_Clean.
  fold (is_rooted path).
  destruct (Clean_fold_lex (is_rooted path) (fields path) 0 []
              ltac:(constructor) (has_sep_fields path)) as [_ Hall].
  pose proof (lex_fold_rooted (fields path) (0%nat, []) eq_refl) as Hk.
  destruct (fold_left (lex_step (is_rooted path)) (fields path) (0%nat, []))
    as [k st] eqn:Hfold.
  exists (is_rooted path), k, st. split; [exact Hall|]. split.
  - intros Hr. rewrite Hr in Hfold. rewrite Hfold in Hk. exact Hk.
  - split; [reflexivity|]. intros _. split; [reflexivity|exact Hfold].
Qed.

(** ** The directory and the file of an entry *)

Lemma clean_path_nonempty rooted st : clean_path rooted st ≠ "".
Proof.
  unfold clean_path, seqb. case_bool_decide as H; [discriminate|exact H].
Qed.

Lemma Clean_nonempty path : filepath.Clean path ≠ "".
Proof.
  destruct (Clean_state path) as (r & k & st & _ & _ & -> & _).
  apply clean_path_nonempty.
Qed.

(** The state of the rules after a path. *)
Lemma Clean_run path :
  path ≠ "" →
  filepath.Clean path
  = clean_path (is_rooted path)
      (fold_left (lex_step (is_rooted path)) (fields path) (0%nat, [])).
Proof. intros _. rewrite Clean_lex. reflexivity. Qed.

(** What follows a clean path goes on from its state. *)
Lemma Clean_after rooted k st (q : string) :
  Forall (fun s => is_name s = true) st →
  (rooted = true → k = 0%nat) →
  filepath.Clean (clean_path rooted (k, st) +:+ "/" +:+ q)
  = clean_path rooted (fold_left (lex_step rooted) (fields q) (k, st)).
Proof.
  intros Hall Hk.
  destruct (clean_path_state rooted k st Hall Hk) as (Hfold & Hr & Hne).
  rewrite Clean_run by apply app_sep_nonempty.
  rewrite is_rooted_app, Hr by exact Hne.
  rewrite fields_app, fold_left_app, Hfold. reflexivity.
Qed.

(** [Clean] changes no path that it returned. *)
Lemma Clean_Clean path : filepath.Clean (filepath.Clean path) = filepath.Clean path.
Proof.
  destruct (Clean_state path) as (r & k & st & Hall & Hk & -> & _).
  destruct (clean_path_state r k st Hall Hk) as (Hfold & Hr & Hne).
  rewrite Clean_run by exact Hne. rewrite Hr, Hfold. reflexivity.
Qed.

Section Paths.

Variable rootDir : string.
Variable u : url_URL.

(** The directory of an entry is a clean path. *)
Lemma dirPathOf_clean :
  ∃ rooted k st,
    Forall (fun s => is_name s = true) st
    ∧ (rooted = true → k = 0%nat)
    ∧ dirPathOf rootDir u = clean_path rooted (k, st).
Proof.
  assert (H : ∃ X, dirPathOf rootDir u = filepath.Clean X).
  { unfold dirPathOf. cbn [filepath.Join].
    rewrite (seqb_false (filepath.Dir (Path u)) "")
      by apply Clean_nonempty.
    destruct (seqb rootDir ""); cbn [negb]; [|eauto].
    destruct (seqb (Host u) ""); cbn [negb]; eauto. }
  destruct H as [X ->].
  destruct (Clean_state X) as (r & k & st & Hall & Hk & -> & _).
  exists r, k, st. auto.
Qed.

(** The file of an entry, from the state of its directory. *)
Lemma filePathOf_run rooted k st :
  Forall (fun s => is_name s = true) st →
  (rooted = true → k = 0%nat) →
  dirPathOf rootDir u = clean_path rooted (k, st) →
  filePathOf rootDir u
  = clean_path rooted
      (fold_left (lex_step rooted) (fields (safeFileName (Path u))) (k, st)).
Proof.
  intros Hall Hk Hd. unfold filePathOf. rewrite Hd. cbn [filepath.Join].
  rewrite (seqb_false (clean_path rooted (k, st)) "")
    by apply clean_path_nonempty.
  cbn [negb filepath.join_sep]. apply Clean_after; assumption.
Qed.

End Paths.

Lemma has_sep_no_slash s : has_slash s = false → has_sep s = false.
Proof.
  induction s as [|c s IH]; [reflexivity|]. simpl. intros H.
  apply orb_false_iff in H as [Hc Hs]. rewrite (IH Hs), orb_false_r.
  unfold filepath.is_sep. apply bool_decide_eq_false_2. intros ->.
  discriminate.
Qed.

Lemma after_last_sep_free s :
  has_sep s = false → filepath.after_last_sep s = 0%nat.
Proof.
  induction s as [|c s IH]; [reflexivity|]. simpl. intros H.
  apply orb_false_iff in H as [Hc Hs]. rewrite (IH Hs), Hc. reflexivity.
Qed.

Lemma after_last_sep_app (a b : string) :
  has_sep b = false →
  filepath.after_last_sep (a +:+ "/" +:+ b) = S (slen a).
Proof.
  intros Hb. induction a as [|c a IH].
  - rewrite string_app_nil_l.
    change ("/" +:+ b) with (String "/" b). cbn [filepath.after_last_sep].
    rewrite (after_last_sep_free b Hb). reflexivity.
  - rewrite string_app_cons. cbn [filepath.after_last_sep]. rewrite IH.
    reflexivity.
Qed.

Lemma sdrop_app (a b : string) : sdrop (slen a) (a +:+ b) = b.
Proof.
  unfold slen. induction a as [|c a IH]; [destruct b; reflexivity|].
  rewrite string_app_cons. simpl. exact IH.
Qed.

Lemma strip_trailing_free s :
  s ≠ "" → has_sep s = false → filepath.strip_trailing s = s.
Proof.
  induction s as [|c s IH]; [congruence|]. intros _ H. simpl in H.
  apply orb_false_iff in H as [Hc Hs]. cbn [filepath.strip_trailing].
  destruct s as [|d s]; [simpl; rewrite Hc; reflexivity|].
  rewrite IH by (discriminate || exact Hs). reflexivity.
Qed.

Lemma strip_trailing_app (a b : string) :
  b ≠ "" → has_sep b = false →
  filepath.strip_trailing (a +:+ b) = a +:+ b.
Proof.
  intros Hne Hb. induction a as [|c a IH].
  - rewrite string_app_nil_l. apply strip_trailing_free; assumption.
  - rewrite string_app_cons. cbn [filepath.strip_trailing]. rewrite IH.
    destruct (a +:+ b) eqn:Hab; [|reflexivity].
    destruct a; [|discriminate]. rewrite string_app_nil_l in Hab. congruence.
Qed.

(** The last name of a path that ends with a name. *)
Lemma Base_name (a name : string) :
  is_name name = true →
  filepath.Base (a +:+ "/" +:+ name) = name
  ∧ filepath.Base name = name.
Proof.
  intros Hn. pose proof (is_name_sep_free name Hn) as Hfree.
  assert (Hne : name ≠ "").
  { intros ->. discriminate. }
  unfold filepath.Base. split.
  - destruct (a +:+ "/" +:+ name) eqn:Hp;
      [exfalso; eapply app_sep_nonempty, Hp|]. rewrite <- Hp.
    assert (Hs : filepath.strip_trailing (a +:+ "/" +:+ name)
                 = a +:+ "/" +:+ name).
    { rewrite <- string_app_assoc. apply strip_trailing_app; assumption. }
    rewrite Hs, after_last_sep_app by exact Hfree.
    replace (S (slen a)) with (slen (a +:+ "/"))
      by (rewrite slen_app; unfold slen; simpl; lia).
    rewrite <- string_app_assoc, sdrop_app.
    destruct name; [congruence|reflexivity].
  - destruct name as [|c s] eqn:Hname; [congruence|]. rewrite <- Hname in *.
    rewrite strip_trailing_free, after_last_sep_free by assumption.
    cbn [sdrop]. rewrite Hname. reflexivity.
Qed.

(** A name more in the state is a name more at the end of the path. *)
Lemma clean_path_push rooted k st name :
  Forall (fun s => is_name s = true) st →
  is_name name = true →
  (rooted = true → k = 0%nat) →
  (clean_path rooted (k, name :: st) = name
   ∧ clean_path rooted (k, st) = ".")
  ∨ (clean_path rooted (k, name :: st) = "/" +:+ name
     ∧ clean_path rooted (k, st) = "/")
  ∨ clean_path rooted (k, name :: st)
    = clean_path rooted (k, st) +:+ "/" +:+ name.
Proof.
  intros Hall Hn Hk.
  assert (Hrev : Forall (fun s => is_name s = true) (rev st))
    by (apply Forall_rev, Hall).
  assert (Hst : rev (rev st) = st) by apply rev_involutive.
  assert (Hall' : Forall (fun s => is_name s = true) (rev st ++ [name])).
  { apply Forall_app. split; [exact Hrev|]. repeat constructor. exact Hn. }
  unfold clean_path at 1 3 5. unfold lex_path. cbn [fst snd rev].
  rewrite (seqb_false (below _ (rev st ++ [name])) "")
    by (apply below_nonempty; [destruct (rev st); discriminate|exact Hall']).
  rewrite below_snoc. destruct (rev st) as [|a l] eqn:Hl.
  - assert (st = []) as -> by (rewrite <- Hst; reflexivity).
    destruct rooted.
    + right. left. split; reflexivity.
    + destruct k as [|k]; [left; split; reflexivity|].
      right. right.
      rewrite (seqb_false (dots (S k)) ""), (seqb_false (dots (S k)) "/").
      * unfold clean_path, lex_path. cbn [fst snd rev below].
        rewrite (seqb_false (dots (S k)) ""); [reflexivity|].
        intros H. apply (f_equal slen) in H.
        apply (proj1 (dots_length (S k))) in H. discriminate.
      * apply dots_not_root.
      * intros H. apply (f_equal slen) in H.
        apply (proj1 (dots_length (S k))) in H. discriminate.
  - right. right. unfold clean_path, lex_path. cbn [fst snd]. rewrite Hl.
    rewrite (seqb_false (below _ (a :: l)) "");
      [reflexivity|].
    apply below_nonempty; [discriminate|exact Hrev].
Qed.

(** The directory and the last name of a clean path that ends with a
    name. *)
Lemma Dir_Base_push rooted k st name :
  Forall (fun s => is_name s = true) st →
  is_name name = true →
  (rooted = true → k = 0%nat) →
  filepath.Dir (clean_path rooted (k, name :: st)) = clean_path rooted (k, st)
  ∧ filepath.Base (clean_path rooted (k, name :: st)) = name.
Proof.
  intros Hall Hn Hk. pose proof (is_name_sep_free name Hn) as Hfree.
  destruct (Base_name "" name Hn) as [Hb1 Hb2].
  destruct (clean_path_push rooted k st name Hall Hn Hk)
    as [[-> Hd]|[[-> Hd]| ->]].
  - split; [|exact Hb2]. unfold filepath.Dir.
    rewrite after_last_sep_free by exact Hfree. rewrite Hd.
    destruct name; reflexivity.
  - split; [|exact Hb1]. unfold filepath.Dir.
    change ("/" +:+ name) with ("" +:+ "/" +:+ name).
    rewrite (after_last_sep_app "" name Hfree), Hd. reflexivity.
  - split; [|apply Base_name, Hn]. unfold filepath.Dir.
    rewrite after_last_sep_app by exact Hfree.
    replace (S (slen (clean_path rooted (k, st))))
      with (slen (clean_path rooted (k, st) +:+ "/"))
      by (rewrite slen_app; unfold slen; simpl; lia).
    rewrite <- string_app_assoc, stake_app.
    rewrite <- (string_app_nil_r (clean_path rooted (k, st) +:+ "/")).
    rewrite string_app_assoc.
    rewrite Clean_after by assumption. reflexivity.
Qed.

(** **** Property X22
    The file of an entry is in the directory that is made for it, under
    the name that [safeFileName] gives: when that name is a name ([.], [..]
    and the empty string are none), [filepath.Dir] of the file's path is
    the directory's path and [filepath.Base] of it is the name. *)
Theorem file_is_in_its_directory rootDir u :
  is_name (safeFileName (Path u)) = true →
  filepath.Dir (filePathOf rootDir u) = dirPathOf rootDir u
  ∧ filepath.Base (filePathOf rootDir u) = safeFileName (Path u).
Proof.
  intros Hn.
  destruct (dirPathOf_clean rootDir u) as (r & k & st & Hall & Hk & Hd).
  rewrite (filePathOf_run rootDir u r k st Hall Hk Hd), Hd.
  rewrite fields_sep_free by apply is_name_sep_free, Hn.
  cbn [fold_left]. rewrite lex_step_name by exact Hn.
  apply Dir_Base_push; assumption.
Qed.

(** **** Property X23
    For a URL without a path the file's path is the directory's path: the
    file that is to be created is the directory of the host itself. *)
Theorem empty_path_names_the_directory rootDir u :
  Path u = "" →
  filePathOf rootDir u = dirPathOf rootDir u.
Proof.
  intros Hp.
  destruct (dirPathOf_clean rootDir u) as (r & k & st & Hall & Hk & Hd).
  rewrite (filePathOf_run rootDir u r k st Hall Hk Hd), Hd, Hp.
  reflexivity.
Qed.

(** ** The place of a capture *)

(** A path that starts with a slash gets a name that starts with a
    hyphen. *)
Lemma safeFileName_rooted p :
  ∃ t, safeFileName (String "/" p) = String "-" t.
Proof.
  exists (strings.Map_rest safeFileName_mapping (slen p) p).
  unfold safeFileName, strings.Map.
  change (slen (String "/" p)) with (S (slen p)).
  reflexivity.
Qed.

Lemma safeFileName_rooted_name p : is_name (safeFileName (String "/" p)) = true.
Proof.
  pose proof (has_sep_no_slash _ (safeFileName_no_slash (String "/" p))) as Hs.
  destruct (safeFileName_rooted p) as [t Ht]. rewrite Ht in *.
  unfold is_name. rewrite Hs. unfold seqb.
  rewrite !bool_decide_eq_false_2 by discriminate. reflexivity.
Qed.

Lemma lex_step_empty rooted st : lex_step rooted st "" = st.
Proof. destruct st. reflexivity. Qed.

Lemma lex_fold_join rooted names k st :
  Forall (fun s => is_name s = true) names →
  fold_left (lex_step rooted) (fields (filepath.join_sep names)) (k, st)
  = (k, rev names ++ st).
Proof.
  intros Hall. destruct names as [|a l]; [reflexivity|].
  rewrite fields_join; [apply lex_fold_names, Hall|discriminate|].
  eapply Forall_impl; [exact Hall|]. apply is_name_sep_free.
Qed.

(** The directory of a URL's path: the names before the last one. *)
Lemma Dir_of_path dirs file :
  Forall (fun s => is_name s = true) dirs →
  has_sep file = false →
  filepath.Dir ("/" +:+ filepath.join_sep (dirs ++ [file]))
  = "/" +:+ filepath.join_sep dirs.
Proof.
  intros Hall Hfile. unfold filepath.Dir. rewrite join_sep_snoc.
  destruct dirs as [|a l].
  - change ("/" +:+ file) with ("" +:+ "/" +:+ file).
    rewrite after_last_sep_app by exact Hfile. reflexivity.
  - set (names := a :: l) in *.
    assert (Hp : "/" +:+ filepath.join_sep names +:+ "/" +:+ file
                 = ("/" +:+ filepath.join_sep names) +:+ "/" +:+ file)
      by (rewrite <- !string_app_assoc; reflexivity).
    rewrite Hp, after_last_sep_app by exact Hfile.
    replace (S (slen ("/" +:+ filepath.join_sep names)))
      with (slen (("/" +:+ filepath.join_sep names) +:+ "/"))
      by (rewrite !slen_app; unfold slen; simpl; lia).
    rewrite <- (string_app_assoc _ "/" file), stake_app.
    rewrite Clean_run by (intros H; discriminate).
    change (is_rooted (("/" +:+ filepath.join_sep names) +:+ "/")) with true.
    assert (Hf : fields (("/" +:+ filepath.join_sep names) +:+ "/")
                 = "" :: fields (filepath.join_sep names) ++ [""]).
    { change (("/" +:+ filepath.join_sep names) +:+ "/")
        with (String "/" (filepath.join_sep names +:+ "/" +:+ "")).
      cbn [fields]. rewrite fields_app. reflexivity. }
    rewrite Hf, lex_fold_skip, fold_left_app, lex_fold_join by exact Hall.
    cbn [fold_left]. rewrite lex_step_empty.
    unfold clean_path, lex_path. cbn [fst snd].
    rewrite app_nil_r, rev_involutive.
    assert (Hb : below "/" names = "/" +:+ filepath.join_sep names)
      by reflexivity.
    rewrite Hb. rewrite seqb_false by discriminate. reflexivity.
Qed.

Lemma join_sep_app (a b : list string) :
  a ≠ [] → b ≠ [] →
  filepath.join_sep (a ++ b)
  = filepath.join_sep a +:+ "/" +:+ filepath.join_sep b.
Proof.
  intros Ha Hb. induction a as [|x a IH]; [congruence|].
  destruct a as [|y a].
  - destruct b as [|z b]; [congruence|reflexivity].
  - change (filepath.join_sep ((x :: y :: a) ++ b))
      with (x +:+ "/" +:+ filepath.join_sep ((y :: a) ++ b)).
    rewrite IH by discriminate.
    change (filepath.join_sep (x :: y :: a))
      with (x +:+ "/" +:+ filepath.join_sep (y :: a)).
    rewrite <- !string_app_assoc. reflexivity.
Qed.

Lemma long_not_short s : (2 ≤ slen s)%nat → s ≠ "." ∧ s ≠ "/".
Proof. intros H. split; intros ->; unfold slen in H; simpl in H; lia. Qed.

(** The names put under a clean path are the names added to its state. *)
Lemma under_clean rooted k st names :
  Forall (fun s => is_name s = true) st →
  Forall (fun s => is_name s = true) names →
  (rooted = true → k = 0%nat) →
  names ≠ [] →
  under (clean_path rooted (k, st)) names
  = clean_path rooted (k, rev names ++ st).
Proof.
  intros Hst Hnames Hk Hne.
  assert (Hrev : Forall (fun s => is_name s = true) (rev st))
    by (apply Forall_rev, Hst).
  assert (Hall : Forall (fun s => is_name s = true) (rev st ++ names))
    by (apply Forall_app; split; assumption).
  unfold clean_path at 2. unfold lex_path. cbn [fst snd].
  rewrite rev_app_distr, rev_involutive.
  rewrite (seqb_false (below _ (rev st ++ names)) "")
    by (apply below_nonempty; [destruct (rev st); [exact Hne|discriminate]
                              |exact Hall]).
  unfold clean_path, lex_path. cbn [fst snd].
  destruct (rev st) as [|a l] eqn:Hl.
  - cbn [below app]. unfold under, below.
    destruct names as [|n ns]; [congruence|].
    destruct rooted; [reflexivity|].
    destruct k as [|k]; [reflexivity|].
    assert (Hd : dots (S k) ≠ "").
    { intros H. apply (f_equal slen) in H.
      apply (proj1 (dots_length (S k))) in H. discriminate. }
    rewrite (seqb_false (dots (S k)) "") by exact Hd.
    rewrite (seqb_false (dots (S k)) "/") by apply dots_not_root.
    assert (Hdot : dots (S k) ≠ ".").
    { destruct k as [|k]; [discriminate|].
      change (dots (S (S k))) with (dots (S k) +:+ "/..").
      intros H. apply (f_equal slen) in H. rewrite slen_app in H.
      unfold slen at 2 3 in H. simpl in H. lia. }
    rewrite (seqb_false (dots (S k)) ".") by exact Hdot. reflexivity.
  - assert (Hb : below (if rooted then "/" else dots k) (a :: l) ≠ "")
      by (apply below_nonempty; [discriminate|exact Hrev]).
    rewrite (seqb_false _ "" Hb).
    unfold under. destruct names as [|n ns]; [congruence|].
    set (ns' := n :: ns) in *.
    assert (Hshape : ∀ dir,
              below dir ((a :: l) ++ ns')
              = below dir (a :: l) +:+ "/" +:+ filepath.join_sep ns').
    { intros dir. unfold below. cbn [app].
      change (a :: l ++ ns') with ((a :: l) ++ ns').
      rewrite join_sep_app by (discriminate || exact Hne).
      destruct (seqb dir "" || seqb dir "/");
        rewrite <- !string_app_assoc; reflexivity. }
    rewrite Hshape.
    assert (Hnot : below (if rooted then "/" else dots k) (a :: l) ≠ "."
                   ∧ below (if rooted then "/" else dots k) (a :: l) ≠ "/").
    { pose proof (join_sep_length (a :: l) ltac:(discriminate) Hrev) as Hj.
      apply Forall_cons in Hrev as [Ha Hl'].
      unfold below.
      destruct (seqb _ "" || seqb _ "/") eqn:Hdir.
      - apply orb_true_iff in Hdir as [Hd|Hd]; apply seqb_true in Hd;
          rewrite Hd.
        + rewrite string_app_nil_l.
          destruct l as [|b l].
          * cbn [filepath.join_sep]. split; intros ->; discriminate.
          * change (filepath.join_sep (a :: b :: l))
              with (a +:+ "/" +:+ filepath.join_sep (b :: l)).
            pose proof (is_name_not_empty a Ha) as Hlen.
            apply long_not_short. rewrite !slen_app.
            change (slen "/") with 1%nat. lia.
        + apply long_not_short. rewrite slen_app.
          change (slen "/") with 1%nat. lia.
      - apply long_not_short. rewrite !slen_app.
        change (slen "/") with 1%nat. lia. }
    destruct Hnot as [Hn1 Hn2].
    rewrite (seqb_false _ "." Hn1), (seqb_false _ "/" Hn2). reflexivity.
Qed.

(** The states of the root directory and of the directory of an entry. *)
Lemma dirPathOf_state rootDir u dirs file :
  is_name (Host u) = true →
  Forall (fun s => is_name s = true) dirs →
  has_sep file = false →
  Path u = "/" +:+ filepath.join_sep (dirs ++ [file]) →
  ∃ rooted k st,
    Forall (fun s => is_name s = true) st
    ∧ (rooted = true → k = 0%nat)
    ∧ filepath.Clean rootDir = clean_path rooted (k, st)
    ∧ dirPathOf rootDir u = clean_path rooted (k, rev dirs ++ Host u :: st).
Proof.
  intros Hhost Hdirs Hfile Hpath.
  assert (Hrun : ∀ rooted k st,
            fold_left (lex_step rooted)
              (fields (Host u) ++ fields (filepath.Dir (Path u))) (k, st)
            = (k, rev dirs ++ Host u :: st)).
  { intros rooted k st.
    rewrite Hpath, Dir_of_path by assumption.
    rewrite fields_sep_free by apply is_name_sep_free, Hhost.
    cbn [app fold_left]. rewrite lex_step_name by exact Hhost.
    change ("/" +:+ filepath.join_sep dirs)
      with ("" +:+ "/" +:+ filepath.join_sep dirs).
    rewrite fields_app.
    change (fields "" ++ fields (filepath.join_sep dirs))
      with ("" :: fields (filepath.join_sep dirs)).
    rewrite lex_fold_skip. apply lex_fold_join, Hdirs. }
  assert (Hne : Host u ≠ "") by (intros H; rewrite H in Hhost; discriminate).
  unfold dirPathOf. cbn [filepath.Join].
  destruct (decide (rootDir = "")) as [->|Hroot].
  - exists false, 0%nat, []. split; [constructor|].
    split; [discriminate|]. split; [reflexivity|].
    rewrite (seqb_false (Host u) "" Hne).
    change (seqb "" "") with true. cbn [negb filepath.join_sep].
    rewrite Clean_run by apply app_sep_nonempty.
    rewrite is_rooted_app, name_start by assumption.
    rewrite fields_app, Hrun. reflexivity.
  - destruct (Clean_state rootDir) as (r & k & st & Hst & Hk & Hc & Hf).
    destruct (Hf Hroot) as [-> Hfold].
    exists (is_rooted rootDir), k, st. split; [exact Hst|].
    split; [exact Hk|]. split; [exact Hc|].
    rewrite (seqb_false rootDir "" Hroot). cbn [negb filepath.join_sep].
    rewrite Clean_run by apply app_sep_nonempty.
    rewrite is_rooted_app by exact Hroot.
    rewrite fields_app, fields_app, fold_left_app, Hfold, Hrun. reflexivity.
Qed.

(** **** Property X24
    The capture of a URL goes to the place that the URL names: for a host
    that is a name and a path of the names [dirs] and a last element
    [file], the directory is the cleaned root directory with the host and
    [dirs] under it, and the file is in it under the name that
    [safeFileName] gives to the whole path. An empty root directory is the
    current directory. *)
Theorem capture_keeps_the_path rootDir u dirs file :
  is_name (Host u) = true →
  Forall (fun s => is_name s = true) dirs →
  has_sep file = false →
  Path u = "/" +:+ filepath.join_sep (dirs ++ [file]) →
  dirPathOf rootDir u
  = under (filepath.Clean rootDir) (Host u :: dirs)
  ∧ filePathOf rootDir u
    = under (filepath.Clean rootDir)
        (Host u :: dirs ++ [safeFileName (Path u)]).
Proof.
  intros Hhost Hdirs Hfile Hpath.
  destruct (dirPathOf_state rootDir u dirs file Hhost Hdirs Hfile Hpath)
    as (r & k & st & Hst & Hk & Hc & Hd).
  assert (Hname : is_name (safeFileName (Path u)) = true).
  { rewrite Hpath. apply safeFileName_rooted_name. }
  assert (Hall : Forall (fun s => is_name s = true)
                   (rev dirs ++ Host u :: st)).
  { apply Forall_app. split; [apply Forall_rev, Hdirs|].
    apply Forall_cons. split; assumption. }
  rewrite (filePathOf_run rootDir u r k _ Hall Hk Hd), Hd, Hc.
  rewrite fields_sep_free by apply is_name_sep_free, Hname.
  cbn [fold_left]. rewrite lex_step_name by exact Hname.
  rewrite !under_clean; try assumption; try discriminate.
  - cbn [rev]. rewrite rev_app_distr. cbn [rev app].
    rewrite <- !app_assoc. split; reflexivity.
  - apply Forall_cons. split; [exact Hhost|]. apply Forall_app.
    split; [exact Hdirs|]. repeat constructor. exact Hname.
  - apply Forall_cons. split; assumption.
Qed.

(** ** The further properties on the sample platform *)

Lemma mkdir_failure_creates_no_file_witness :
  let entry := Sample.entry "http://example.com/a/b.js" "hi" "" in
  let w := SampleRun.blocked in
  let w1 := fst (os.MkdirAll Sample.plainfs w "out/example.com/a") in
  let err := fs_PathError "mkdir" "out/example.com" in
  processEntry Sample.parse Sample.plainfs entry "out" false false true ∅ w
  = (w1, Some err)
  ∧ files w1 = files w ∧ opened w1 = opened w ∧ stdout w1 = stdout w.
Proof.
  intros entry w w1 err.
  apply (mkdir_failure_creates_no_file Sample.parse Sample.plainfs entry
           "out" false true ∅ w Sample.u_ab w1 err).
  - vm_compute. reflexivity.
  - vm_compute. reflexivity.
  - vm_compute. reflexivity.
Defined.

Lemma create_failure_keeps_directory_witness :
  let entry := Sample.entry "http://example.com/a/b.js" "hi" "" in
  let w := SampleRun.taken in
  let w3 := fmt_Println w "Processing: " "out/example.com/a/-a-b.js" in
  let err := fs_PathError "open" "out/example.com/a/-a-b.js" in
  processEntry Sample.parse Sample.plainfs entry "out" false false true ∅ w
  = (w3, Some err)
  ∧ dirPathOf "out" Sample.u_ab ∈ dirs w3
  ∧ files w3 = files w ∧ opened w3 = opened w
  ∧ stdout w3
    = stdout w ++ [processing_line (filePathOf "out" Sample.u_ab)].
Proof.
  intros entry w w3 err.
  apply (create_failure_keeps_directory Sample.parse Sample.plainfs entry
           "out" false true ∅ w Sample.u_ab w w3 err).
  - vm_compute. reflexivity.
  - vm_compute. reflexivity.
  - vm_compute. reflexivity.
  - vm_compute. reflexivity.
Defined.

Lemma write_failure_leaves_partial_file_witness :
  ∃ w',
    processEntry Sample.parse (SampleRun.smallfs 1)
      (Sample.entry "http://example.com/a/b.js" "hi" "") "out" false false
      false ∅ Sample.w0
    = (w', Some (fs_PathError "write" "out/example.com/a/-a-b.js"))
    ∧ files w' = <[filePathOf "out" Sample.u_ab := stake 1 "hi"]>
                   (files Sample.w0)
    ∧ filePathOf "out" Sample.u_ab ∉ opened w'.
Proof.
  eapply (write_failure_leaves_partial_file Sample.parse
            (SampleRun.smallfs 1)
            (Sample.entry "http://example.com/a/b.js" "hi" "") "out" false
            false ∅ Sample.w0 Sample.u_ab
            (fst (os.MkdirAll (SampleRun.smallfs 1) Sample.w0
                    (dirPathOf "out" Sample.u_ab)))
            (fst (os.Create (SampleRun.smallfs 1)
                    (fst (os.MkdirAll (SampleRun.smallfs 1) Sample.w0
                            (dirPathOf "out" Sample.u_ab)))
                    (filePathOf "out" Sample.u_ab)))
            (filePathOf "out" Sample.u_ab) "hi" 1).
  - vm_compute. reflexivity.
  - vm_compute. reflexivity.
  - vm_compute. reflexivity.
  - vm_compute. reflexivity.
  - vm_compute. reflexivity.
  - vm_compute. reflexivity.
Defined.

Lemma close_failure_after_full_write_witness :
  ∃ w',
    processEntry Sample.parse SampleRun.lazyfs
      (Sample.entry "http://example.com/a/b.js" "hi" "") "out" false false
      false ∅ Sample.w0
    = (w', Some (fs_PathError "close" "out/example.com/a/-a-b.js"))
    ∧ files w' = <[filePathOf "out" Sample.u_ab := "hi"]> (files Sample.w0)
    ∧ filePathOf "out" Sample.u_ab ∉ opened w'.
Proof.
  eapply (close_failure_after_full_write Sample.parse SampleRun.lazyfs
            (Sample.entry "http://example.com/a/b.js" "hi" "") "out" false
            false ∅ Sample.w0 Sample.u_ab
            (fst (os.MkdirAll SampleRun.lazyfs Sample.w0
                    (dirPathOf "out" Sample.u_ab)))
            (fst (os.Create SampleRun.lazyfs
                    (fst (os.MkdirAll SampleRun.lazyfs Sample.w0
                            (dirPathOf "out" Sample.u_ab)))
                    (filePathOf "out" Sample.u_ab)))
            (filePathOf "out" Sample.u_ab) "hi"
            (fst (os.Write SampleRun.lazyfs
                    (fst (os.Create SampleRun.lazyfs
                            (fst (os.MkdirAll SampleRun.lazyfs Sample.w0
                                    (dirPathOf "out" Sample.u_ab)))
                            (filePathOf "out" Sample.u_ab)))
                    (filePathOf "out" Sample.u_ab) "hi"))).
  - vm_compute. reflexivity.
  - vm_compute. reflexivity.
  - vm_compute. reflexivity.
  - vm_compute. reflexivity.
  - vm_compute. reflexivity.
  - vm_compute. reflexivity.
  - vm_compute. reflexivity.
Defined.

(** Two requests for the same path with different queries. *)
Lemma same_path_last_entry_wins_witness :
  let e1 := Sample.entry "http://example.com/a/b.js?v=1" "one" "" in
  let e2 := Sample.entry "http://example.com/a/b.js?v=2" "two" "" in
  let w1 := fst (processEntry Sample.parse Sample.plainfs e1 "out" false
                   false false ∅ Sample.w0) in
  let w2 := fst (processEntry Sample.parse Sample.plainfs e2 "out" false
                   false false ∅ w1) in
  ∃ data,
    payload e2 = Some data
    ∧ files w2
      = <[filePathOf "out" (mkURL "http" "example.com" "/a/b.js" "v=1" "")
          := data]> (files Sample.w0).
Proof.
  intros e1 e2 w1 w2.
  apply (same_path_last_entry_wins Sample.parse Sample.plainfs e1 e2 "out"
           false false ∅ Sample.w0
           (mkURL "http" "example.com" "/a/b.js" "v=1" "")
           (mkURL "http" "example.com" "/a/b.js" "v=2" "") w1 w2).
  - vm_compute. reflexivity.
  - vm_compute. reflexivity.
  - reflexivity.
  - reflexivity.
  - vm_compute. reflexivity.
  - vm_compute. reflexivity.
  - vm_compute. reflexivity.
Defined.

(** The lexemes of [{"log":{}}]. *)
Lemma no_entries_string_is_an_error_witness :
  ∃ err,
    processHar Sample.parse Sample.plainfs
      [LBrace; LStr "log"; Colon; LBrace; RBrace; RBrace] "out" false false
      false ∅ Sample.w0
    = Some (0%nat, Some err, Sample.w0).
Proof.
  apply (no_entries_string_is_an_error Sample.parse Sample.plainfs
           [LBrace; LStr "log"; Colon; LBrace; RBrace; RBrace] "out" false
           false false ∅ Sample.w0).
  intros H.
  repeat (apply elem_of_cons in H as [H|H]; [discriminate|]).
  apply elem_of_nil in H. exact H.
Defined.

Lemma processHar_frame_witness :
  ∃ count err w',
    processHar Sample.parse Sample.plainfs Sample.har_number "out" false
      false false ∅ Sample.w0 = Some (count, err, w')
    ∧ dirs Sample.w0 ⊆ dirs w'
    ∧ opened w' ⊆ opened Sample.w0
    ∧ (false = false → stdout w' = stdout Sample.w0)
    ∧ ∀ p, files w' !! p ≠ files Sample.w0 !! p →
           ∃ url u, Sample.parse url = inl u ∧ p = filePathOf "out" u.
Proof.
  eexists _, _, _. split; [vm_compute; reflexivity|].
  eapply (processHar_frame Sample.parse Sample.plainfs Sample.har_number
            "out" false false false ∅ Sample.w0).
  vm_compute. reflexivity.
Defined.

Lemma success_counts_every_entry_witness :
  ∃ w' dec1 token dec2 es dec3 token' dec4,
    let reader :=
      Sample.har (Sample.entry_lexemes "http://example.com/a/b.js" "hi") in
    scanEntries (S (length reader)) (json.NewDecoder reader)
    = Some (None, dec1)
    ∧ json.Token_ dec1 = (inl token, dec2)
    ∧ Decoded dec2 es dec3
    ∧ json.More dec3 = false
    ∧ json.Token_ dec3 = (inl token', dec4)
    ∧ runEntries Sample.parse Sample.plainfs es "out" false false false ∅
        Sample.w0 = Some w'
    ∧ 1%nat = length es.
Proof.
  eexists.
  eapply (success_counts_every_entry Sample.parse Sample.plainfs
            (Sample.har
               (Sample.entry_lexemes "http://example.com/a/b.js" "hi"))
            "out" false false false ∅ Sample.w0 1%nat).
  vm_compute. reflexivity.
Defined.


Lemma rest_of_stream_is_not_read_witness :
  ∃ w',
    processHar Sample.parse Sample.plainfs
      (Sample.har (Sample.entry_lexemes "http://example.com/a/b.js" "hi")
       ++ [LBad; LTrunc true])
      "out" false false false ∅ Sample.w0
    = Some (1%nat, None, w').
Proof.
  eexists.
  apply (rest_of_stream_is_not_read Sample.parse Sample.plainfs
           (Sample.har (Sample.entry_lexemes "http://example.com/a/b.js" "hi"))
           [LBad; LTrunc true] "out" false false false ∅ Sample.w0 1%nat).
  vm_compute. reflexivity.
Defined.

Lemma Split_pieces_witness :
  strings.Split "a,b,,c" "," = ["a"; "b"; ""; "c"]
  ∧ strings_Join (strings.Split "a,b,,c" ",") "," = "a,b,,c"
  ∧ strings.Split "a,b,,c" "," ≠ []
  ∧ Forall (fun p => strings.Index p "," = None)
      (strings.Split "a,b,,c" ",").
Proof.
  split; [vm_compute; reflexivity|].
  apply (Split_pieces "a,b,,c" ","). discriminate.
Defined.

Lemma main_dry_run_writes_nothing_witness :
  ∃ w' code,
    SampleRun.main ["-o"; "out"; "-dry-run"; "-verbose"; "a.har"; "b.har"]
      Sample.w0 = Some (w', code)
    ∧ same_fs Sample.w0 w'.
Proof.
  eexists _, _. split; [vm_compute; reflexivity|].
  eapply (main_dry_run_writes_nothing Sample.parse Sample.plainfs
            SampleRun.open SampleRun.Error
            ["-o"; "out"; "-dry-run"; "-verbose"; "a.har"; "b.har"]
            Sample.w0).
  - vm_compute. reflexivity.
  - reflexivity.
  - vm_compute. reflexivity.
Defined.

Lemma main_reports_each_capture_witness :
  ∃ w' code,
    SampleRun.main ["-o"; "out"; "a.har"; "c.har"; "b.har"] Sample.w0
    = Some (w', code)
    ∧ ∃ lines, stdout w' = stdout Sample.w0 ++ lines
               ∧ length lines = length ["a.har"; "c.har"; "b.har"].
Proof.
  eexists _, _. split; [vm_compute; reflexivity|].
  eapply (main_reports_each_capture Sample.parse Sample.plainfs
            SampleRun.open SampleRun.Error
            ["-o"; "out"; "a.har"; "c.har"; "b.har"] Sample.w0).
  - vm_compute. reflexivity.
  - reflexivity.
  - discriminate.
  - vm_compute. reflexivity.
Defined.

(** The path [/café/menu€.txt]. *)
Lemma safeFileName_utf8_witness :
  let s := string_of [0x2F; 0x63; 0x61; 0x66; 0xC3; 0xA9; 0x2F; 0x6D; 0x65;
                      0x6E; 0x75; 0xE2; 0x82; 0xAC; 0x2E; 0x74; 0x78; 0x74] in
  bytes_of (safeFileName s)
  = [0x2D; 0x63; 0x61; 0x66; 0xC3; 0xA9; 0x2D; 0x6D; 0x65; 0x6E; 0x75; 0xE2;
     0x82; 0xAC; 0x2E; 0x74; 0x78; 0x74]
  ∧ safeFileName s = hyphenate s
  ∧ slen (safeFileName s) = slen s
  ∧ (has_slash s = false → safeFileName s = s).
Proof.
  intros s. split; [vm_compute; reflexivity|].
  apply (safeFileName_utf8 s). vm_compute. reflexivity.
Defined.

Lemma dry_run_previews_the_run_witness :
  ∃ wd wr,
    processHar Sample.parse Sample.plainfs
      (Sample.har (Sample.entry_lexemes "http://example.com/a/b.js" "hi"))
      "out" false true true ∅ Sample.w0 = Some (1%nat, None, wd)
    ∧ 1%nat = 1%nat
    ∧ ∃ plan : list (string * string),
        stdout wd
        = stdout Sample.w0 ++ map (fun p => processing_line (fst p)) plan
        ∧ files wr = write_all plan (files Sample.w0).
Proof.
  eexists _, _. split; [vm_compute; reflexivity|].
  eapply (dry_run_previews_the_run Sample.parse Sample.plainfs
            (Sample.har
               (Sample.entry_lexemes "http://example.com/a/b.js" "hi"))
            "out" false false ∅ Sample.w0).
  - vm_compute. reflexivity.
  - vm_compute. reflexivity.
Defined.

Lemma second_run_changes_no_file_witness :
  ∃ w1 w2,
    processHar Sample.parse Sample.plainfs
      (Sample.har (Sample.entry_lexemes "http://example.com/a/b.js" "hi"))
      "out" false false false ∅ Sample.w0 = Some (1%nat, None, w1)
    ∧ 1%nat = 1%nat ∧ files w2 = files w1.
Proof.
  eexists _, _. split; [vm_compute; reflexivity|].
  eapply (second_run_changes_no_file Sample.parse Sample.plainfs
            (Sample.har
               (Sample.entry_lexemes "http://example.com/a/b.js" "hi"))
            "out" false false false true ∅ Sample.w0).
  - vm_compute. reflexivity.
  - vm_compute. reflexivity.
Defined.

(** The capture of [http://example.com/css/main.css]. *)
Lemma file_is_in_its_directory_witness :
  let u := mkURL "http" "example.com" "/css/main.css" "" "" in
  filePathOf "out" u = "out/example.com/css/-css-main.css"
  ∧ filepath.Dir (filePathOf "out" u) = dirPathOf "out" u
  ∧ filepath.Base (filePathOf "out" u) = safeFileName (Path u).
Proof.
  intros u. split; [vm_compute; reflexivity|].
  apply (file_is_in_its_directory "out" u). vm_compute. reflexivity.
Defined.

(** The capture of [http://example.com]. *)
Lemma empty_path_names_the_directory_witness :
  let u := mkURL "http" "example.com" "" "" "" in
  dirPathOf "out" u = "out/example.com"
  ∧ filePathOf "out" u = dirPathOf "out" u.
Proof.
  intros u. split; [vm_compute; reflexivity|].
  apply (empty_path_names_the_directory "out" u). reflexivity.
Defined.

(** The capture of [http://example.com/a/b/c.js] under [./out/]. *)
Lemma capture_keeps_the_path_witness :
  let u := mkURL "http" "example.com" "/a/b/c.js" "" "" in
  dirPathOf "./out/" u = "out/example.com/a/b"
  ∧ filePathOf "./out/" u = "out/example.com/a/b/-a-b-c.js"
  ∧ dirPathOf "./out/" u
    = under (filepath.Clean "./out/") (Host u :: ["a"; "b"])
  ∧ filePathOf "./out/" u
    = under (filepath.Clean "./out/")
        (Host u :: ["a"; "b"] ++ [safeFileName (Path u)]).
Proof.
  intros u. split; [vm_compute; reflexivity|].
  split; [vm_compute; reflexivity|].
  apply (capture_keeps_the_path "./out/" u ["a"; "b"] "c.js").
  - vm_compute. reflexivity.
  - repeat constructor.
  - reflexivity.
  - reflexivity.
Defined.
